(** * Zantetsu: the reference (pure JavaScript) heuristic parser

    A shallow embedding of [bindings/node/src/index.ts]: the class
    [JsHeuristicParser] (the fallback that runs when the native addon cannot
    be loaded), the public wrapper [HeuristicParser], and the functions at
    the boundary with the native addon that do not call into it
    ([initNative], [isUsingNativeModule], [convertEpisodeSpec]).

    - A JavaScript string is the list of its UTF-16 code units ([N]).
    - A regular expression literal is a value of [regex]; [ms] is the
      backtracking matcher of the language, returning every way the pattern
      can match from a position, in backtracking priority order, so that the
      head of the list is the match the engine reports.
    - [parseInt] results are [number]: [NaN], an integer-valued double or
      an infinity.  [doubleOfNat] rounds the integer that the digits denote
      to the nearest double, ties to even, and to [Infinity] from
      2^1024 - 2^970 on; below 2^53 nothing changes.
    - [confidence] is kept as the exact rational [fieldsPresent / fieldsTotal]
      (JavaScript stores the double nearest to it). *)

From Stdlib Require Import String Ascii NArith ZArith QArith Bool Lia List.
Import ListNotations.
Open Scope nat_scope.

(** ** JavaScript strings *)

Definition jsstring := list N.

(** The code units of an ASCII literal. *)
Definition lit (s : string) : jsstring :=
  map N_of_ascii (list_ascii_of_string s).

Definition in_range (c : N) (r : N * N) : bool :=
  (N.leb (fst r) c && N.leb c (snd r))%bool.

Definition in_ranges (c : N) (rs : list (N * N)) : bool :=
  existsb (in_range c) rs.

(** WhiteSpace and LineTerminator code points: what [String.prototype.trim]
    strips and what the class escape [\s] contains. *)
Definition whiteSpace : list (N * N) :=
  [ (9, 13); (32, 32); (160, 160); (5760, 5760); (8192, 8202); (8232, 8233);
    (8239, 8239); (8287, 8287); (12288, 12288); (65279, 65279) ]%N.

Definition digit : list (N * N) := [ (48, 57) ]%N.

(** [\w]: A-Z, a-z, 0-9 and underscore. *)
Definition wordChar : list (N * N) :=
  [ (65, 90); (97, 122); (48, 57); (95, 95) ]%N.

Definition isWhiteSpace (c : N) : bool := in_ranges c whiteSpace.
Definition isDigit (c : N) : bool := in_ranges c digit.
Definition isWordChar (c : N) : bool := in_ranges c wordChar.

Definition isLower (c : N) : bool := (N.leb 97 c && N.leb c 122)%bool.
Definition isUpper (c : N) : bool := (N.leb 65 c && N.leb c 90)%bool.
Definition upper (c : N) : N := if isLower c then (c - 32)%N else c.
Definition lower (c : N) : N := if isUpper c then (c + 32)%N else c.

Fixpoint trimStart (s : jsstring) : jsstring :=
  match s with
  | c :: s' => if isWhiteSpace c then trimStart s' else s
  | [] => []
  end.

Definition trimEnd (s : jsstring) : jsstring := rev (trimStart (rev s)).

Definition trim (s : jsstring) : jsstring := trimEnd (trimStart s).

(** [toLowerCase] / [toUpperCase], on ASCII letters.  The source applies them
    to captures of [\w+] and of [[A-Fa-f0-9]{8}] only, which hold nothing but
    ASCII. *)
Definition toLowerCase (s : jsstring) : jsstring := map lower s.
Definition toUpperCase (s : jsstring) : jsstring := map upper s.

Fixpoint startsWith (pat s : jsstring) : bool :=
  match pat, s with
  | [], _ => true
  | p :: pat', c :: s' => (N.eqb p c && startsWith pat' s')%bool
  | _ :: _, [] => false
  end.

(** [s.indexOf(pat)]; [None] stands for -1. *)
Fixpoint indexOf (pat s : jsstring) : option nat :=
  if startsWith pat s then Some 0%nat
  else match s with
       | [] => None
       | _ :: s' => option_map S (indexOf pat s')
       end.

(** [s.lastIndexOf(pat)]; [None] stands for -1. *)
Fixpoint lastIndexOf (pat s : jsstring) : option nat :=
  match s with
  | [] => if startsWith pat s then Some 0%nat else None
  | _ :: s' =>
      match lastIndexOf pat s' with
      | Some i => Some (S i)
      | None => if startsWith pat s then Some 0%nat else None
      end
  end.

Definition includes (pat s : jsstring) : bool :=
  match indexOf pat s with Some _ => true | None => false end.

(** [s.substring(i)] and [s.substring(0, j)]. *)
Definition substringFrom (i : nat) (s : jsstring) : jsstring := skipn i s.
Definition substringTo (j : nat) (s : jsstring) : jsstring := firstn j s.

(** [parts.join(sep)]. *)
Fixpoint join (sep : jsstring) (parts : list jsstring) : jsstring :=
  match parts with
  | [] => []
  | [p] => p
  | p :: rest => p ++ sep ++ join sep rest
  end.

(** ** Numbers produced by [parseInt] *)

(** A Number value that [parseInt] can return: [NaN], a double whose value
    is the integer [z], or an infinity.  ([-0] is not told from [0]: no
    operation of the source tells them apart, and no capture holds a sign.) *)
Inductive number :=
| NaN
| Int (z : Z)
| Infinity (negative : bool).

Definition negate (n : number) : number :=
  match n with
  | NaN => NaN
  | Int z => Int (- z)
  | Infinity b => Infinity (negb b)
  end.

(** The Number value for a non-negative integer [z]: [z] itself below 2^53;
    above, the nearest multiple of 2^shift that has a 53-bit quotient, ties
    going to the even quotient, and [Infinity] when that reaches 2^1024.
    (For more than 20 significant digits the language lets an engine round
    a truncated value instead; V8, on which the package runs, rounds the
    exact one.) *)
Definition doubleOfNat (z : Z) : number :=
  if (z <? 9007199254740992)%Z then Int z
  else
    let shift := (Z.log2 z - 52)%Z in
    let q := Z.shiftr z shift in
    let r := (z - Z.shiftl q shift)%Z in
    let half := Z.shiftl 1 (shift - 1) in
    let m :=
      if ((half <? r)%Z || ((r =? half)%Z && Z.odd q))%bool
      then (q + 1)%Z else q in
    let v := Z.shiftl m shift in
    if (2 ^ 1024 <=? v)%Z then Infinity false else Int v.

Definition digitValue (c : N) : Z := Z.of_N (c - 48).

Fixpoint takeDigits (s : jsstring) : jsstring :=
  match s with
  | c :: s' => if isDigit c then c :: takeDigits s' else []
  | [] => []
  end.

Definition decimalValue (ds : jsstring) : Z :=
  fold_left (fun acc c => (10 * acc + digitValue c)%Z) ds 0%Z.

(** [parseInt(s, 10)]: leading white space is skipped, an optional sign is
    read, then the longest run of decimal digits; no digit gives [NaN],
    otherwise the Number value for the integer that the digits denote. *)
Definition parseInt (s : jsstring) : number :=
  let s1 := trimStart s in
  let '(neg, s2) :=
    match s1 with
    | 45%N :: r => (true, r)
    | 43%N :: r => (false, r)
    | _ => (false, s1)
    end in
  match takeDigits s2 with
  | [] => NaN
  | ds =>
      let n := doubleOfNat (decimalValue ds) in
      if neg then negate n else n
  end.

(** [Math.min] on the rationals standing for finite numbers. *)
Definition Math_min (a b : Q) : Q := if Qle_bool a b then a else b.

(** [a < b] on numbers: false as soon as one side is [NaN]. *)
Definition num_lt (a b : number) : bool :=
  match a, b with
  | Int x, Int y => Z.ltb x y
  | Int _, Infinity false => true
  | Infinity true, Int _ => true
  | Infinity true, Infinity false => true
  | _, _ => false
  end.

(** ** Regular expressions *)

Inductive regex :=
| Eps                                             (* empty pattern *)
| Chr (c : N)                                     (* a pattern character *)
| Cls (inv : bool) (rs : list (N * N))            (* [...] / [^...], \s, \d, \w *)
| Bol                                             (* ^ *)
| Eol                                             (* $ *)
| WordB                                           (* \b *)
| Seq (a b : regex)
| Alt (a b : regex)                               (* a|b *)
| Rep (mn : nat) (mx : option nat) (a : regex)    (* greedy a{mn,mx}; a* a+ a? *)
| Grp (i : nat) (a : regex).                      (* i-th capturing group *)

Definition Star := Rep 0 None.
Definition Plus := Rep 1 None.
Definition Opt := Rep 0 (Some 1%nat).

(** A position in the subject string, with the characters already passed
    (nearest first) and the captures made so far. *)
Record state := mkState {
  before : list N;
  after : jsstring;
  caps : list (nat * jsstring)
}.

Definition advance (x : state) (c : N) (s : jsstring) : state :=
  {| before := c :: before x; after := s; caps := caps x |}.

(** Text consumed between position [x] and a later position [y]. *)
Definition consumed (x y : state) : jsstring :=
  firstn (length (after x) - length (after y)) (after x).

Definition capture (i : nat) (x y : state) : state :=
  {| before := before y; after := after y;
     caps := (i, consumed x y) :: caps y |}.

(** RepeatMatcher of the language definition, greedy case.  An iteration
    that consumes nothing once the minimum is reached is a failure, so the
    remaining input or the remaining minimum shrinks at every call and
    [fuel = mn + length (after x) + 1] is never exhausted. *)
Fixpoint repeatMatcher (m : state -> list state) (fuel mn : nat)
    (mx : option nat) (x : state) : list state :=
  match fuel with
  | O => []
  | S fuel' =>
      match mx with
      | Some O => [x]
      | _ =>
          let d := fun y =>
            if (Nat.eqb mn 0 && Nat.eqb (length (after y)) (length (after x)))%bool
            then []
            else repeatMatcher m fuel' (Nat.pred mn) (option_map Nat.pred mx) y in
          let z := flat_map d (m x) in
          if Nat.eqb mn 0 then z ++ [x] else z
      end
  end.

Section Matcher.

(** The [i] (ignoreCase) flag of the pattern. *)
Variable ignoreCase : bool.

(** Canonicalize.  Every character of the patterns below is ASCII or white
    space; for those, two code units canonicalize alike exactly when they
    are equal or are the two cases of one ASCII letter. *)
Definition canonicalize (c : N) : N := if ignoreCase then upper c else c.

Definition chrMatch (p c : N) : bool := N.eqb (canonicalize p) (canonicalize c).

(** Some member [a] of the class has [canonicalize a = canonicalize c]. *)
Definition clsMatch (inv : bool) (rs : list (N * N)) (c : N) : bool :=
  xorb inv
    (in_ranges c rs
     || (ignoreCase && (in_ranges (upper c) rs || in_ranges (lower c) rs)))%bool.

Definition wordBefore (x : state) : bool :=
  match before x with c :: _ => isWordChar c | [] => false end.

Definition wordAfter (x : state) : bool :=
  match after x with c :: _ => isWordChar c | [] => false end.

Fixpoint ms (r : regex) (x : state) : list state :=
  match r with
  | Eps => [x]
  | Chr p =>
      match after x with
      | c :: s => if chrMatch p c then [advance x c s] else []
      | [] => []
      end
  | Cls inv rs =>
      match after x with
      | c :: s => if clsMatch inv rs c then [advance x c s] else []
      | [] => []
      end
  | Bol => match before x with [] => [x] | _ :: _ => [] end
  | Eol => match after x with [] => [x] | _ :: _ => [] end
  | WordB => if xorb (wordBefore x) (wordAfter x) then [x] else []
  | Seq a b => flat_map (ms b) (ms a x)
  | Alt a b => ms a x ++ ms b x
  | Rep mn mx a => repeatMatcher (ms a) (mn + length (after x) + 1) mn mx x
  | Grp i a => map (capture i x) (ms a x)
  end.

(** Scan forward from a position for the first index at which the pattern
    matches: the text skipped on the way and the state at the end of the
    match. *)
Fixpoint search (r : regex) (l : list N) (s : jsstring)
    : option (jsstring * state) :=
  match ms r (mkState l s []) with
  | y :: _ => Some ([], y)
  | [] =>
      match s with
      | [] => None
      | c :: s' =>
          match search r (c :: l) s' with
          | Some (sk, y) => Some (c :: sk, y)
          | None => None
          end
      end
  end.

(** [re.exec(s)] for a pattern without the [g] flag. *)
Definition exec (r : regex) (s : jsstring) : option (jsstring * state) :=
  search r [] s.

(** [s.replace(re, rep)], no [g] flag, [rep] free of [$]: the first match
    is replaced. *)
Definition replace (r : regex) (rep s : jsstring) : jsstring :=
  match exec r s with
  | Some (sk, y) => sk ++ rep ++ after y
  | None => s
  end.

(** [s.replace(re, rep)] with the [g] flag: matches are found one after
    the other from [lastIndex]; after an empty match [lastIndex] moves on
    by one code unit.  The remaining input shrinks at every call, so a fuel
    above its length is never exhausted ([replaceAllFrom_fuel]). *)
Fixpoint replaceAllFrom (r : regex) (rep : jsstring) (fuel : nat)
    (l : list N) (s : jsstring) : jsstring :=
  match fuel with
  | O => s
  | S fuel' =>
      match search r l s with
      | None => s
      | Some (sk, y) =>
          if Nat.ltb (length (after y)) (length s - length sk)
          then sk ++ rep ++ replaceAllFrom r rep fuel' (before y) (after y)
          else match after y with
               | [] => sk ++ rep
               | c :: s' =>
                   sk ++ rep ++ c :: replaceAllFrom r rep fuel' (c :: before y) s'
               end
      end
  end.

Definition replaceAll (r : regex) (rep s : jsstring) : jsstring :=
  replaceAllFrom r rep (S (length s)) [] s.

(** [s.split(re)] for a pattern without capture groups.  [piece] holds,
    nearest first, the characters passed since the last separator.  A match
    that ends where the current piece starts is skipped, as the language
    requires; twice the length of the input is fuel enough
    ([splitFrom_fuel]). *)
Fixpoint splitFrom (r : regex) (fuel : nat) (l piece : list N)
    (s : jsstring) : list jsstring :=
  match fuel with
  | O => [rev piece ++ s]
  | S fuel' =>
      match s with
      | [] => [rev piece]
      | c :: s' =>
          match ms r (mkState l s []) with
          | y :: _ =>
              if (match piece with [] => true | _ => false end
                  && Nat.eqb (length (after y)) (length s))%bool
              then splitFrom r fuel' (c :: l) (c :: piece) s'
              else rev piece :: splitFrom r fuel' (before y) [] (after y)
          | [] => splitFrom r fuel' (c :: l) (c :: piece) s'
          end
      end
  end.

Definition split (r : regex) (s : jsstring) : list jsstring :=
  match s with
  | [] => match ms r (mkState [] [] []) with _ :: _ => [] | [] => [[]] end
  | _ => splitFrom r (2 * length s + 1) [] [] s
  end.

End Matcher.

Fixpoint lookup (i : nat) (cs : list (nat * jsstring)) : option jsstring :=
  match cs with
  | [] => None
  | (j, t) :: cs' => if Nat.eqb i j then Some t else lookup i cs'
  end.

(** [match[i]] of a successful [exec].  The empty string stands for a group
    that took no part in the match; in every pattern below the groups are
    on the only path through the pattern and always take part. *)
Definition captured (i : nat) (y : state) : jsstring :=
  match lookup i (caps y) with Some t => t | None => [] end.

(** A regular expression literal: its pattern and its [i] flag. *)
Record RegExp := mkRegExp {
  pattern : regex;
  flagI : bool
}.

Definition re_exec (re : RegExp) (s : jsstring) : option (jsstring * state) :=
  exec (flagI re) (pattern re) s.

Definition re_replace (re : RegExp) (rep s : jsstring) : jsstring :=
  replace (flagI re) (pattern re) rep s.

Definition re_replaceAll (re : RegExp) (rep s : jsstring) : jsstring :=
  replaceAll (flagI re) (pattern re) rep s.

Definition re_split (re : RegExp) (s : jsstring) : list jsstring :=
  split (flagI re) (pattern re) s.

Definition seq (rs : list regex) : regex := fold_right Seq Eps rs.

Definition ch (a : ascii) : N := N_of_ascii a.
Definition one (a : ascii) : N * N := (ch a, ch a).
Definition span (a b : ascii) : N * N := (ch a, ch b).

(** ** The result record ([types.ts]) *)

Inductive EpisodeSpec :=
| Single (episode : number)
| Range (start end_ : number)
| Multi (episodes : list number)
| Versioned (episode version : number).

Inductive Resolution := SD480 | HD720 | FHD1080 | UHD2160.
Inductive VideoCodec := H264 | HEVC | AV1 | VP9 | MPEG4.
Inductive AudioCodec :=
  FLAC | AAC | Opus | AC3 | DTS | MP3 | Vorbis | TrueHD | EAAC.
Inductive MediaSource :=
  BluRayRemux | BluRay | WebDL | WebRip | HDTV | DVD | LaserDisc | VHS.
Inductive ParseMode := Full | Light | Auto.

Record ParseResult := mkParseResult {
  input : jsstring;
  title : option jsstring;
  group : option jsstring;
  episode : option EpisodeSpec;
  season : option number;
  resolution : option Resolution;
  video_codec : option VideoCodec;
  audio_codec : option AudioCodec;
  source : option MediaSource;
  year : option number;
  crc32 : option jsstring;
  extension : option jsstring;
  version : option number;
  confidence : Q;
  parse_mode : ParseMode
}.

(** Truthiness of a [string | null] and of an object or enum string or null. *)
Definition truthyStr (o : option jsstring) : bool :=
  match o with Some (_ :: _) => true | _ => false end.

Definition truthy {A : Type} (o : option A) : bool :=
  match o with Some _ => true | None => false end.

(** ** JsHeuristicParser *)

Module JsHeuristicParser.

Open Scope char_scope.

Definition ws : regex := Cls false whiteSpace.
Definition d : regex := Cls false digit.

(** [(?:[\s\-.])(?:[Ee]p?\.?)?\s*], the common head of the episode
    patterns. *)
Definition episodeHead : list regex :=
  [ Cls false (whiteSpace ++ [one "-"; one "."]);
    Opt (seq [Cls false [one "E"; one "e"]; Opt (Chr (ch "p")); Opt (Chr (ch "."))]);
    Star ws ].

(** [/1080p|720p|480p|2160p/i] (declared by the class, used nowhere). *)
Definition reResolution : RegExp :=
  mkRegExp
    (Alt (seq (map Chr (lit "1080p")))
      (Alt (seq (map Chr (lit "720p")))
        (Alt (seq (map Chr (lit "480p"))) (seq (map Chr (lit "2160p"))))))
    true.

(** [/^\[([^\]]+)\]/] *)
Definition reGroup : RegExp :=
  mkRegExp
    (seq [Bol; Chr (ch "["); Grp 1 (Plus (Cls true [one "]"])); Chr (ch "]")])
    false.

(** [/(?:[\s\-.])(?:[Ee]p?\.?)?\s*(\d{1,4})(?:\b|v\d|[^\d])/] *)
Definition reEpisode : RegExp :=
  mkRegExp
    (seq (episodeHead ++
          [ Grp 1 (Rep 1 (Some 4%nat) d);
            Alt WordB (Alt (seq [Chr (ch "v"); d]) (Cls true digit)) ]))
    false.

(** [/(?:[\s\-.])(?:[Ee]p?\.?)?\s*(\d{1,4})v(\d+)/i] *)
Definition reEpisodeV : RegExp :=
  mkRegExp
    (seq (episodeHead ++
          [ Grp 1 (Rep 1 (Some 4%nat) d); Chr (ch "v"); Grp 2 (Plus d) ]))
    true.

(** [/(?:[\s\-.])(?:[Ee]p?\.?)?\s*(\d{1,4})\s*[-~]\s*(\d{1,4})/i] *)
Definition reEpisodeRange : RegExp :=
  mkRegExp
    (seq (episodeHead ++
          [ Grp 1 (Rep 1 (Some 4%nat) d); Star ws;
            Cls false [one "-"; one "~"]; Star ws;
            Grp 2 (Rep 1 (Some 4%nat) d) ]))
    true.

(** [/(?:^|[\s\-])S(\d+)/i] *)
Definition reSeason : RegExp :=
  mkRegExp
    (seq [ Alt Bol (Cls false (whiteSpace ++ [one "-"]));
           Chr (ch "S"); Grp 1 (Plus d) ])
    true.

(** [/\((\d{4})\)/] *)
Definition reYear : RegExp :=
  mkRegExp
    (seq [Chr (ch "("); Grp 1 (Rep 4 (Some 4%nat) d); Chr (ch ")")])
    false.

(** [/\.(\w+)$/] *)
Definition reExtension : RegExp :=
  mkRegExp (seq [Chr (ch "."); Grp 1 (Plus (Cls false wordChar)); Eol]) false.

(** [/\[([A-Fa-f0-9]{8})\]/] *)
Definition reCrc32 : RegExp :=
  mkRegExp
    (seq [ Chr (ch "[");
           Grp 1 (Rep 8 (Some 8%nat)
                    (Cls false [span "A" "F"; span "a" "f"; span "0" "9"]));
           Chr (ch "]") ])
    false.

(** The patterns written inline in [extractTitle]. *)

(** [/\[[^\]]*\]/g] *)
Definition reBracketed : RegExp :=
  mkRegExp (seq [Chr (ch "["); Star (Cls true [one "]"]); Chr (ch "]")]) false.

(** [/\([^\)]*\)/g] *)
Definition reParenthesized : RegExp :=
  mkRegExp (seq [Chr (ch "("); Star (Cls true [one ")"]); Chr (ch ")")]) false.

(** [/[._]/g] *)
Definition reDotUnderscore : RegExp :=
  mkRegExp (Cls false [one "."; one "_"]) false.

(** [/-/g] *)
Definition reDash : RegExp := mkRegExp (Chr (ch "-")) false.

(** [/\s+/] *)
Definition reSpaces : RegExp := mkRegExp (Plus ws) false.

Definition extractGroup (input : jsstring) : option jsstring :=
  match re_exec reGroup input with
  | Some (_, m) => Some (trim (captured 1 m))
  | None => None
  end.

Definition extractExtension (input : jsstring) : option jsstring :=
  match re_exec reExtension input with
  | Some (_, m) => Some (toLowerCase (captured 1 m))
  | None => None
  end.

Definition extractCrc32 (input : jsstring) : option jsstring :=
  match re_exec reCrc32 input with
  | Some (_, m) => Some (toUpperCase (captured 1 m))
  | None => None
  end.

Definition extractResolution (input : jsstring) : option Resolution :=
  if (includes (lit "2160p") input || includes (lit "2160i") input)%bool
  then Some UHD2160
  else if (includes (lit "1080p") input || includes (lit "1080i") input)%bool
  then Some FHD1080
  else if (includes (lit "720p") input || includes (lit "720i") input)%bool
  then Some HD720
  else if (includes (lit "480p") input || includes (lit "480i") input)%bool
  then Some SD480
  else None.

Definition extractSeason (input : jsstring) : option number :=
  match re_exec reSeason input with
  | Some (_, m) => Some (parseInt (captured 1 m))
  | None => None
  end.

Definition extractYear (input : jsstring) : option number :=
  match re_exec reYear input with
  | Some (_, m) => Some (parseInt (captured 1 m))
  | None => None
  end.

Definition extractEpisode (input : jsstring) : option EpisodeSpec :=
  (* Try versioned episode *)
  match re_exec reEpisodeV input with
  | Some (_, m) =>
      Some (Versioned (parseInt (captured 1 m)) (parseInt (captured 2 m)))
  | None =>
      (* Try episode range *)
      let range :=
        match re_exec reEpisodeRange input with
        | Some (_, m) =>
            let start := parseInt (captured 1 m) in
            let end_ := parseInt (captured 2 m) in
            if num_lt start end_ then Some (Range start end_) else None
        | None => None
        end in
      match range with
      | Some r => Some r
      | None =>
          (* Try single episode *)
          match re_exec reEpisode input with
          | Some (_, m) => Some (Single (parseInt (captured 1 m)))
          | None => None
          end
      end
  end.

(** The "Clean up" chain at the end of [extractTitle]. *)
Definition cleanUp (work : jsstring) : jsstring :=
  trim
    (join (lit " ")
       (filter (fun p => match p with [] => false | _ => true end)
          (re_split reSpaces
             (re_replaceAll reDash (lit " ")
                (re_replaceAll reDotUnderscore (lit " ") work))))).

(** [extractTitle] reads [result.group] and [result.extension] only. *)
Definition extractTitle (input : jsstring) (group extension : option jsstring)
    : option jsstring :=
  let work := input in
  (* Remove group tag *)
  let work :=
    if truthyStr group then
      match indexOf (lit "]") work with
      | Some groupIdx => substringFrom (groupIdx + 1) work
      | None => work
      end
    else work in
  (* Remove extension *)
  let work :=
    match extension with
    | Some ext =>
        if truthyStr extension then
          match lastIndexOf (lit "." ++ ext) work with
          | Some extPos => substringTo extPos work
          | None => work
          end
        else work
    | None => work
    end in
  (* Remove episode info *)
  let work := re_replace reEpisodeV (lit " ") work in
  let work := re_replace reEpisodeRange (lit " ") work in
  let work := re_replace reEpisode (lit " ") work in
  let work := re_replace reSeason (lit " ") work in
  let work := re_replace reYear (lit " ") work in
  (* Remove bracketed content *)
  let work := re_replaceAll reBracketed (lit " ") work in
  let work := re_replaceAll reParenthesized (lit " ") work in
  (* Clean up *)
  let cleaned := cleanUp work in
  match cleaned with
  | [] => None
  | _ => Some cleaned
  end.

Definition computeConfidence (result : ParseResult) : Q :=
  let fieldsPresent := 0%Z in
  let fieldsTotal := 7%Z in
  let '(fieldsPresent, fieldsTotal) :=
    if truthyStr (title result)
    then ((fieldsPresent + 2)%Z, (fieldsTotal + 1)%Z)
    else (fieldsPresent, fieldsTotal) in
  let fieldsPresent :=
    if truthyStr (group result) then (fieldsPresent + 1)%Z else fieldsPresent in
  let fieldsPresent :=
    if truthy (episode result) then (fieldsPresent + 1)%Z else fieldsPresent in
  let fieldsPresent :=
    if truthy (resolution result) then (fieldsPresent + 1)%Z else fieldsPresent in
  let fieldsPresent :=
    if truthy (video_codec result) then (fieldsPresent + 1)%Z else fieldsPresent in
  let fieldsPresent :=
    if truthy (audio_codec result) then (fieldsPresent + 1)%Z else fieldsPresent in
  let fieldsPresent :=
    if truthy (source result) then (fieldsPresent + 1)%Z else fieldsPresent in
  Math_min (inject_Z fieldsPresent / inject_Z fieldsTotal) 1.

Inductive error := Error (message : string).

Definition parse (input : jsstring) : error + ParseResult :=
  let trimmed := trim input in
  match trimmed with
  | [] => inl (Error "input is empty or whitespace-only")
  | _ =>
      let group := extractGroup trimmed in
      let extension := extractExtension trimmed in
      let crc32 := extractCrc32 trimmed in
      let resolution := extractResolution trimmed in
      let season := extractSeason trimmed in
      let year := extractYear trimmed in
      let episode := extractEpisode trimmed in
      let title := extractTitle trimmed group extension in
      let result :=
        {| input := trimmed; title := title; group := group;
           episode := episode; season := season; resolution := resolution;
           video_codec := None; audio_codec := None; source := None;
           year := year; crc32 := crc32; extension := extension;
           version := None; confidence := 0; parse_mode := Light |} in
      inr {| input := trimmed; title := title; group := group;
             episode := episode; season := season; resolution := resolution;
             video_codec := None; audio_codec := None; source := None;
             year := year; crc32 := crc32; extension := extension;
             version := None; confidence := computeConfidence result;
             parse_mode := Light |}
  end.

End JsHeuristicParser.

(** ** HeuristicParser, with the native addon unavailable ([useNative] is
    false and [getParser] hands out the [JsHeuristicParser] singleton) *)

Module HeuristicParser.

Import JsHeuristicParser.

Definition parse (input : jsstring) : error + ParseResult :=
  match trim input with
  | [] => inl (Error "Input must be a non-empty string")
  | _ => JsHeuristicParser.parse input
  end.

(** [inputs.map(input => this.parse(input))]: the first exception leaves
    the loop. *)
Fixpoint parseBatch (inputs : list jsstring) : error + list ParseResult :=
  match inputs with
  | [] => inr []
  | i :: rest =>
      match parse i with
      | inl e => inl e
      | inr r =>
          match parseBatch rest with
          | inl e => inl e
          | inr rs => inr (r :: rs)
          end
      end
  end.

End HeuristicParser.

(** ** The boundary with the native addon *)

(** A value of type [unknown] handed over by the addon.  A finite number is
    kept as the rational it denotes ([-0] and [0] are the same rational). *)
Inductive jsnumber :=
| JNaN
| JInfinity (negative : bool)
| JFinite (q : Q).

#[warnings="-register-all"]
Inductive jsvalue :=
| JUndefined
| JNull
| JBoolean (b : bool)
| JNumber (n : jsnumber)
| JString (s : jsstring)
| JArray (items : list jsvalue)
| JObject (props : list (string * jsvalue)).

(** [!v] is [negb (toBoolean v)]. *)
Definition toBoolean (v : jsvalue) : bool :=
  match v with
  | JUndefined | JNull => false
  | JBoolean b => b
  | JNumber JNaN => false
  | JNumber (JInfinity _) => true
  | JNumber (JFinite q) => negb (Qeq_bool q 0)
  | JString [] => false
  | JString (_ :: _) => true
  | JArray _ | JObject _ => true
  end.

Fixpoint lookupProp (key : string) (props : list (string * jsvalue)) : jsvalue :=
  match props with
  | [] => JUndefined
  | (k, v) :: rest => if String.eqb key k then v else lookupProp key rest
  end.

(** [n.key] for [n = native as Record<string, unknown>].  Booleans, strings
    and arrays have none of the properties that are read here. *)
Definition getProp (key : string) (n : jsvalue) : jsvalue :=
  match n with
  | JObject props => lookupProp key props
  | _ => JUndefined
  end.

(** [v !== undefined] *)
Definition defined (v : jsvalue) : bool :=
  match v with JUndefined => false | _ => true end.

(** [v === k] for an integer literal [k]. *)
Definition strictEqualsInt (v : jsnumber) (k : Z) : bool :=
  match v with
  | JFinite q => Qeq_bool q (inject_Z k)
  | _ => false
  end.

(** An [EpisodeSpec] whose fields are what the casts [as number] and
    [as number[]] let through: any value. *)
Inductive CastEpisodeSpec :=
| AsSingle (episode : jsvalue)
| AsRange (start end_ : jsvalue)
| AsMulti (episodes : jsvalue)
| AsVersioned (episode version : jsvalue).

Definition convertEpisodeSpec (native : jsvalue) : option CastEpisodeSpec :=
  if negb (toBoolean native) then None
  else
    match native with
    | JNumber _ => Some (AsSingle native)
    | _ =>
        let n := native in
        let untagged :=
          if (defined (getProp "episode" n) && defined (getProp "version" n))%bool
          then Some (AsVersioned (getProp "episode" n) (getProp "version" n))
          else if (defined (getProp "start" n) && defined (getProp "end" n))%bool
          then Some (AsRange (getProp "start" n) (getProp "end" n))
          else if defined (getProp "episodes" n)
          then Some (AsMulti (getProp "episodes" n))
          else None in
        match getProp "type" n with
        | JNumber t =>
            if strictEqualsInt t 0 then Some (AsSingle (getProp "episode" n))
            else if strictEqualsInt t 1
            then Some (AsRange (getProp "start" n) (getProp "end" n))
            else if strictEqualsInt t 2
            then Some (AsMulti (getProp "episodes" n))
            else if strictEqualsInt t 3
            then Some (AsVersioned (getProp "episode" n) (getProp "version" n))
            else untagged
        | _ => untagged
        end
    end.

(** The module-level variables [useNative], [nativeModule], [initialized]. *)
Record ModuleState := mkModuleState {
  useNative : bool;
  nativeModule : jsvalue;
  initialized : bool
}.

Definition initialState : ModuleState :=
  {| useNative := false; nativeModule := JNull; initialized := false |}.

(** [initNative()].  [require] is what [require('@zan/heuristic-node')]
    would do if it were evaluated now: [Some m] returns the addon [m],
    [None] throws. *)
Definition initNative (require : option jsvalue) (st : ModuleState)
    : ModuleState :=
  if initialized st then st
  else
    match require with
    | Some m => {| useNative := true; nativeModule := m; initialized := true |}
    | None => {| useNative := false; nativeModule := JNull; initialized := true |}
    end.

(** [isUsingNativeModule()]: the answer and the state left behind. *)
Definition isUsingNativeModule (require : option jsvalue) (st : ModuleState)
    : bool * ModuleState :=
  let st' := initNative require st in
  (useNative st', st').

(** ** Notions used to state the properties *)

(** [m] occurs in [s] as a substring. *)
Definition Has (m s : jsstring) : Prop := exists a b, s = a ++ m ++ b.

(** A number that is an integer not below [k]. *)
Definition intAtLeast (k : Z) (n : number) : Prop :=
  match n with
  | Int z => (k <= z)%Z
  | _ => False
  end.

(** A number not below [k]: an integer not below [k], or [+Infinity]. *)
Definition atLeast (k : Z) (n : number) : Prop :=
  match n with
  | Int z => (k <= z)%Z
  | Infinity false => True
  | _ => False
  end.

(** The episode resolver as an ordered list of attempts, the first success
    winning. *)
Module EpisodeResolver.

Import JsHeuristicParser.

Definition versionedAttempt (input : jsstring) : option EpisodeSpec :=
  match re_exec reEpisodeV input with
  | Some (_, m) => Some (Versioned (parseInt (captured 1 m)) (parseInt (captured 2 m)))
  | None => None
  end.

Definition rangeAttempt (input : jsstring) : option EpisodeSpec :=
  match re_exec reEpisodeRange input with
  | Some (_, m) =>
      if num_lt (parseInt (captured 1 m)) (parseInt (captured 2 m))
      then Some (Range (parseInt (captured 1 m)) (parseInt (captured 2 m)))
      else None
  | None => None
  end.

Definition singleAttempt (input : jsstring) : option EpisodeSpec :=
  match re_exec reEpisode input with
  | Some (_, m) => Some (Single (parseInt (captured 1 m)))
  | None => None
  end.

Fixpoint firstSuccess (attempts : list (jsstring -> option EpisodeSpec))
    (input : jsstring) : option EpisodeSpec :=
  match attempts with
  | [] => None
  | a :: rest =>
      match a input with
      | Some e => Some e
      | None => firstSuccess rest input
      end
  end.

Definition resolve : jsstring -> option EpisodeSpec :=
  firstSuccess [versionedAttempt; rangeAttempt; singleAttempt].

End EpisodeResolver.

(** The variant invariants of the data model. *)
Definition variantInvariant (e : EpisodeSpec) : Prop :=
  match e with
  | Single ep => intAtLeast 0 ep
  | Range s e => num_lt s e = true
  | Multi eps => eps <> []
  | Versioned ep v => intAtLeast 0 ep /\ intAtLeast 1 v
  end.

(** What the resolver guarantees: as above, but a version may be 0, and a
    version whose digits overflow a double is [+Infinity]. *)
Definition resolvedInvariant (e : EpisodeSpec) : Prop :=
  match e with
  | Single ep => intAtLeast 0 ep
  | Range s e => intAtLeast 0 s /\ intAtLeast 0 e /\ num_lt s e = true
  | Multi eps => False
  | Versioned ep v => intAtLeast 0 ep /\ atLeast 0 v
  end.

(** The record [parse] builds for a non-empty trimmed input. *)
Definition resultOf (trimmed : jsstring) : ParseResult :=
  let group := JsHeuristicParser.extractGroup trimmed in
  let extension := JsHeuristicParser.extractExtension trimmed in
  let crc32 := JsHeuristicParser.extractCrc32 trimmed in
  let resolution := JsHeuristicParser.extractResolution trimmed in
  let season := JsHeuristicParser.extractSeason trimmed in
  let year := JsHeuristicParser.extractYear trimmed in
  let episode := JsHeuristicParser.extractEpisode trimmed in
  let title := JsHeuristicParser.extractTitle trimmed group extension in
  let result :=
    {| input := trimmed; title := title; group := group;
       episode := episode; season := season; resolution := resolution;
       video_codec := None; audio_codec := None; source := None;
       year := year; crc32 := crc32; extension := extension;
       version := None; confidence := 0; parse_mode := Light |} in
  {| input := trimmed; title := title; group := group;
     episode := episode; season := season; resolution := resolution;
     video_codec := None; audio_codec := None; source := None;
     year := year; crc32 := crc32; extension := extension;
     version := None;
     confidence := JsHeuristicParser.computeConfidence result;
     parse_mode := Light |}.

(** Re-normalizing a title: the title pass run on the title itself, with the
    group and extension read from it, as [parse] does for its input. *)
Definition renormalize (t : jsstring) : option jsstring :=
  JsHeuristicParser.extractTitle t
    (JsHeuristicParser.extractGroup t) (JsHeuristicParser.extractExtension t).

(** Confidence by presence: a field counts as soon as it is not null. *)
Definition present {A : Type} (o : option A) : Z :=
  match o with Some _ => 1%Z | None => 0%Z end.

Definition presenceNumerator (r : ParseResult) : Z :=
  (2 * present (title r) + present (group r) + present (episode r)
   + present (resolution r) + present (video_codec r)
   + present (audio_codec r) + present (source r))%Z.

Definition presenceDenominator (r : ParseResult) : Z :=
  match title r with Some _ => 8%Z | None => 7%Z end.

Definition presenceConfidence (r : ParseResult) : Q :=
  Math_min (inject_Z (presenceNumerator r) / inject_Z (presenceDenominator r)) 1.

(** The numerator when [group] counts only if it is present and not the
    empty string. *)
Definition filledGroupNumerator (r : ParseResult) : Z :=
  (2 * present (title r)
   + match group r with Some (_ :: _) => 1 | _ => 0 end
   + present (episode r) + present (resolution r) + present (video_codec r)
   + present (audio_codec r) + present (source r))%Z.

(** Confidence as computed: a string field counts when it is present and
    not the empty string. *)
Definition filled (o : option jsstring) : Z :=
  match o with Some (_ :: _) => 1%Z | _ => 0%Z end.

Definition filledNumerator (r : ParseResult) : Z :=
  (2 * filled (title r) + filled (group r) + present (episode r)
   + present (resolution r) + present (video_codec r)
   + present (audio_codec r) + present (source r))%Z.

Definition filledDenominator (r : ParseResult) : Z :=
  (7 + filled (title r))%Z.

(** Resolution markers looked up without regard to case. *)
Definition includesIgnoreCase (m s : jsstring) : bool :=
  includes (toLowerCase m) (toLowerCase s).

Definition resolutionIgnoreCase (input : jsstring) : option Resolution :=
  JsHeuristicParser.extractResolution (toLowerCase input).

(** The first character of [m] exists and is not white space. *)
Definition startsSolid (m : jsstring) : bool :=
  match m with
  | c :: _ => negb (isWhiteSpace c)
  | [] => false
  end.

(** The matcher of a pattern that tests one character with [f]. *)
Definition charStep (f : N -> bool) (x : state) : list state :=
  match after x with
  | c :: s => if f c then [advance x c s] else []
  | [] => []
  end.

(** The character tests of [/[._]/] and [/-/]. *)
Definition isDotUnderscore (c : N) : bool :=
  clsMatch false false [one "."%char; one "_"%char] c.

Definition isDash (c : N) : bool := chrMatch false (ch "-"%char) c.

(** Every character satisfying [f] replaced by a space. *)
Definition blank (f : N -> bool) (s : jsstring) : jsstring :=
  map (fun c => if f c then 32%N else c) s.

(** The maximal runs of non-white-space characters of [s], in order;
    [piece] holds, nearest first, the run being read. *)
Definition emit (piece : list N) : list jsstring :=
  match piece with
  | [] => []
  | _ :: _ => [rev piece]
  end.

Fixpoint tokens (piece : list N) (s : jsstring) : list jsstring :=
  match s with
  | [] => emit piece
  | c :: s' =>
      if isWhiteSpace c then emit piece ++ tokens [] s'
      else tokens (c :: piece) s'
  end.

(** A character that the clean-up keeps: no white space, dot, underscore
    or dash. *)
Definition plain (c : N) : bool :=
  (negb (isWhiteSpace c) && negb (N.eqb c 46) && negb (N.eqb c 95)
   && negb (N.eqb c 45))%bool.

(** A non-empty word of plain characters. *)
Definition Word (t : jsstring) : Prop :=
  t <> [] /\ Forall (fun c => plain c = true) t.

(** The pattern of a span opened by [o] and closed by the next [c]:
    [/\[[^\]]*\]/] for the brackets, [/\([^\)]*\)/] for the parentheses. *)
Definition spanRe (o c : N) : regex :=
  seq [Chr o; Star (Cls true [(c, c)]); Chr c].

(** [o] occurs in [s] with [c] somewhere after it. *)
Definition Pair (o c : N) (s : jsstring) : Prop :=
  exists a b, s = a ++ o :: b /\ In c b.

(** [out] is [s] with characters dropped and spaces inserted. *)
Inductive Thinned : jsstring -> jsstring -> Prop :=
| Thinned_nil : Thinned [] []
| Thinned_keep x out s : Thinned out s -> Thinned (x :: out) (x :: s)
| Thinned_space out s : Thinned out s -> Thinned (32%N :: out) s
| Thinned_drop x out s : Thinned out s -> Thinned out (x :: s).

(** [y] is a later position than [x] in the same subject string. *)
Definition Frame (x y : state) : Prop :=
  exists t, after x = t ++ after y /\ before y = rev t ++ before x.

(** As [Frame], with the captures untouched and every passed character
    satisfying [f]. *)
Definition Run (f : N -> bool) (x y : state) : Prop :=
  exists t, after x = t ++ after y /\ before y = rev t ++ before x
            /\ caps y = caps x /\ Forall (fun c => f c = true) t.

(** [in_ranges] as a proposition. *)
Fixpoint InRanges (c : N) (rs : list (N * N)) : Prop :=
  match rs with
  | [] => False
  | r :: rs' => (fst r <= c <= snd r)%N \/ InRanges c rs'
  end.

(** A non-empty run of decimal digits. *)
Definition Digits (t : jsstring) : Prop :=
  t <> [] /\ Forall (fun c => isDigit c = true) t.

(** Every way through the pattern passes group [i]. *)
Fixpoint captures (i : nat) (r : regex) : bool :=
  match r with
  | Seq a b => (captures i a || captures i b)%bool
  | Alt a b => (captures i a && captures i b)%bool
  | Rep mn mx a =>
      (negb (Nat.eqb mn 0)
       && match mx with Some O => false | _ => true end
       && captures i a)%bool
  | Grp j a => (Nat.eqb i j || captures i a)%bool
  | _ => false
  end.

(** A pattern without capturing group. *)
Fixpoint groupless (r : regex) : bool :=
  match r with
  | Seq a b | Alt a b => (groupless a && groupless b)%bool
  | Rep _ _ a => groupless a
  | Grp _ _ => false
  | _ => true
  end.

(** [y] is reached from [x] by exactly [n] iterations of [m]. *)
Inductive Iter (m : state -> list state) : nat -> state -> state -> Prop :=
| Iter_O x : Iter m 0 x x
| Iter_S n x z y : In z (m x) -> Iter m n z y -> Iter m (S n) x y.

(** [o], then exactly [k] characters of the class [rs] in group 1, then [c]:
    the shape of [/\((\d{4})\)/] and of [/\[([A-Fa-f0-9]{8})\]/]. *)
Definition fixedRe (o : N) (k : nat) (rs : list (N * N)) (c : N) : regex :=
  seq [Chr o; Grp 1 (Rep k (Some k) (Cls false rs)); Chr c].

Definition hexDigit : list (N * N) :=
  [span "A"%char "F"%char; span "a"%char "f"%char; span "0"%char "9"%char].

Definition upperHexDigit : list (N * N) :=
  [span "0"%char "9"%char; span "A"%char "F"%char].

(** [u] starts with [o], [k] characters of [rs] and [c]. *)
Definition FixedAt (o : N) (k : nat) (rs : list (N * N)) (c : N)
    (u raw : jsstring) : Prop :=
  exists q, u = o :: raw ++ c :: q /\ length raw = k
            /\ Forall (fun x => in_ranges x rs = true) raw.

(** An integer between [lo] and [hi]. *)
Definition intBetween (lo hi : Z) (n : number) : Prop :=
  match n with
  | Int z => (lo <= z <= hi)%Z
  | _ => False
  end.

(** The score of [computeConfidence] as a function of which fields count. *)
Definition score (t g e r v a s : bool) : Q :=
  let b2z (b : bool) := if b then 1%Z else 0%Z in
  inject_Z (2 * b2z t + b2z g + b2z e + b2z r + b2z v + b2z a + b2z s)
  / inject_Z (7 + b2z t).

(** Every field that counts in [r] counts in [r']. *)
Definition fieldsLe (r r' : ParseResult) : Prop :=
  (truthyStr (title r) = true -> truthyStr (title r') = true)
  /\ (truthyStr (group r) = true -> truthyStr (group r') = true)
  /\ (truthy (episode r) = true -> truthy (episode r') = true)
  /\ (truthy (resolution r) = true -> truthy (resolution r') = true)
  /\ (truthy (video_codec r) = true -> truthy (video_codec r') = true)
  /\ (truthy (audio_codec r) = true -> truthy (audio_codec r') = true)
  /\ (truthy (source r) = true -> truthy (source r') = true).

(** [raw] is the first such token of [s]. *)
Definition FirstFixed (o : N) (k : nat) (rs : list (N * N)) (c : N)
    (s raw : jsstring) : Prop :=
  exists pre u,
    s = pre ++ u /\ FixedAt o k rs c u raw
    /\ forall p1 x p2 raw', pre = p1 ++ x :: p2 ->
                            ~ FixedAt o k rs c (x :: p2 ++ u) raw'.

(** [u] starts with the letter S, in either case, and a digit. *)
Definition SeasonAt (u : jsstring) : Prop :=
  exists sc dg rest, u = sc :: dg :: rest
                     /\ (sc = ch "S"%char \/ sc = ch "s"%char)
                     /\ isDigit dg = true.

(** A season token of [s]: [SeasonAt] at the start of [s] or right after a
    white-space character or a dash. *)
Definition SeasonToken (s : jsstring) : Prop :=
  SeasonAt s
  \/ exists pre c u, s = pre ++ c :: u
                      /\ (isWhiteSpace c = true \/ c = ch "-"%char)
                      /\ SeasonAt u.

(** [s] opens with a bracket, the non-empty [body] free of closing
    brackets, and a closing bracket. *)
Definition GroupTag (s body : jsstring) : Prop :=
  exists rest, s = ch "["%char :: body ++ ch "]"%char :: rest
               /\ body <> [] /\ ~ In (ch "]"%char) body.

(** [s] ends with a dot and the non-empty run [raw] of word characters. *)
Definition Suffix (s raw : jsstring) : Prop :=
  exists pre, s = pre ++ ch "."%char :: raw
              /\ raw <> [] /\ Forall (fun x => isWordChar x = true) raw.

Definition lowerWordChar : list (N * N) :=
  [span "a"%char "z"%char; span "0"%char "9"%char; one "_"%char].

(** Every episode number of [e] is an integer between 0 and 9999. *)
Definition fourDigitEpisode (e : EpisodeSpec) : Prop :=
  match e with
  | Single ep => intBetween 0 9999 ep
  | Range a b => intBetween 0 9999 a /\ intBetween 0 9999 b
  | Multi _ => False
  | Versioned ep _ => intBetween 0 9999 ep
  end.

(** Title, group, episode and resolution all count. *)
Definition fullyRecognized (r : ParseResult) : bool :=
  (truthyStr (title r) && truthyStr (group r) && truthy (episode r)
   && truthy (resolution r))%bool.

(** The module state after a series of [initNative] calls, each with what
    [require] would do at that moment. *)
Definition initNativeCalls (probes : list (option jsvalue)) (st : ModuleState)
    : ModuleState :=
  fold_left (fun st0 require => initNative require st0) probes st.

(** The longest prefix of [s] whose characters satisfy [f]. *)
Fixpoint takeRun (f : N -> bool) (s : jsstring) : jsstring :=
  match s with
  | c :: s' => if f c then c :: takeRun f s' else []
  | [] => []
  end.

(** Nothing or a character that is no digit. *)
Definition noDigitAhead (rest : jsstring) : Prop :=
  match rest with
  | c :: _ => isDigit c = false
  | [] => True
  end.

(** A character that may stand before the S of a season token. *)
Definition seasonBound (c : N) : Prop :=
  isWhiteSpace c = true \/ c = ch "-"%char.

(** * Properties *)

Import JsHeuristicParser.

(** ** The orchestrator *)

Lemma parse_inr_inv (s : jsstring) (r : ParseResult) :
  HeuristicParser.parse s = inr r -> trim s <> [] /\ r = resultOf (trim s).
Proof.
  unfold HeuristicParser.parse, JsHeuristicParser.parse.
  destruct (trim s) eqn:E; [discriminate|].
  intros H. injection H as <-. split; [discriminate|].
  unfold resultOf. reflexivity.
Qed.

Lemma parse_returns (s : jsstring) :
  trim s <> [] ->
  exists r, HeuristicParser.parse s = inr r /\ input r = trim s.
Proof.
  intros E. unfold HeuristicParser.parse, JsHeuristicParser.parse.
  destruct (trim s); [congruence|]. eexists. split; reflexivity.
Qed.

(** The cases of the test-suite on which the fallback agrees with the
    expected values. *)
Example parse_SubsPlease :
  exists r,
    HeuristicParser.parse
      (lit "[SubsPlease] Jujutsu Kaisen - 24 (1080p) [A1B2C3D4].mkv") = inr r
    /\ title r = Some (lit "Jujutsu Kaisen")
    /\ group r = Some (lit "SubsPlease")
    /\ episode r = Some (Single (Int 24))
    /\ resolution r = Some FHD1080
    /\ crc32 r = Some (lit "A1B2C3D4")
    /\ extension r = Some (lit "mkv")
    /\ (1 # 2 < confidence r)%Q.
Proof.
  eexists. split; [vm_compute; reflexivity|]. repeat split.
Qed.

Example parse_Erai_raws :
  exists r,
    HeuristicParser.parse
      (lit "[Erai-raws] Shingeki no Kyojin - The Final Season - 28v2 [1080p][HEVC].mkv")
    = inr r
    /\ group r = Some (lit "Erai-raws")
    /\ episode r = Some (Versioned (Int 28) (Int 2))
    /\ resolution r = Some FHD1080.
Proof.
  eexists. split; [vm_compute; reflexivity|]. repeat split.
Qed.

Example parse_Judas :
  exists r,
    HeuristicParser.parse (lit "[Judas] Golden Kamuy S3 - 01-12 (1080p) [Batch]")
    = inr r
    /\ group r = Some (lit "Judas")
    /\ season r = Some (Int 3)
    /\ episode r = Some (Range (Int 1) (Int 12))
    /\ resolution r = Some FHD1080.
Proof.
  eexists. split; [vm_compute; reflexivity|]. repeat split.
Qed.

Example parse_year :
  exists r,
    HeuristicParser.parse (lit "[Group] Title (2024) - 01 (1080p).mkv") = inr r
    /\ year r = Some (Int 2024)
    /\ title r = Some (lit "Title").
Proof.
  eexists. split; [vm_compute; reflexivity|]. repeat split.
Qed.

(** C1 (evaluation at the failing input): on the dot-separated example of
    the test-suite the parser leaves [video_codec], [audio_codec] and
    [source] null, and the codec tokens stay in the title. *)
Theorem parse_one_piece_codecs_null :
  exists r,
    HeuristicParser.parse (lit "One.Piece.1084.VOSTFR.1080p.WEB.x264-AAC.mkv") = inr r
    /\ video_codec r = None /\ audio_codec r = None /\ source r = None
    /\ title r = Some (lit "One Piece VOSTFR 1080p WEB x264 AAC")
    /\ episode r = Some (Single (Int 1084))
    /\ resolution r = Some FHD1080.
Proof.
  eexists. split; [vm_compute; reflexivity|]. repeat split.
Qed.

(** For every input the three fields are null: the class has no extractor
    for them. *)
Lemma parse_codecs_null (s : jsstring) (r : ParseResult) :
  HeuristicParser.parse s = inr r ->
  video_codec r = None /\ audio_codec r = None /\ source r = None.
Proof.
  intros H. apply parse_inr_inv in H as [_ ->].
  unfold resultOf. cbn [video_codec audio_codec source]. repeat split.
Qed.

(** C2: [parse] raises exactly when the trimmed input is empty, as for the
    empty string and for three spaces, and otherwise returns a record whose
    [input] is the trimmed string. *)
Theorem parse_raises_iff_trimmed_empty (s : jsstring) :
  ((exists e, HeuristicParser.parse s = inl e) <-> trim s = [])
  /\ (trim s <> [] -> exists r, HeuristicParser.parse s = inr r /\ input r = trim s)
  /\ HeuristicParser.parse (lit "") = inl (Error "Input must be a non-empty string")
  /\ HeuristicParser.parse (lit "   ") = inl (Error "Input must be a non-empty string").
Proof.
  repeat split.
  - intros [e H]. unfold HeuristicParser.parse, JsHeuristicParser.parse in H.
    destruct (trim s); [reflexivity | discriminate].
  - intros E. unfold HeuristicParser.parse. rewrite E. eauto.
  - apply parse_returns.
Qed.

Lemma parse_raises_iff_trimmed_empty_witness :
  exists r, HeuristicParser.parse (lit "  Show - 01 ") = inr r
            /\ input r = lit "Show - 01".
Proof.
  destruct (parse_raises_iff_trimmed_empty (lit "  Show - 01 ")) as (_ & H & _).
  apply H. vm_compute. discriminate.
Defined.

(** C8: [parseBatch] maps [parse] over the list: when every element has a
    non-empty trimmed form the results come back in input order, and an
    element whose trimmed form is empty makes the whole call raise, whatever
    precedes or follows it. *)
Theorem parseBatch_all_or_nothing (inputs : list jsstring) :
  (Forall (fun i => trim i <> []) inputs ->
   exists rs, HeuristicParser.parseBatch inputs = inr rs
              /\ Forall2 (fun i r => HeuristicParser.parse i = inr r) inputs rs)
  /\ (forall pre bad post,
        inputs = pre ++ bad :: post ->
        Forall (fun i => trim i <> []) pre ->
        trim bad = [] ->
        HeuristicParser.parseBatch inputs
        = inl (Error "Input must be a non-empty string")).
Proof.
  split.
  - induction 1 as [|i rest Hi _ IH].
    + exists []. split; [reflexivity | constructor].
    + destruct IH as (rs & E & F).
      destruct (parse_returns i Hi) as (r & Er & _).
      exists (r :: rs). cbn [HeuristicParser.parseBatch]. rewrite Er, E.
      split; [reflexivity | constructor; assumption].
  - intros pre bad post -> Hpre Hbad.
    induction Hpre as [|i rest Hi _ IH]; cbn [app HeuristicParser.parseBatch].
    + unfold HeuristicParser.parse. rewrite Hbad. reflexivity.
    + destruct (parse_returns i Hi) as (r & Er & _).
      rewrite Er, IH. reflexivity.
Qed.

Lemma parseBatch_all_or_nothing_witness :
  (exists rs, HeuristicParser.parseBatch [lit "[Test] A - 01.mkv"; lit "[Test] B - 02.mkv"] = inr rs
              /\ Forall2 (fun i r => HeuristicParser.parse i = inr r)
                         [lit "[Test] A - 01.mkv"; lit "[Test] B - 02.mkv"] rs)
  /\ HeuristicParser.parseBatch [lit "[Test] A - 01.mkv"; lit "  "; lit "[Test] B - 02.mkv"]
     = inl (Error "Input must be a non-empty string").
Proof.
  split.
  - apply (proj1 (parseBatch_all_or_nothing _)).
    repeat constructor; vm_compute; discriminate.
  - apply (proj2 (parseBatch_all_or_nothing _)
             [lit "[Test] A - 01.mkv"] (lit "  ") [lit "[Test] B - 02.mkv"]).
    + reflexivity.
    + repeat constructor; vm_compute; discriminate.
    + reflexivity.
Defined.

(** ** The episode resolver *)

(** C3: the resolver is the first success among exactly three attempts taken
    in the order versioned, range, single; a versioned match ends the
    resolution, and the episode is none exactly when all three fail. *)
Theorem extractEpisode_three_ordered_attempts (s : jsstring) :
  extractEpisode s = EpisodeResolver.resolve s
  /\ (forall e, EpisodeResolver.versionedAttempt s = Some e ->
                extractEpisode s = Some e)
  /\ (forall e, EpisodeResolver.versionedAttempt s = None ->
                EpisodeResolver.rangeAttempt s = Some e ->
                extractEpisode s = Some e)
  /\ (EpisodeResolver.versionedAttempt s = None ->
      EpisodeResolver.rangeAttempt s = None ->
      extractEpisode s = EpisodeResolver.singleAttempt s)
  /\ (extractEpisode s = None <->
      EpisodeResolver.versionedAttempt s = None
      /\ EpisodeResolver.rangeAttempt s = None
      /\ EpisodeResolver.singleAttempt s = None).
Proof.
  unfold extractEpisode, EpisodeResolver.resolve, EpisodeResolver.firstSuccess,
    EpisodeResolver.versionedAttempt, EpisodeResolver.rangeAttempt,
    EpisodeResolver.singleAttempt.
  destruct (re_exec reEpisodeV s) as [[? mv]|];
    destruct (re_exec reEpisodeRange s) as [[? mr]|];
    destruct (re_exec reEpisode s) as [[? m1]|];
    try destruct (num_lt (parseInt (captured 1 mr)) (parseInt (captured 2 mr)));
    repeat split; intros; try congruence;
    repeat match goal with H : _ /\ _ |- _ => destruct H end; congruence.
Qed.

Lemma extractEpisode_three_ordered_attempts_witness :
  extractEpisode (lit "Show 5-3 x") = Some (Single (Int 5))
  /\ extractEpisode (lit "Show - 28v2 01-12") = Some (Versioned (Int 28) (Int 2)).
Proof.
  split.
  - destruct (extractEpisode_three_ordered_attempts (lit "Show 5-3 x"))
      as (_ & _ & _ & H & _).
    rewrite H; reflexivity.
  - destruct (extractEpisode_three_ordered_attempts (lit "Show - 28v2 01-12"))
      as (_ & H & _).
    apply H. reflexivity.
Defined.

(** C10: no result of [parse] carries the [Multi] variant. *)
Theorem parse_never_multi (s : jsstring) (r : ParseResult) :
  HeuristicParser.parse s = inr r ->
  match episode r with
  | Some (Multi _) => False
  | _ => True
  end.
Proof.
  intros H. apply parse_inr_inv in H as [_ ->].
  unfold resultOf. cbn [episode]. unfold extractEpisode.
  destruct (re_exec reEpisodeV _) as [[? ?]|]; [exact I|].
  destruct (re_exec reEpisodeRange _) as [[? ?]|];
    [destruct (num_lt _ _); [exact I|]|];
    destruct (re_exec reEpisode _) as [[? ?]|]; exact I.
Qed.

Lemma parse_never_multi_witness :
  episode (resultOf (lit "[Judas] Golden Kamuy S3 - 01-12 (1080p) [Batch]"))
  = Some (Range (Int 1) (Int 12))
  /\ match episode (resultOf (lit "[Judas] Golden Kamuy S3 - 01-12 (1080p) [Batch]")) with
     | Some (Multi _) => False
     | _ => True
     end.
Proof.
  split; [vm_compute; reflexivity|].
  apply (@parse_never_multi
           (lit "[Judas] Golden Kamuy S3 - 01-12 (1080p) [Batch]")
           (resultOf (lit "[Judas] Golden Kamuy S3 - 01-12 (1080p) [Batch]"))).
  vm_compute. reflexivity.
Defined.

(** ** The matcher *)

Lemma Frame_refl (x : state) : Frame x x.
Proof. exists []. split; reflexivity. Qed.

Lemma Frame_trans (x y z : state) : Frame x y -> Frame y z -> Frame x z.
Proof.
  intros (t1 & A1 & B1) (t2 & A2 & B2). exists (t1 ++ t2).
  rewrite A1, A2, B2, B1, rev_app_distr, !app_assoc. split; reflexivity.
Qed.

Lemma Frame_advance (x : state) (c : N) (s : jsstring) :
  after x = c :: s -> Frame x (advance x c s).
Proof. intros E. exists [c]. rewrite E. split; reflexivity. Qed.

Lemma Frame_length (x y : state) :
  Frame x y -> length (after y) <= length (after x).
Proof. intros (t & A & _). rewrite A, length_app. lia. Qed.

Lemma Frame_consumed (x y : state) (t : jsstring) :
  after x = t ++ after y -> consumed x y = t.
Proof.
  intros E. unfold consumed. rewrite E, length_app.
  replace (length t + length (after y) - length (after y)) with (length t) by lia.
  rewrite firstn_app, firstn_all, Nat.sub_diag. cbn. apply app_nil_r.
Qed.

Lemma Run_refl (f : N -> bool) (x : state) : Run f x x.
Proof. exists []. repeat split; constructor. Qed.

Lemma Run_step (f : N -> bool) (x z : state) (c : N) (s : jsstring) :
  after x = c :: s -> f c = true -> Run f (advance x c s) z -> Run f x z.
Proof.
  intros E Hc (t & A & B & C & D). exists (c :: t). cbn in *.
  rewrite E, A, B, C, <- app_assoc. repeat split. constructor; assumption.
Qed.

(** Every result of [repeatMatcher] is reached by iterating [m]. *)
Lemma repeatMatcher_closure (P : state -> state -> Prop) (m : state -> list state) :
  (forall x, P x x) ->
  (forall x y z, In y (m x) -> P y z -> P x z) ->
  forall fuel mn mx x y, In y (repeatMatcher m fuel mn mx x) -> P x y.
Proof.
  intros Hrefl Hstep. induction fuel as [|fuel IH]; intros mn mx x y H.
  - destruct H.
  - cbn [repeatMatcher] in H.
    assert (Hz : In y (flat_map
                 (fun y0 =>
                    if (Nat.eqb mn 0 && Nat.eqb (length (after y0)) (length (after x)))%bool
                    then []
                    else repeatMatcher m fuel (Nat.pred mn) (option_map Nat.pred mx) y0)
                 (m x)) -> P x y).
    { intros Hin. apply in_flat_map in Hin as (y0 & H0 & H1).
      destruct (Nat.eqb mn 0 && _)%bool; [destruct H1|].
      eapply Hstep; eauto. }
    assert (Hx : In y [x] -> P x y).
    { intros [<-|[]]. apply Hrefl. }
    destruct mx as [[|k]|]; auto;
      destruct (Nat.eqb mn 0); auto;
      apply in_app_or in H as [H|H]; auto.
Qed.

(** With a positive minimum, a first iteration is made. *)
Lemma repeatMatcher_first (m : state -> list state) (fuel mn : nat)
    (mx : option nat) (x y : state) :
  mx <> Some 0 ->
  In y (repeatMatcher m fuel (S mn) mx x) ->
  exists z fuel', In z (m x)
                  /\ In y (repeatMatcher m fuel' mn (option_map Nat.pred mx) z).
Proof.
  intros Hmx H. destruct fuel as [|fuel]; [destruct H|].
  cbn [repeatMatcher] in H.
  assert (Hz : In y (flat_map
                 (fun y0 =>
                    if (Nat.eqb (S mn) 0 && Nat.eqb (length (after y0)) (length (after x)))%bool
                    then []
                    else repeatMatcher m fuel (Nat.pred (S mn)) (option_map Nat.pred mx) y0)
                 (m x))).
  { destruct mx as [[|k]|]; [congruence | exact H | exact H]. }
  apply in_flat_map in Hz as (z & H0 & H1). cbn in H1. eauto.
Qed.

Lemma repeatMatcher_S (m : state -> list state) (fuel mn : nat)
    (mx : option nat) (x : state) :
  repeatMatcher m (S fuel) mn mx x
  = match mx with
    | Some O => [x]
    | _ =>
        let z :=
          flat_map
            (fun y =>
               if (Nat.eqb mn 0 && Nat.eqb (length (after y)) (length (after x)))%bool
               then []
               else repeatMatcher m fuel (Nat.pred mn) (option_map Nat.pred mx) y)
            (m x) in
        if Nat.eqb mn 0 then z ++ [x] else z
    end.
Proof. reflexivity. Qed.

Section MatcherFacts.

Variable ic : bool.

Lemma ms_Seq_inv (a b : regex) (x y : state) :
  In y (ms ic (Seq a b) x) -> exists z, In z (ms ic a x) /\ In y (ms ic b z).
Proof. cbn. intros H. apply in_flat_map in H. exact H. Qed.

Lemma ms_Alt_inv (a b : regex) (x y : state) :
  In y (ms ic (Alt a b) x) -> In y (ms ic a x) \/ In y (ms ic b x).
Proof. cbn. apply in_app_or. Qed.

Lemma ms_Eps_inv (x y : state) : In y (ms ic Eps x) -> y = x.
Proof. cbn. intros [<-|[]]. reflexivity. Qed.

Lemma ms_Chr_inv (p : N) (x y : state) :
  In y (ms ic (Chr p) x) ->
  exists c s, after x = c :: s /\ chrMatch ic p c = true /\ y = advance x c s.
Proof.
  cbn. destruct (after x) as [|c s]; [intros []|].
  destruct (chrMatch ic p c) eqn:E; [|intros []].
  intros [<-|[]]. eauto.
Qed.

Lemma ms_Cls_inv (inv : bool) (rs : list (N * N)) (x y : state) :
  In y (ms ic (Cls inv rs) x) ->
  exists c s, after x = c :: s /\ clsMatch ic inv rs c = true
              /\ y = advance x c s.
Proof.
  cbn. destruct (after x) as [|c s]; [intros []|].
  destruct (clsMatch ic inv rs c) eqn:E; [|intros []].
  intros [<-|[]]. eauto.
Qed.

Lemma ms_Bol_inv (x y : state) : In y (ms ic Bol x) -> before x = [] /\ y = x.
Proof.
  cbn. destruct (before x); [intros [<-|[]]; auto | intros []].
Qed.

Lemma ms_Eol_inv (x y : state) : In y (ms ic Eol x) -> after x = [] /\ y = x.
Proof.
  cbn. destruct (after x); [intros [<-|[]]; auto | intros []].
Qed.

Lemma ms_Grp_inv (i : nat) (a : regex) (x y : state) :
  In y (ms ic (Grp i a) x) -> exists z, In z (ms ic a x) /\ y = capture i x z.
Proof.
  cbn. intros H. apply in_map_iff in H as (z & <- & H). eauto.
Qed.

Lemma ms_Seq_intro (a b : regex) (x y z : state) :
  In z (ms ic a x) -> In y (ms ic b z) -> In y (ms ic (Seq a b) x).
Proof. intros H1 H2. cbn [ms]. apply in_flat_map. eauto. Qed.

Lemma ms_Chr_intro (p c : N) (s : jsstring) (x : state) :
  after x = c :: s -> chrMatch ic p c = true ->
  In (advance x c s) (ms ic (Chr p) x).
Proof. intros E M. cbn [ms]. rewrite E, M. left. reflexivity. Qed.

Lemma ms_Cls_intro (inv : bool) (rs : list (N * N)) (c : N) (s : jsstring)
    (x : state) :
  after x = c :: s -> clsMatch ic inv rs c = true ->
  In (advance x c s) (ms ic (Cls inv rs) x).
Proof. intros E M. cbn [ms]. rewrite E, M. left. reflexivity. Qed.

(** The matcher only moves forward in the subject string. *)
Lemma ms_Frame (r : regex) : forall x y, In y (ms ic r x) -> Frame x y.
Proof.
  induction r as [|p|inv rs| | | |a IHa b IHb|a IHa b IHb|mn mx a IHa|i a IHa];
    intros x y H.
  - apply ms_Eps_inv in H as ->. apply Frame_refl.
  - apply ms_Chr_inv in H as (c & s & E & _ & ->). apply Frame_advance, E.
  - apply ms_Cls_inv in H as (c & s & E & _ & ->). apply Frame_advance, E.
  - apply ms_Bol_inv in H as (_ & ->). apply Frame_refl.
  - apply ms_Eol_inv in H as (_ & ->). apply Frame_refl.
  - cbn in H. destruct (xorb _ _); [destruct H as [<-|[]]; apply Frame_refl | destruct H].
  - apply ms_Seq_inv in H as (z & H1 & H2). eapply Frame_trans; eauto.
  - apply ms_Alt_inv in H as [H|H]; auto.
  - cbn in H. eapply repeatMatcher_closure in H; [exact H | apply Frame_refl |].
    intros x0 y0 z0 H0 H1. eapply Frame_trans; eauto.
  - apply ms_Grp_inv in H as (z & H & ->). apply IHa in H.
    destruct H as (t & A & B). exists t. split; assumption.
Qed.

(** A pattern without group leaves the captures alone. *)
Lemma ms_groupless (r : regex) :
  groupless r = true -> forall x y, In y (ms ic r x) -> caps y = caps x.
Proof.
  induction r as [|p|inv rs| | | |a IHa b IHb|a IHa b IHb|mn mx a IHa|i a IHa];
    cbn [groupless]; intros G x y H.
  - apply ms_Eps_inv in H as ->. reflexivity.
  - apply ms_Chr_inv in H as (c & s & _ & _ & ->). reflexivity.
  - apply ms_Cls_inv in H as (c & s & _ & _ & ->). reflexivity.
  - apply ms_Bol_inv in H as (_ & ->). reflexivity.
  - apply ms_Eol_inv in H as (_ & ->). reflexivity.
  - cbn in H. destruct (xorb _ _); [destruct H as [<-|[]]; reflexivity | destruct H].
  - apply andb_true_iff in G as [Ga Gb].
    apply ms_Seq_inv in H as (z & H1 & H2).
    rewrite (IHb Gb _ _ H2). apply (IHa Ga _ _ H1).
  - apply andb_true_iff in G as [Ga Gb].
    apply ms_Alt_inv in H as [H|H]; auto.
  - cbn in H.
    eapply (repeatMatcher_closure (fun x y => caps y = caps x)) in H;
      [exact H | reflexivity |].
    intros x0 y0 z0 H0 H1. rewrite H1. apply (IHa G _ _ H0).
  - discriminate.
Qed.

(** A repeated class passes over characters of the class only. *)
Lemma ms_Rep_Cls_Run (mn : nat) (mx : option nat) (inv : bool)
    (rs : list (N * N)) (x y : state) :
  In y (ms ic (Rep mn mx (Cls inv rs)) x) -> Run (clsMatch ic inv rs) x y.
Proof.
  cbn [ms]. intros H.
  eapply repeatMatcher_closure in H; [exact H | apply Run_refl |].
  intros x0 y0 z0 H0 H1.
  apply ms_Cls_inv in H0 as (c & s & E & Hc & ->).
  eapply Run_step; eauto.
Qed.

(** With a positive minimum at least one character is passed. *)
Lemma ms_Rep_Cls_nonempty (mn : nat) (mx : option nat) (inv : bool)
    (rs : list (N * N)) (x y : state) :
  mx <> Some 0 ->
  In y (ms ic (Rep (S mn) mx (Cls inv rs)) x) ->
  exists t, t <> [] /\ after x = t ++ after y /\ before y = rev t ++ before x
            /\ caps y = caps x
            /\ Forall (fun c => clsMatch ic inv rs c = true) t.
Proof.
  cbn [ms]. intros Hmx H.
  apply repeatMatcher_first in H as (z & fuel' & H0 & H1); [|exact Hmx].
  apply ms_Cls_inv in H0 as (c & s & E & Hc & ->).
  eapply (repeatMatcher_closure (Run (clsMatch ic inv rs))) in H1;
    [| apply Run_refl |].
  - destruct H1 as (t & A & B & C & D). exists (c :: t). cbn in *.
    rewrite E, A, B, C, <- app_assoc.
    repeat split; [discriminate | constructor; assumption].
  - intros x0 y0 z0 H0 H2.
    apply ms_Cls_inv in H0 as (c0 & s0 & E0 & Hc0 & ->).
    eapply Run_step; eauto.
Qed.

(** [search] reports a position of the subject string at which the
    pattern matches, and the first result of the matcher there. *)
Lemma search_Some (r : regex) (s : jsstring) :
  forall l sk y,
    search ic r l s = Some (sk, y) ->
    exists s' ys, s = sk ++ s'
                  /\ ms ic r (mkState (rev sk ++ l) s' []) = y :: ys.
Proof.
  induction s as [|c s IH]; intros l sk y H; cbn [search] in H.
  - destruct (ms ic r (mkState l [] [])) as [|y0 ys] eqn:E; [discriminate|].
    injection H as <- <-. exists [], ys. split; [reflexivity | exact E].
  - destruct (ms ic r (mkState l (c :: s) [])) as [|y0 ys] eqn:E.
    + destruct (search ic r (c :: l) s) as [[sk0 y0]|] eqn:E0; [|discriminate].
      injection H as <- <-.
      apply IH in E0 as (s' & ys & -> & E1).
      exists s', ys. split; [reflexivity|].
      cbn [rev]. rewrite <- app_assoc. exact E1.
    + injection H as <- <-. exists (c :: s), ys. split; [reflexivity | exact E].
Qed.

(** When [search] fails the pattern matches at no position. *)
Lemma search_None (r : regex) (s : jsstring) :
  forall l, search ic r l s = None ->
  forall sk s', s = sk ++ s' -> ms ic r (mkState (rev sk ++ l) s' []) = [].
Proof.
  induction s as [|c s IH]; intros l H sk s' E; cbn [search] in H.
  - destruct sk; [|discriminate]. cbn in E. subst s'.
    destruct (ms ic r (mkState l [] [])) eqn:E0; [exact E0 | discriminate].
  - destruct (ms ic r (mkState l (c :: s) [])) as [|y0 ys] eqn:E0; [|discriminate].
    destruct (search ic r (c :: l) s) as [[sk0 y0]|] eqn:E1; [discriminate|].
    destruct sk as [|c0 sk].
    + cbn in E. subst s'. exact E0.
    + injection E as <- ->. cbn [rev]. rewrite <- app_assoc.
      apply (IH _ E1). reflexivity.
Qed.

(** Captures are only added. *)
Lemma ms_caps_kept (i : nat) (r : regex) :
  forall x y, In y (ms ic r x) ->
  lookup i (caps x) <> None -> lookup i (caps y) <> None.
Proof.
  induction r as [|p|inv rs| | | |a IHa b IHb|a IHa b IHb|mn mx a IHa|j a IHa];
    intros x y H K.
  - apply ms_Eps_inv in H as ->. exact K.
  - apply ms_Chr_inv in H as (c & s & _ & _ & ->). exact K.
  - apply ms_Cls_inv in H as (c & s & _ & _ & ->). exact K.
  - apply ms_Bol_inv in H as (_ & ->). exact K.
  - apply ms_Eol_inv in H as (_ & ->). exact K.
  - cbn in H. destruct (xorb _ _); [destruct H as [<-|[]]; exact K | destruct H].
  - apply ms_Seq_inv in H as (z & H1 & H2). eauto.
  - apply ms_Alt_inv in H as [H|H]; eauto.
  - cbn [ms] in H. revert K.
    apply (repeatMatcher_closure
             (fun x y => lookup i (caps x) <> None -> lookup i (caps y) <> None)
             (ms ic a)) with (3 := H); [auto|].
    intros x0 y0 z0 H0 H1 K. eauto.
  - apply ms_Grp_inv in H as (z & H & ->). cbn [caps capture lookup].
    destruct (Nat.eqb i j); [discriminate | eauto].
Qed.

(** After a match of a pattern that always passes group [i], [match[i]] is
    defined. *)
Lemma ms_captures (i : nat) (r : regex) :
  captures i r = true ->
  forall x y, In y (ms ic r x) -> lookup i (caps y) <> None.
Proof.
  induction r as [|p|inv rs| | | |a IHa b IHb|a IHa b IHb|mn mx a IHa|j a IHa];
    cbn [captures]; intros C x y H; try discriminate.
  - apply ms_Seq_inv in H as (z & H1 & H2).
    apply orb_true_iff in C as [C|C]; [|eauto].
    eapply ms_caps_kept; eauto.
  - apply andb_true_iff in C as [Ca Cb].
    apply ms_Alt_inv in H as [H|H]; eauto.
  - apply andb_true_iff in C as [C Ca]. apply andb_true_iff in C as [Cn Cx].
    destruct mn as [|mn]; [discriminate|]. cbn [ms] in H.
    apply repeatMatcher_first in H as (z & fuel' & H0 & H1).
    + apply (IHa Ca) in H0. revert H0.
      apply (repeatMatcher_closure
               (fun x y => lookup i (caps x) <> None -> lookup i (caps y) <> None)
               (ms ic a)) with (3 := H1); [auto|].
      intros x0 y0 z0 H2 H3 K. apply H3. eapply ms_caps_kept; eauto.
    + destruct mx as [[|k]|]; congruence.
  - apply ms_Grp_inv in H as (z & H & ->). cbn [caps capture lookup].
    destruct (Nat.eqb i j) eqn:E; [discriminate|].
    cbn [orb] in C. eauto.
Qed.

(** The fuel of [repeatMatcher] is never exhausted: any two amounts above
    [mn + length (after x)] give the same results. *)
Lemma repeatMatcher_fuel (a : regex) (f1 : nat) :
  forall f2 mn mx x,
    mn + length (after x) < f1 -> mn + length (after x) < f2 ->
    repeatMatcher (ms ic a) f1 mn mx x = repeatMatcher (ms ic a) f2 mn mx x.
Proof.
  induction f1 as [|f1 IH]; intros f2 mn mx x H1 H2; [lia|].
  destruct f2 as [|f2]; [lia|]. cbn [repeatMatcher].
  assert (E : forall l,
    (forall y, In y l -> length (after y) <= length (after x)) ->
    flat_map
      (fun y =>
         if (Nat.eqb mn 0 && Nat.eqb (length (after y)) (length (after x)))%bool
         then []
         else repeatMatcher (ms ic a) f1 (Nat.pred mn) (option_map Nat.pred mx) y) l
    = flat_map
      (fun y =>
         if (Nat.eqb mn 0 && Nat.eqb (length (after y)) (length (after x)))%bool
         then []
         else repeatMatcher (ms ic a) f2 (Nat.pred mn) (option_map Nat.pred mx) y) l).
  { induction l as [|y l IHl]; intros Hl; [reflexivity|].
    cbn [flat_map]. rewrite IHl by (intros; apply Hl; right; assumption).
    f_equal. pose proof (Hl y (or_introl eq_refl)) as Hy.
    destruct (Nat.eqb mn 0) eqn:E0; cbn [andb].
    - destruct (Nat.eqb (length (after y)) (length (after x))) eqn:E1;
        [reflexivity|].
      apply Nat.eqb_eq in E0. apply Nat.eqb_neq in E1. subst mn.
      apply IH; cbn [Nat.pred]; lia.
    - apply Nat.eqb_neq in E0. apply IH; lia. }
  rewrite E; [reflexivity|].
  intros y Hy. apply Frame_length, (ms_Frame a), Hy.
Qed.

(** Likewise the fuel of the global replacement is never exhausted, *)
Lemma replaceAllFrom_fuel (r : regex) (rep : jsstring) (f1 : nat) :
  forall f2 l s,
    length s < f1 -> length s < f2 ->
    replaceAllFrom ic r rep f1 l s = replaceAllFrom ic r rep f2 l s.
Proof.
  induction f1 as [|f1 IH]; intros f2 l s H1 H2; [lia|].
  destruct f2 as [|f2]; [lia|]. cbn [replaceAllFrom].
  destruct (search ic r l s) as [[sk y]|] eqn:E; [|reflexivity].
  apply search_Some in E as (s' & ys & -> & Hms).
  assert (Hy : In y (ms ic r (mkState (rev sk ++ l) s' [])))
    by (rewrite Hms; left; reflexivity).
  apply ms_Frame, Frame_length in Hy. cbn [after] in Hy.
  rewrite length_app in *.
  destruct (Nat.ltb _ _) eqn:E1.
  - apply Nat.ltb_lt in E1. rewrite (IH f2) by lia. reflexivity.
  - destruct (after y) as [|c0 s0]; [reflexivity|].
    cbn [length] in Hy. rewrite (IH f2) by lia. reflexivity.
Qed.

(** nor that of [split]. *)
Lemma splitFrom_fuel (r : regex) (f1 : nat) :
  forall f2 l piece s,
    2 * length s + match piece with [] => 0 | _ :: _ => 1 end < f1 ->
    2 * length s + match piece with [] => 0 | _ :: _ => 1 end < f2 ->
    splitFrom ic r f1 l piece s = splitFrom ic r f2 l piece s.
Proof.
  induction f1 as [|f1 IH]; intros f2 l piece s H1 H2; [lia|].
  destruct f2 as [|f2]; [lia|]. cbn [splitFrom].
  destruct s as [|c s]; [reflexivity|]. cbn [length] in *.
  assert (K : splitFrom ic r f1 (c :: l) (c :: piece) s
              = splitFrom ic r f2 (c :: l) (c :: piece) s)
    by (apply IH; lia).
  destruct (ms ic r (mkState l (c :: s) [])) as [|y ys] eqn:E; [exact K|].
  assert (Hy : In y (ms ic r (mkState l (c :: s) [])))
    by (rewrite E; left; reflexivity).
  apply ms_Frame, Frame_length in Hy. cbn [after length] in Hy.
  destruct piece as [|p piece]; cbn [andb].
  - destruct (Nat.eqb (length (after y)) (S (length s))) eqn:E1; [exact K|].
    apply Nat.eqb_neq in E1. rewrite (IH f2) by lia. reflexivity.
  - rewrite (IH f2) by lia. reflexivity.
Qed.

End MatcherFacts.

(** ** Counting iterations *)

Lemma repeatMatcher_exact (m : state -> list state) (k : nat) :
  forall fuel x y, In y (repeatMatcher m fuel k (Some k) x) -> Iter m k x y.
Proof.
  induction k as [|k IH]; intros fuel x y H.
  - destruct fuel as [|fuel]; [destruct H|]. cbn in H.
    destruct H as [<-|[]]. constructor.
  - apply repeatMatcher_first in H as (z & fuel' & H0 & H1); [|discriminate].
    cbn [option_map Nat.pred] in H1. econstructor; eauto.
Qed.

Lemma repeatMatcher_at_most (m : state -> list state) (fuel : nat) :
  forall mn k x y, In y (repeatMatcher m fuel mn (Some k) x) ->
  exists n, n <= k /\ Iter m n x y.
Proof.
  induction fuel as [|fuel IH]; intros mn k x y H; [destruct H|].
  rewrite repeatMatcher_S in H. destruct k as [|k].
  - destruct H as [<-|[]]. exists 0. split; [lia | constructor].
  - cbn zeta in H.
    assert (Hz : In y (flat_map
                 (fun y0 =>
                    if (Nat.eqb mn 0 && Nat.eqb (length (after y0)) (length (after x)))%bool
                    then []
                    else repeatMatcher m fuel (Nat.pred mn)
                           (option_map Nat.pred (Some (S k))) y0)
                 (m x)) ->
               exists n, n <= S k /\ Iter m n x y).
    { intros Hin. apply in_flat_map in Hin as (y0 & H0 & H1).
      destruct (Nat.eqb mn 0 && _)%bool; [destruct H1|].
      cbn [option_map Nat.pred] in H1.
      apply IH in H1 as (n & Hn & Hit).
      exists (S n). split; [lia | econstructor; eauto]. }
    destruct (Nat.eqb mn 0); [|auto].
    apply in_app_or in H as [H|[<-|[]]]; [auto|].
    exists 0. split; [lia | constructor].
Qed.

Lemma Iter_Cls (ic inv : bool) (rs : list (N * N)) (n : nat) (x y : state) :
  Iter (ms ic (Cls inv rs)) n x y ->
  exists t, length t = n /\ after x = t ++ after y
            /\ before y = rev t ++ before x /\ caps y = caps x
            /\ Forall (fun c => clsMatch ic inv rs c = true) t.
Proof.
  induction 1 as [x|n x z y H0 _ IH].
  - exists []. repeat split. constructor.
  - apply ms_Cls_inv in H0 as (c & s & E & Hc & ->).
    destruct IH as (t & L & A & B & C & D). exists (c :: t). cbn in *.
    rewrite E, A, B, C, L, <- app_assoc. repeat split. constructor; assumption.
Qed.

(** ** Characters *)

Open Scope char_scope.

Ltac char_consts :=
  repeat match goal with
    | |- context [ch ?a] =>
        let v := eval vm_compute in (ch a) in change (ch a) with v
    | H : context [ch ?a] |- _ =>
        let v := eval vm_compute in (ch a) in change (ch a) with v in H
    end.

Lemma in_ranges_true (c : N) (rs : list (N * N)) :
  in_ranges c rs = true <-> InRanges c rs.
Proof.
  induction rs as [|r rs IH]; cbn [in_ranges existsb InRanges].
  - split; [discriminate | intros []].
  - unfold in_ranges in IH. rewrite orb_true_iff, IH. unfold in_range.
    rewrite andb_true_iff, !N.leb_le. reflexivity.
Qed.

Lemma in_ranges_false (c : N) (rs : list (N * N)) :
  in_ranges c rs = false <-> ~ InRanges c rs.
Proof.
  rewrite <- in_ranges_true. destruct (in_ranges c rs); split; congruence.
Qed.

Ltac char_cases :=
  repeat match goal with
    | |- context [if ?b then _ else _] =>
        let E := fresh "E" in destruct b eqn:E
    | H : context [if ?b then _ else _] |- _ =>
        let E := fresh "E" in destruct b eqn:E
    end.

(** Turns facts on character classes into linear arithmetic on code
    units. *)
Ltac char_prop :=
  unfold clsMatch, chrMatch, canonicalize, isDigit, isWhiteSpace, isWordChar in *;
  cbn [xorb andb orb] in *;
  repeat rewrite ?orb_false_r in *;
  repeat rewrite ?orb_true_iff, ?orb_false_iff, ?in_ranges_true,
    ?in_ranges_false, ?N.eqb_eq, ?N.eqb_neq in *;
  unfold whiteSpace, digit, wordChar, one, span in *;
  char_consts;
  cbn [InRanges app fst snd] in *;
  unfold upper, lower, isLower, isUpper in *;
  char_cases;
  repeat rewrite ?andb_true_iff, ?andb_false_iff, ?N.leb_le, ?N.leb_gt in *.

Ltac char_lia := char_prop; lia.

Lemma clsMatch_digit (ic : bool) (c : N) :
  clsMatch ic false digit c = true -> isDigit c = true.
Proof. destruct ic; intros H; char_lia. Qed.

Lemma isDigit_bounds (c : N) : isDigit c = true -> (48 <= c <= 57)%N.
Proof. intros H. char_lia. Qed.

Lemma isDigit_not_space (c : N) : isDigit c = true -> isWhiteSpace c = false.
Proof. intros H. char_lia. Qed.

Lemma clsMatch_space_dash (c : N) :
  clsMatch true false (whiteSpace ++ [one "-"]) c = true ->
  isWhiteSpace c = true \/ c = ch "-".
Proof. intros H. char_lia. Qed.

Lemma chrMatch_S (c : N) :
  chrMatch true (ch "S") c = true -> c = ch "S" \/ c = ch "s".
Proof. intros H. char_lia. Qed.

Lemma Forall_digit (ic : bool) (t : jsstring) :
  Forall (fun c => clsMatch ic false digit c = true) t ->
  Forall (fun c => isDigit c = true) t.
Proof. apply Forall_impl. intros c. apply clsMatch_digit. Qed.

(** ** parseInt on a run of digits *)

Lemma takeDigits_all (t : jsstring) :
  Forall (fun c => isDigit c = true) t -> takeDigits t = t.
Proof.
  induction 1 as [|c t Hc _ IH]; [reflexivity|].
  cbn [takeDigits]. rewrite Hc, IH. reflexivity.
Qed.

Lemma decimalValue_nonneg (t : jsstring) : (0 <= decimalValue t)%Z.
Proof.
  unfold decimalValue.
  assert (G : forall acc, (0 <= acc)%Z ->
    (0 <= fold_left (fun a c => (10 * a + digitValue c)%Z) t acc)%Z).
  { induction t as [|c t IH]; intros acc Hacc; cbn [fold_left]; [exact Hacc|].
    apply IH. unfold digitValue. lia. }
  apply G. lia.
Qed.

Lemma decimalValue_bound (t : jsstring) :
  Forall (fun c => isDigit c = true) t ->
  (decimalValue t < 10 ^ Z.of_nat (length t))%Z.
Proof.
  unfold decimalValue. intros H.
  assert (G : forall acc, (0 <= acc)%Z ->
    (fold_left (fun a c => (10 * a + digitValue c)%Z) t acc
     < (acc + 1) * 10 ^ Z.of_nat (length t))%Z).
  { induction H as [|c t Hc _ IH]; intros acc Hacc; cbn [fold_left length].
    - cbn. lia.
    - apply isDigit_bounds in Hc.
      assert (D : (0 <= digitValue c <= 9)%Z) by (unfold digitValue; lia).
      specialize (IH (10 * acc + digitValue c)%Z ltac:(lia)).
      rewrite Nat2Z.inj_succ, Z.pow_succ_r by lia.
      assert (P : (0 < 10 ^ Z.of_nat (length t))%Z)
        by (apply Z.pow_pos_nonneg; lia).
      nia. }
  specialize (G 0%Z ltac:(lia)). lia.
Qed.

Lemma doubleOfNat_small (z : Z) :
  (z < 2 ^ 53)%Z -> doubleOfNat z = Int z.
Proof.
  intros H. unfold doubleOfNat.
  change (2 ^ 53)%Z with 9007199254740992%Z in H.
  destruct (Z.ltb_spec z 9007199254740992); [reflexivity | lia].
Qed.

(** Rounding never leaves the non-negative numbers. *)
Lemma doubleOfNat_nonneg (z : Z) : (0 <= z)%Z -> atLeast 0 (doubleOfNat z).
Proof.
  intros H. unfold doubleOfNat.
  destruct (z <? 9007199254740992)%Z; [exact H|]. cbv zeta.
  destruct (2 ^ 1024 <=? _)%Z; [exact I|]. cbn [atLeast].
  apply Z.shiftl_nonneg.
  assert (Q : (0 <= Z.shiftr z (Z.log2 z - 52))%Z) by (apply Z.shiftr_nonneg, H).
  destruct (_ || _)%bool; lia.
Qed.

Lemma parseInt_Digits (t : jsstring) :
  Digits t -> parseInt t = doubleOfNat (decimalValue t).
Proof.
  intros [Hne Hall]. destruct t as [|c t]; [congruence|].
  pose proof (Forall_inv Hall) as Hc.
  pose proof (isDigit_bounds _ Hc) as Hb.
  unfold parseInt. cbn [trimStart]. rewrite (isDigit_not_space _ Hc).
  assert (Hcases : (c = 48 \/ c = 49 \/ c = 50 \/ c = 51 \/ c = 52 \/ c = 53
                    \/ c = 54 \/ c = 55 \/ c = 56 \/ c = 57)%N) by lia.
  assert (Ht : takeDigits (c :: t) = c :: t) by (apply takeDigits_all, Hall).
  repeat destruct Hcases as [->|Hcases]; try subst c; rewrite Ht; reflexivity.
Qed.

(** On digits [parseInt] never returns [NaN] or a negative number. *)
Lemma parseInt_Digits_nonneg (t : jsstring) :
  Digits t -> atLeast 0 (parseInt t).
Proof.
  intros H. rewrite (parseInt_Digits _ H).
  apply doubleOfNat_nonneg, decimalValue_nonneg.
Qed.

(** Up to fifteen digits the value is exact. *)
Lemma parseInt_exact (t : jsstring) :
  Digits t -> length t <= 15 -> parseInt t = Int (decimalValue t).
Proof.
  intros D L. rewrite (parseInt_Digits t D). apply doubleOfNat_small.
  pose proof (decimalValue_bound t (proj2 D)) as B.
  assert (P : (10 ^ Z.of_nat (length t) <= 10 ^ 15)%Z)
    by (apply Z.pow_le_mono_r; lia).
  assert (Q : (10 ^ 15 < 2 ^ 53)%Z) by reflexivity.
  lia.
Qed.

Lemma parseInt_short (t : jsstring) :
  Digits t /\ length t <= 4 -> intBetween 0 9999 (parseInt t).
Proof.
  intros [D L]. rewrite (parseInt_exact t D) by lia. cbn.
  pose proof (decimalValue_nonneg t).
  pose proof (decimalValue_bound t (proj2 D)) as B.
  assert (P : (10 ^ Z.of_nat (length t) <= 10 ^ 4)%Z)
    by (apply Z.pow_le_mono_r; lia).
  change (10 ^ 4)%Z with 10000%Z in P. lia.
Qed.

Lemma intBetween_intAtLeast (lo hi : Z) (n : number) :
  intBetween lo hi n -> intAtLeast lo n.
Proof. destruct n; cbn; [auto | lia | auto]. Qed.

(** ** What the patterns capture *)

Lemma re_exec_Some (re : RegExp) (s sk : jsstring) (m : state) :
  re_exec re s = Some (sk, m) ->
  exists s', s = sk ++ s'
             /\ In m (ms (flagI re) (pattern re) (mkState (rev sk) s' [])).
Proof.
  intros H. apply search_Some in H as (s' & ys & E & Hms).
  rewrite app_nil_r in Hms. exists s'. split; [exact E|].
  rewrite Hms. left. reflexivity.
Qed.

(** Every group that the extractors read takes part in every match of its
    pattern. *)
Lemma re_exec_captured (re : RegExp) (i : nat) (s sk : jsstring) (m : state) :
  In (re, i)
     [ (reGroup, 1); (reExtension, 1); (reCrc32, 1); (reSeason, 1);
       (reYear, 1); (reEpisodeV, 1); (reEpisodeV, 2); (reEpisodeRange, 1);
       (reEpisodeRange, 2); (reEpisode, 1) ] ->
  re_exec re s = Some (sk, m) ->
  exists t, lookup i (caps m) = Some t /\ captured i m = t.
Proof.
  intros Hin H. apply re_exec_Some in H as (s' & _ & H).
  assert (C : captures i (pattern re) = true).
  { cbn [In] in Hin.
    repeat (destruct Hin as [[= <- <-]|Hin]; [reflexivity|]). destruct Hin. }
  apply (ms_captures _ _ _ C) in H. unfold captured.
  destruct (lookup i (caps m)) as [t|]; [eauto | congruence].
Qed.

Lemma Grp_digits (ic : bool) (i mn : nat) (mx : option nat) (x y : state) :
  mx <> Some 0 ->
  In y (ms ic (Grp i (Rep (S mn) mx d)) x) ->
  exists t, Digits t /\ caps y = (i, t) :: caps x
            /\ after x = t ++ after y /\ before y = rev t ++ before x.
Proof.
  intros Hmx H. apply ms_Grp_inv in H as (z & H & ->).
  apply ms_Rep_Cls_nonempty in H as (t & Hne & A & B & C & D); [|exact Hmx].
  exists t. cbn [caps capture after before].
  rewrite (Frame_consumed _ _ _ A), C.
  repeat split; try assumption. eapply Forall_digit, D.
Qed.

Lemma Grp_short (ic : bool) (i mn k : nat) (x y : state) :
  In y (ms ic (Grp i (Rep mn (Some k) d)) x) ->
  exists t, length t <= k /\ caps y = (i, t) :: caps x.
Proof.
  intros H. apply ms_Grp_inv in H as (z & H & ->).
  cbn [ms] in H. apply repeatMatcher_at_most in H as (n & Hn & H).
  apply Iter_Cls in H as (t & L & A & _ & C & _).
  exists t. cbn [caps capture]. rewrite (Frame_consumed _ _ _ A), C.
  split; [lia | reflexivity].
Qed.

Lemma Grp_digits_short (ic : bool) (i k : nat) (x y : state) :
  In y (ms ic (Grp i (Rep 1 (Some (S k)) d)) x) ->
  exists t, Digits t /\ length t <= S k /\ caps y = (i, t) :: caps x.
Proof.
  intros H. pose proof H as H0.
  apply Grp_digits in H as (t & D & C & _); [|discriminate].
  apply Grp_short in H0 as (t' & L & C'). rewrite C in C'.
  injection C' as <-. eauto.
Qed.

Lemma episodeHead_short (ic : bool) (tail : list regex) (x y : state) :
  In y (ms ic (seq (episodeHead ++ Grp 1 (Rep 1 (Some 4) d) :: tail)) x) ->
  exists z t, Digits t /\ length t <= 4 /\ caps z = (1, t) :: caps x
              /\ In y (ms ic (seq tail) z).
Proof.
  unfold episodeHead. cbn [app seq fold_right]. intros H.
  apply ms_Seq_inv in H as (z1 & H1 & H).
  apply ms_Seq_inv in H as (z2 & H2 & H).
  apply ms_Seq_inv in H as (z3 & H3 & H).
  apply ms_Seq_inv in H as (z4 & H4 & H).
  apply ms_groupless in H1; [|reflexivity].
  apply ms_groupless in H2; [|reflexivity].
  apply ms_groupless in H3; [|reflexivity].
  apply Grp_digits_short in H4 as (t & Ht & L & C).
  exists z4, t. rewrite C, H3, H2, H1. auto.
Qed.

Lemma reEpisodeV_short (s sk : jsstring) (m : state) :
  re_exec reEpisodeV s = Some (sk, m) ->
  (Digits (captured 1 m) /\ length (captured 1 m) <= 4)
  /\ Digits (captured 2 m).
Proof.
  intros H. apply re_exec_Some in H as (s' & _ & H).
  cbn [pattern flagI reEpisodeV] in H.
  apply episodeHead_short in H as (z & t1 & D1 & L1 & C1 & H).
  cbn [seq fold_right] in H.
  apply ms_Seq_inv in H as (z1 & H1 & H).
  apply ms_Seq_inv in H as (z2 & H2 & H).
  apply ms_Eps_inv in H as ->.
  apply ms_Chr_inv in H1 as (c & r & _ & _ & ->).
  unfold Plus in H2.
  apply Grp_digits in H2 as (t2 & D2 & C2 & _); [|discriminate].
  unfold captured. rewrite C2. cbn [caps advance]. rewrite C1. cbn. auto.
Qed.

Lemma reEpisodeRange_short (s sk : jsstring) (m : state) :
  re_exec reEpisodeRange s = Some (sk, m) ->
  (Digits (captured 1 m) /\ length (captured 1 m) <= 4)
  /\ (Digits (captured 2 m) /\ length (captured 2 m) <= 4).
Proof.
  intros H. apply re_exec_Some in H as (s' & _ & H).
  cbn [pattern flagI reEpisodeRange] in H.
  apply episodeHead_short in H as (z & t1 & D1 & L1 & C1 & H).
  cbn [seq fold_right] in H.
  apply ms_Seq_inv in H as (z1 & H1 & H).
  apply ms_Seq_inv in H as (z2 & H2 & H).
  apply ms_Seq_inv in H as (z3 & H3 & H).
  apply ms_Seq_inv in H as (z4 & H4 & H).
  apply ms_Eps_inv in H as ->.
  apply ms_groupless in H1; [|reflexivity].
  apply ms_groupless in H2; [|reflexivity].
  apply ms_groupless in H3; [|reflexivity].
  apply Grp_digits_short in H4 as (t2 & D2 & L2 & C2).
  unfold captured. rewrite C2, H3, H2, H1, C1. cbn. auto.
Qed.

Lemma reEpisode_short (s sk : jsstring) (m : state) :
  re_exec reEpisode s = Some (sk, m) ->
  Digits (captured 1 m) /\ length (captured 1 m) <= 4.
Proof.
  intros H. apply re_exec_Some in H as (s' & _ & H).
  cbn [pattern flagI reEpisode] in H.
  apply episodeHead_short in H as (z & t1 & D1 & L1 & C1 & H).
  apply ms_groupless in H; [|reflexivity].
  unfold captured. rewrite H, C1. cbn. auto.
Qed.

(** C4 (amended): every episode that [parse] returns is a [Single] with
    episode >= 0, a [Range] with 0 <= start < end, or a [Versioned] with
    episode >= 0 and version >= 0 (episode, start and end are integers; a
    version is an integer or, when its digits overflow a double,
    [+Infinity]); and when the versioned pattern fails and the range
    pattern matches a pair that is not increasing, the episode is what the
    single attempt gives. *)
Theorem parse_episode_invariant (s : jsstring) (r : ParseResult) :
  HeuristicParser.parse s = inr r ->
  (forall e, episode r = Some e -> resolvedInvariant e)
  /\ (forall sk m,
        re_exec reEpisodeV (trim s) = None ->
        re_exec reEpisodeRange (trim s) = Some (sk, m) ->
        num_lt (parseInt (captured 1 m)) (parseInt (captured 2 m)) = false ->
        episode r = EpisodeResolver.singleAttempt (trim s)).
Proof.
  intros H. apply parse_inr_inv in H as [_ ->].
  unfold resultOf. cbn [episode]. unfold extractEpisode. split.
  - intros e.
    assert (S1 : match re_exec reEpisode (trim s) with
                 | Some (_, m) => Some (Single (parseInt (captured 1 m)))
                 | None => None
                 end = Some e -> resolvedInvariant e).
    { destruct (re_exec reEpisode (trim s)) as [[sk1 m1]|] eqn:E1; [|discriminate].
      intros [= <-]. apply reEpisode_short in E1.
      eapply intBetween_intAtLeast, parseInt_short, E1. }
    destruct (re_exec reEpisodeV (trim s)) as [[skv mv]|] eqn:EV.
    { intros [= <-]. apply reEpisodeV_short in EV as [D1 D2]. split.
      - eapply intBetween_intAtLeast, parseInt_short, D1.
      - apply parseInt_Digits_nonneg, D2. }
    destruct (re_exec reEpisodeRange (trim s)) as [[skr mr]|] eqn:ER; [|exact S1].
    destruct (num_lt _ _) eqn:Elt; [|exact S1].
    intros [= <-]. apply reEpisodeRange_short in ER as [D1 D2].
    cbn. repeat split; try exact Elt;
      eapply intBetween_intAtLeast, parseInt_short; eassumption.
  - intros sk m -> -> ->. reflexivity.
Qed.

Lemma parse_episode_invariant_witness :
  resolvedInvariant (Versioned (Int 28) (Int 0))
  /\ episode (resultOf (lit "Show 5-3 x")) = Some (Single (Int 5)).
Proof.
  split.
  - apply (proj1 (@parse_episode_invariant (lit "Show - 28v0")
                    (resultOf (lit "Show - 28v0")) eq_refl)).
    vm_compute. reflexivity.
  - destruct (re_exec reEpisodeRange (trim (lit "Show 5-3 x"))) as [[sk m]|] eqn:E;
      [|vm_compute in E; discriminate].
    rewrite (proj2 (@parse_episode_invariant (lit "Show 5-3 x")
                      (resultOf (lit "Show 5-3 x")) eq_refl) sk m).
    + vm_compute. reflexivity.
    + vm_compute. reflexivity.
    + exact E.
    + vm_compute in E. injection E as <- <-. vm_compute. reflexivity.
Defined.

(** C4 (as stated) fails: "28v0" is resolved to a versioned episode whose
    version is 0, below the bound 1 of the data model. *)
Lemma parse_versioned_zero_counterexample :
  exists r e,
    HeuristicParser.parse (lit "Show - 28v0") = inr r
    /\ episode r = Some e
    /\ e = Versioned (Int 28) (Int 0)
    /\ ~ variantInvariant e.
Proof.
  eexists. eexists. split; [vm_compute; reflexivity|].
  split; [reflexivity|]. split; [reflexivity|].
  cbn. intros [_ H]. lia.
Qed.

(** A version is read from an unbounded run of digits: above 2^53 it is
    rounded, and 309 nines are beyond the doubles. *)
Example extractEpisode_version_overflow :
  extractEpisode (lit "Show - 01v9007199254740993")
  = Some (Versioned (Int 1) (Int 9007199254740992))
  /\ extractEpisode (lit "Show - 01v" ++ repeat (ch "9"%char) 309)
     = Some (Versioned (Int 1) (Infinity false)).
Proof. split; vm_compute; reflexivity. Qed.

(** ** Resolution *)

Lemma startsWith_spec (pat s : jsstring) :
  startsWith pat s = true <-> exists b, s = pat ++ b.
Proof.
  revert s. induction pat as [|p pat IH]; intros s; cbn [startsWith].
  - split; [intros _; exists s; reflexivity | reflexivity].
  - destruct s as [|c s].
    + split; [discriminate | intros [b E]; discriminate].
    + rewrite andb_true_iff, N.eqb_eq, IH. split.
      * intros [-> [b ->]]. exists b. reflexivity.
      * intros [b E]. injection E as -> ->. eauto.
Qed.

Lemma indexOf_Has (pat s : jsstring) :
  (exists i, indexOf pat s = Some i) <-> Has pat s.
Proof.
  induction s as [|c s IH]; cbn [indexOf].
  - destruct (startsWith pat []) eqn:E.
    + apply startsWith_spec in E as [b E].
      split; [intros _; exists [], b; exact E | eauto].
    + split; [intros [i Hi]; discriminate|].
      intros (a & b & E0). destruct a; [|discriminate].
      assert (startsWith pat [] = true) by (apply startsWith_spec; eauto).
      congruence.
  - destruct (startsWith pat (c :: s)) eqn:E.
    + apply startsWith_spec in E as [b E].
      split; [intros _; exists [], b; exact E | eauto].
    + split.
      * intros [i Hi]. destruct (indexOf pat s) as [j|]; [|discriminate].
        destruct (proj1 IH (ex_intro _ j eq_refl)) as (a & b & ->).
        exists (c :: a), b. reflexivity.
      * intros (a & b & E0). destruct a as [|c0 a].
        { assert (startsWith pat (c :: s) = true)
            by (apply startsWith_spec; eauto). congruence. }
        injection E0 as -> ->.
        destruct (proj2 IH (ex_intro _ a (ex_intro _ b eq_refl))) as [j ->].
        cbn. eauto.
Qed.

Lemma includes_Has (pat s : jsstring) : includes pat s = true <-> Has pat s.
Proof.
  rewrite <- indexOf_Has. unfold includes.
  destruct (indexOf pat s); split; eauto; try discriminate.
  intros [i Hi]. discriminate.
Qed.

Lemma includes_not_Has (pat s : jsstring) :
  includes pat s = false <-> ~ Has pat s.
Proof.
  rewrite <- includes_Has. destruct (includes pat s); split; congruence.
Qed.

Lemma trimStart_Has (m s : jsstring) :
  startsSolid m = true -> Has m s -> Has m (trimStart s).
Proof.
  intros Hm (a & b & ->). induction a as [|x a IH].
  - destruct m as [|c m]; [discriminate|]. cbn [startsSolid app trimStart] in *.
    apply negb_true_iff in Hm. rewrite Hm. exists [], b. reflexivity.
  - cbn [app trimStart]. destruct (isWhiteSpace x); [exact IH|].
    exists (x :: a), b. reflexivity.
Qed.

Lemma rev_Has (m s : jsstring) : Has m s -> Has (rev m) (rev s).
Proof.
  intros (a & b & ->). exists (rev b), (rev a).
  rewrite !rev_app_distr, app_assoc. reflexivity.
Qed.

Lemma trim_Has (m s : jsstring) :
  startsSolid m = true -> startsSolid (rev m) = true ->
  Has m s -> Has m (trim s).
Proof.
  intros H1 H2 H. unfold trim, trimEnd.
  rewrite <- (rev_involutive m). apply rev_Has.
  apply trimStart_Has; [exact H2|]. apply rev_Has.
  apply trimStart_Has; assumption.
Qed.

(** X18: the markers are looked up by substring containment in the order
    2160, 1080, 720, 480, each in its [p] and [i] form as spelled in lower
    case, the first hit winning, and null is returned when none of the
    eight occurs; a string that contains both "2160p" and "720p" is parsed
    to UHD2160. *)
Theorem extractResolution_priority (s : jsstring) :
  ((Has (lit "2160p") s \/ Has (lit "2160i") s) ->
   extractResolution s = Some UHD2160)
  /\ (~ (Has (lit "2160p") s \/ Has (lit "2160i") s) ->
      (Has (lit "1080p") s \/ Has (lit "1080i") s) ->
      extractResolution s = Some FHD1080)
  /\ (~ (Has (lit "2160p") s \/ Has (lit "2160i") s) ->
      ~ (Has (lit "1080p") s \/ Has (lit "1080i") s) ->
      (Has (lit "720p") s \/ Has (lit "720i") s) ->
      extractResolution s = Some HD720)
  /\ (~ (Has (lit "2160p") s \/ Has (lit "2160i") s) ->
      ~ (Has (lit "1080p") s \/ Has (lit "1080i") s) ->
      ~ (Has (lit "720p") s \/ Has (lit "720i") s) ->
      (Has (lit "480p") s \/ Has (lit "480i") s) ->
      extractResolution s = Some SD480)
  /\ (~ (Has (lit "2160p") s \/ Has (lit "2160i") s) ->
      ~ (Has (lit "1080p") s \/ Has (lit "1080i") s) ->
      ~ (Has (lit "720p") s \/ Has (lit "720i") s) ->
      ~ (Has (lit "480p") s \/ Has (lit "480i") s) ->
      extractResolution s = None)
  /\ (forall r,
        HeuristicParser.parse s = inr r ->
        Has (lit "2160p") s -> Has (lit "720p") s ->
        resolution r = Some UHD2160).
Proof.
  assert (B : forall m, (Has (lit m) s -> includes (lit m) s = true)
                        /\ (~ Has (lit m) s -> includes (lit m) s = false)).
  { intros m. split; [apply includes_Has | apply includes_not_Has]. }
  unfold extractResolution.
  repeat split.
  - intros [H|H]; apply B in H; rewrite H, ?orb_true_r; reflexivity.
  - intros N1 [H|H]; apply B in H;
      apply Decidable.not_or in N1 as [N1 N1'];
      apply B in N1; apply B in N1';
      rewrite N1, N1', H, ?orb_true_r; reflexivity.
  - intros N1 N2 [H|H]; apply B in H;
      apply Decidable.not_or in N1 as [N1 N1'];
      apply Decidable.not_or in N2 as [N2 N2'];
      apply B in N1; apply B in N1'; apply B in N2; apply B in N2';
      rewrite N1, N1', N2, N2', H, ?orb_true_r; reflexivity.
  - intros N1 N2 N3 [H|H]; apply B in H;
      apply Decidable.not_or in N1 as [N1 N1'];
      apply Decidable.not_or in N2 as [N2 N2'];
      apply Decidable.not_or in N3 as [N3 N3'];
      apply B in N1; apply B in N1'; apply B in N2; apply B in N2';
      apply B in N3; apply B in N3';
      rewrite N1, N1', N2, N2', N3, N3', H, ?orb_true_r; reflexivity.
  - intros N1 N2 N3 N4.
    apply Decidable.not_or in N1 as [N1 N1'];
      apply Decidable.not_or in N2 as [N2 N2'];
      apply Decidable.not_or in N3 as [N3 N3'];
      apply Decidable.not_or in N4 as [N4 N4'];
      apply B in N1; apply B in N1'; apply B in N2; apply B in N2';
      apply B in N3; apply B in N3'; apply B in N4; apply B in N4'.
    rewrite N1, N1', N2, N2', N3, N3', N4, N4'. reflexivity.
  - intros r H H1 _. apply parse_inr_inv in H as [_ ->].
    unfold resultOf. cbn [resolution]. unfold extractResolution.
    apply trim_Has in H1; [|reflexivity|reflexivity].
    apply includes_Has in H1. rewrite H1. reflexivity.
Qed.

Lemma extractResolution_priority_witness :
  extractResolution (lit "Show - 01 [720p] (2160p source)") = Some UHD2160
  /\ resolution (resultOf (lit "Show - 01 [720p] (2160p source)")) = Some UHD2160
  /\ extractResolution (lit "Show - 01 [720i]") = Some HD720.
Proof.
  split; [|split].
  - apply (proj1 (extractResolution_priority _)).
    left. exists (lit "Show - 01 [720p] ("), (lit " source)"). reflexivity.
  - destruct (extractResolution_priority (lit "Show - 01 [720p] (2160p source)"))
      as (_ & _ & _ & _ & _ & H).
    apply H.
    + vm_compute. reflexivity.
    + exists (lit "Show - 01 [720p] ("), (lit " source)"). reflexivity.
    + exists (lit "Show - 01 ["), (lit "] (2160p source)"). reflexivity.
  - destruct (extractResolution_priority (lit "Show - 01 [720i]"))
      as (_ & _ & H & _).
    apply H.
    + intros [H0|H0]; apply includes_Has in H0; vm_compute in H0; discriminate.
    + intros [H0|H0]; apply includes_Has in H0; vm_compute in H0; discriminate.
    + right. exists (lit "Show - 01 ["), (lit "]"). reflexivity.
Defined.

(** C7 (evaluation at a failing input): the class declares the pattern
    [reResolution] with the [i] flag, and that pattern finds the marker in
    "Show - 01 [1080P]"; [extractResolution] never uses it and looks the
    markers up as spelled in lower case, so the resolution of this input is
    null. *)
Theorem resolution_upper_case_missed :
  exists r sk m,
    HeuristicParser.parse (lit "Show - 01 [1080P]") = inr r
    /\ resolution r = None
    /\ re_exec reResolution (lit "Show - 01 [1080P]") = Some (sk, m)
    /\ sk = lit "Show - 01 [" /\ after m = lit "]"
    /\ includesIgnoreCase (lit "1080p") (lit "Show - 01 [1080P]") = true
    /\ resolutionIgnoreCase (lit "Show - 01 [1080P]") = Some FHD1080.
Proof.
  eexists. eexists. eexists. split; [vm_compute; reflexivity|].
  split; [reflexivity|]. split; [vm_compute; reflexivity|].
  repeat split.
Qed.

(** ** Confidence *)

Lemma extractTitle_filled (s : jsstring) (g e : option jsstring) :
  filled (extractTitle s g e) = present (extractTitle s g e).
Proof.
  unfold extractTitle. destruct (cleanUp _); reflexivity.
Qed.

Lemma computeConfidence_value (r : ParseResult) :
  (computeConfidence r
   == inject_Z (filledNumerator r) / inject_Z (filledDenominator r))%Q
  /\ (0 <= computeConfidence r)%Q /\ (computeConfidence r <= 1)%Q.
Proof.
  unfold computeConfidence, filledNumerator, filledDenominator.
  destruct r as [i t g ep se re vc ac so ye cr ex ve co pm].
  cbn [title group episode resolution video_codec audio_codec source].
  destruct t as [[|? ?]|], g as [[|? ?]|], ep, re, vc, ac, so;
    cbn [truthyStr truthy filled present];
    (split; [vm_compute; reflexivity | split; vm_compute; discriminate]).
Qed.

(** The [confidence] that [parse] stores is [computeConfidence] of the
    record it returns, whose title is never the empty string. *)
Lemma parse_confidence (s : jsstring) (r : ParseResult) :
  HeuristicParser.parse s = inr r ->
  confidence r = computeConfidence r /\ title r <> Some [].
Proof.
  intros H. apply parse_inr_inv in H as [_ ->]. split.
  - unfold resultOf. cbn [confidence].
    unfold computeConfidence.
    cbn [title group episode resolution video_codec audio_codec source].
    reflexivity.
  - unfold resultOf. cbn [title]. unfold extractTitle.
    destruct (cleanUp _); discriminate.
Qed.

(** C6 (amended): for every record, [computeConfidence] returns
    numerator/denominator (so min with 1.0 changes nothing), where each
    field among episode, resolution, video_codec, audio_codec, source adds 1
    when it is not null, group adds 1 and title adds 2 when they are present
    and not the empty string, and the denominator is 8 when the title is
    counted and 7 otherwise; the value lies in [0, 1].  When the title is
    not the empty string, as in every record that [parse] returns, the
    title counts as soon as it is present; and the confidence that [parse]
    stores is this value. *)
Theorem computeConfidence_formula (r : ParseResult) :
  (computeConfidence r
   == Math_min (inject_Z (filledNumerator r) / inject_Z (filledDenominator r)) 1)%Q
  /\ (computeConfidence r
      == inject_Z (filledNumerator r) / inject_Z (filledDenominator r))%Q
  /\ (0 <= computeConfidence r)%Q /\ (computeConfidence r <= 1)%Q
  /\ (title r <> Some [] ->
      filledNumerator r = filledGroupNumerator r
      /\ filledDenominator r = presenceDenominator r)
  /\ (forall s, HeuristicParser.parse s = inr r ->
        title r <> Some []
        /\ confidence r = computeConfidence r
        /\ (confidence r
            == Math_min (inject_Z (filledGroupNumerator r)
                         / inject_Z (presenceDenominator r)) 1)%Q).
Proof.
  destruct (computeConfidence_value r) as (E & L & U).
  assert (M : (computeConfidence r
               == Math_min (inject_Z (filledNumerator r)
                            / inject_Z (filledDenominator r)) 1)%Q).
  { unfold Math_min.
    assert (B : Qle_bool (inject_Z (filledNumerator r)
                          / inject_Z (filledDenominator r)) 1 = true).
    { apply Qle_bool_iff. rewrite <- E. exact U. }
    rewrite B. exact E. }
  assert (T : title r <> Some [] ->
              filledNumerator r = filledGroupNumerator r
              /\ filledDenominator r = presenceDenominator r).
  { unfold filledNumerator, filledGroupNumerator, filledDenominator,
      presenceDenominator.
    destruct (title r) as [[|c t]|]; cbn [filled present]; intros H;
      [exfalso; apply H; reflexivity | | ]; split; reflexivity. }
  repeat split; try assumption; try (apply T; assumption).
  - eapply parse_confidence; eassumption.
  - eapply parse_confidence; eassumption.
  - destruct (parse_confidence s r H) as [C Hne].
    destruct (T Hne) as [<- <-]. rewrite C. exact M.
Qed.

Lemma computeConfidence_formula_witness :
  (computeConfidence
     (mkParseResult (lit "T - 01 1080p x264 AAC BD") (Some (lit "T"))
        (Some (lit "G")) (Some (Single (Int 1))) None (Some FHD1080)
        (Some H264) (Some AAC) (Some BluRay) None None None None 0 Light)
   == 8 # 8)%Q
  /\ (confidence (resultOf (lit "[SubsPlease] Jujutsu Kaisen - 24 (1080p) [A1B2C3D4].mkv"))
      == 5 # 8)%Q.
Proof.
  split.
  - rewrite (proj1 (proj2 (computeConfidence_formula _))).
    vm_compute. reflexivity.
  - destruct (computeConfidence_formula
                (resultOf (lit "[SubsPlease] Jujutsu Kaisen - 24 (1080p) [A1B2C3D4].mkv")))
      as (_ & _ & _ & _ & _ & H).
    destruct (H (lit "[SubsPlease] Jujutsu Kaisen - 24 (1080p) [A1B2C3D4].mkv")
                ltac:(vm_compute; reflexivity)) as (_ & _ & C).
    rewrite C. vm_compute. reflexivity.
Defined.

(** C6 (as stated) fails: for "[ ] Title" the group is present (it is the
    empty string, not null) and is not counted, so the confidence is 2/8
    and not the 3/8 of the presence formula. *)
Lemma confidence_empty_group_counterexample :
  exists r,
    HeuristicParser.parse (lit "[ ] Title") = inr r
    /\ group r = Some []
    /\ title r = Some (lit "Title")
    /\ (confidence r == 2 # 8)%Q
    /\ (presenceConfidence r == 3 # 8)%Q
    /\ ~ (confidence r == presenceConfidence r)%Q.
Proof.
  eexists. split; [vm_compute; reflexivity|].
  repeat split; vm_compute; discriminate.
Qed.

(** ** Global replacement of single characters *)

Section CharStep.

Variable ic : bool.
Variable r : regex.
Variable f : N -> bool.
Hypothesis ms_r : forall x, ms ic r x = charStep f x.

Lemma search_charStep_nil (l : list N) : search ic r l [] = None.
Proof. cbn [search]. rewrite ms_r. reflexivity. Qed.

Lemma search_charStep_cons (l : list N) (c : N) (s : jsstring) :
  search ic r l (c :: s)
  = if f c then Some ([], mkState (c :: l) s [])
    else match search ic r (c :: l) s with
         | Some (sk, y) => Some (c :: sk, y)
         | None => None
         end.
Proof.
  cbn [search]. rewrite ms_r. unfold charStep. cbn [after].
  destruct (f c); reflexivity.
Qed.

Lemma search_charStep_None (s : jsstring) :
  forall l, search ic r l s = None -> blank f s = s.
Proof.
  induction s as [|c s IH]; intros l H; [reflexivity|].
  rewrite search_charStep_cons in H.
  destruct (f c) eqn:E; [discriminate|].
  destruct (search ic r (c :: l) s) as [[sk y]|] eqn:E0; [discriminate|].
  cbn [blank map]. rewrite E. f_equal. apply (IH _ E0).
Qed.

Lemma search_charStep_Some (s : jsstring) :
  forall l sk y, search ic r l s = Some (sk, y) ->
  exists c, s = sk ++ c :: after y /\ f c = true /\ blank f sk = sk.
Proof.
  induction s as [|c s IH]; intros l sk y H.
  - rewrite search_charStep_nil in H. discriminate.
  - rewrite search_charStep_cons in H. destruct (f c) eqn:E.
    + injection H as <- <-. exists c. auto.
    + destruct (search ic r (c :: l) s) as [[sk0 y0]|] eqn:E0; [|discriminate].
      injection H as <- <-. apply IH in E0 as (c0 & -> & Hc & Hsk).
      exists c0. repeat split; auto. cbn [blank map]. rewrite E.
      f_equal. exact Hsk.
Qed.

Lemma blank_app (a b : jsstring) : blank f (a ++ b) = blank f a ++ blank f b.
Proof. apply map_app. Qed.

Lemma replaceAllFrom_charStep (fuel : nat) :
  forall l s, length s < fuel ->
  replaceAllFrom ic r [32%N] fuel l s = blank f s.
Proof.
  induction fuel as [|fuel IH]; intros l s Hlen; [lia|].
  cbn [replaceAllFrom].
  destruct (search ic r l s) as [[sk y]|] eqn:E.
  - apply search_charStep_Some in E as (c & -> & Hc & Hsk).
    rewrite length_app. cbn [length].
    replace (length sk + S (length (after y)) - length sk)
      with (S (length (after y))) by lia.
    assert (Hlt : Nat.ltb (length (after y)) (S (length (after y))) = true)
      by (apply Nat.ltb_lt; lia).
    rewrite Hlt, IH.
    + rewrite blank_app, Hsk. cbn [blank map]. rewrite Hc. reflexivity.
    + rewrite length_app in Hlen. cbn [length] in Hlen. lia.
  - symmetry. apply (search_charStep_None _ _ E).
Qed.

Lemma replaceAll_charStep (s : jsstring) :
  replaceAll ic r [32%N] s = blank f s.
Proof. apply replaceAllFrom_charStep. lia. Qed.

End CharStep.

(** ** Splitting on white space *)

Lemma trimStart_length (s : jsstring) : length (trimStart s) <= length s.
Proof.
  induction s as [|c s IH]; cbn [trimStart]; [lia|].
  destruct (isWhiteSpace c); cbn [length]; lia.
Qed.

Lemma clsMatch_plain (rs : list (N * N)) (c : N) :
  clsMatch false false rs c = in_ranges c rs.
Proof. unfold clsMatch. cbn [xorb andb]. apply orb_false_r. Qed.

Lemma ms_ws (x : state) : ms false ws x = charStep isWhiteSpace x.
Proof.
  unfold ws, charStep, isWhiteSpace. cbn [ms].
  destruct (after x) as [|c s]; [reflexivity|].
  rewrite clsMatch_plain. reflexivity.
Qed.

(** The first result of [\s*] is the position after the whole run of white
    space. *)
Lemma star_ws_head (fuel : nat) :
  forall x, length (after x) < fuel ->
  exists y ys, repeatMatcher (ms false ws) fuel 0 None x = y :: ys
               /\ after y = trimStart (after x).
Proof.
  induction fuel as [|fuel IH]; intros x Hlen; [lia|].
  rewrite repeatMatcher_S. cbn [Nat.eqb andb Nat.pred option_map].
  rewrite ms_ws. unfold charStep. destruct (after x) as [|c s] eqn:E.
  - exists x, []. cbn. rewrite E. auto.
  - cbn [trimStart]. destruct (isWhiteSpace c) eqn:W.
    + cbn [flat_map advance after length]. rewrite app_nil_r.
      assert (Hne : Nat.eqb (length s) (S (length s)) = false)
        by (apply Nat.eqb_neq; lia).
      rewrite Hne.
      destruct (IH (advance x c s)) as (y & ys & Ey & Ay).
      { cbn in *. lia. }
      rewrite Ey.
      exists y, (ys ++ [x]). split; [reflexivity | exact Ay].
    + cbn [flat_map app]. exists x, []. split; [reflexivity | exact E].
Qed.

Lemma plus_ws_head (x : state) :
  match ms false (pattern reSpaces) x with
  | [] => match after x with
          | c :: _ => isWhiteSpace c = false
          | [] => True
          end
  | y :: _ => exists c s, after x = c :: s /\ isWhiteSpace c = true
                          /\ after y = trimStart s
  end.
Proof.
  cbn [pattern reSpaces]. unfold Plus. cbn [ms].
  replace (1 + length (after x) + 1) with (S (S (length (after x)))) by lia.
  rewrite repeatMatcher_S. cbn [Nat.eqb andb Nat.pred option_map].
  rewrite ms_ws. unfold charStep. destruct (after x) as [|c s] eqn:E.
  - exact I.
  - destruct (isWhiteSpace c) eqn:W.
    + cbn [flat_map]. rewrite app_nil_r.
      destruct (star_ws_head (S (length (c :: s))) (advance x c s))
        as (y & ys & Ey & Ay).
      { cbn. lia. }
      rewrite Ey. exists c, s. auto.
    + cbn. reflexivity.
Qed.

Lemma emit_filter (piece : list N) :
  filter (fun p => match p with [] => false | _ => true end) [rev piece]
  = emit piece.
Proof.
  destruct piece as [|c piece]; [reflexivity|].
  cbn [filter emit]. destruct (rev (c :: piece)) eqn:E; [|reflexivity].
  apply (f_equal (@length N)) in E. rewrite length_rev in E. discriminate.
Qed.

Lemma tokens_trimStart (s : jsstring) : tokens [] (trimStart s) = tokens [] s.
Proof.
  induction s as [|c s IH]; [reflexivity|].
  cbn [trimStart tokens]. destruct (isWhiteSpace c) eqn:W.
  - exact IH.
  - cbn [tokens]. rewrite W. reflexivity.
Qed.

Lemma splitFrom_tokens (fuel : nat) :
  forall s l piece, length s < fuel ->
  filter (fun p => match p with [] => false | _ => true end)
    (splitFrom false (pattern reSpaces) fuel l piece s)
  = tokens piece s.
Proof.
  induction fuel as [|fuel IH]; intros s l piece Hlen; [lia|].
  cbn [splitFrom]. destruct s as [|c s].
  - apply emit_filter.
  - pose proof (plus_ws_head (mkState l (c :: s) [])) as H.
    destruct (ms false (pattern reSpaces) (mkState l (c :: s) [])) as [|y ys].
    + cbn [after] in H. cbn [tokens]. rewrite H. apply IH.
      cbn in Hlen. lia.
    + destruct H as (c0 & s0 & E & W & Ay). cbn [after] in E.
      injection E as <- <-.
      assert (Hne : Nat.eqb (length (after y)) (length (c :: s)) = false).
      { apply Nat.eqb_neq. rewrite Ay. pose proof (trimStart_length s).
        cbn [length]. lia. }
      rewrite Hne, andb_false_r.
      match goal with
      | |- filter _ (?a :: ?b) = _ => change (a :: b) with ([a] ++ b)
      end.
      rewrite filter_app, emit_filter, IH.
      * cbn [tokens]. rewrite W, Ay, tokens_trimStart. reflexivity.
      * rewrite Ay. pose proof (trimStart_length s). cbn in Hlen. lia.
Qed.

Lemma split_tokens (s : jsstring) :
  filter (fun p => match p with [] => false | _ => true end)
    (re_split reSpaces s)
  = tokens [] s.
Proof.
  unfold re_split, split. destruct s as [|c s].
  - cbn. reflexivity.
  - apply splitFrom_tokens. cbn [length]. lia.
Qed.

(** ** The clean-up chain *)

Lemma ms_reDotUnderscore (x : state) :
  ms false (pattern reDotUnderscore) x = charStep isDotUnderscore x.
Proof. reflexivity. Qed.

Lemma ms_reDash (x : state) :
  ms false (pattern reDash) x = charStep isDash x.
Proof. reflexivity. Qed.

(** The chain written with list functions: dots, underscores and dashes
    become spaces, and the words are joined by single spaces. *)
Lemma cleanUp_tokens (w : jsstring) :
  cleanUp w
  = trim (join [32%N] (tokens [] (blank isDash (blank isDotUnderscore w)))).
Proof.
  unfold cleanUp, re_replaceAll. change (lit " ") with [32%N].
  rewrite (replaceAll_charStep false (pattern reDotUnderscore)
             isDotUnderscore ms_reDotUnderscore).
  rewrite (replaceAll_charStep false (pattern reDash) isDash ms_reDash).
  rewrite split_tokens. reflexivity.
Qed.

Lemma plain_not_space (c : N) : plain c = true -> isWhiteSpace c = false.
Proof.
  unfold plain. rewrite !andb_true_iff, !negb_true_iff. tauto.
Qed.

Lemma plain_not_blanked (c : N) :
  plain c = true -> isDotUnderscore c = false /\ isDash c = false.
Proof.
  unfold plain, isDotUnderscore, isDash.
  rewrite !andb_true_iff, !negb_true_iff. intros (((_ & H1) & H2) & H3).
  split; char_lia.
Qed.

Lemma blanked_space_or_plain (c : N) :
  let c1 := if isDotUnderscore c then 32%N else c in
  let c2 := if isDash c1 then 32%N else c1 in
  isWhiteSpace c2 = true \/ plain c2 = true.
Proof.
  cbn zeta. destruct (isDotUnderscore c) eqn:E1.
  - left. reflexivity.
  - destruct (isDash c) eqn:E2; [left; reflexivity|].
    destruct (isWhiteSpace c) eqn:W; [left; reflexivity|]. right.
    unfold plain. rewrite W. cbn [negb andb]. clear W.
    unfold isDotUnderscore, isDash in *.
    rewrite !andb_true_iff, !negb_true_iff. repeat split; char_lia.
Qed.

Lemma Word_emit (piece : list N) :
  Forall (fun c => plain c = true) piece -> Forall Word (emit piece).
Proof.
  intros H. destruct piece as [|c piece]; [constructor|].
  cbn [emit]. constructor; [|constructor]. split.
  - intros E. apply (f_equal (@length N)) in E.
    rewrite length_rev in E. discriminate.
  - apply Forall_rev, H.
Qed.

Lemma tokens_Word (s : jsstring) :
  Forall (fun c => isWhiteSpace c = true \/ plain c = true) s ->
  forall piece, Forall (fun c => plain c = true) piece ->
  Forall Word (tokens piece s).
Proof.
  induction 1 as [|c s Hc _ IH]; intros piece Hp; cbn [tokens].
  - apply Word_emit, Hp.
  - destruct (isWhiteSpace c) eqn:W.
    + apply Forall_app. split; [apply Word_emit, Hp | apply IH; constructor].
    + apply IH. constructor; [|exact Hp]. destruct Hc; congruence.
Qed.

Lemma blanked_chars (w : jsstring) :
  Forall (fun c => isWhiteSpace c = true \/ plain c = true)
    (blank isDash (blank isDotUnderscore w)).
Proof.
  unfold blank. rewrite map_map. apply Forall_map, Forall_forall.
  intros c _. apply blanked_space_or_plain.
Qed.

Lemma join_cons (sep p : jsstring) (rest : list jsstring) :
  rest <> [] -> join sep (p :: rest) = p ++ sep ++ join sep rest.
Proof. destruct rest; [congruence | reflexivity]. Qed.

Lemma join_Word_chars (ts : list jsstring) :
  Forall Word ts ->
  Forall (fun c => c = 32%N \/ plain c = true) (join [32%N] ts).
Proof.
  induction 1 as [|t ts [_ Ht] _ IH]; [constructor|].
  assert (Hp : Forall (fun c => c = 32%N \/ plain c = true) t)
    by (eapply Forall_impl; [|exact Ht]; auto).
  destruct ts as [|t2 ts]; [exact Hp|].
  rewrite join_cons by discriminate.
  apply Forall_app. split; [exact Hp|]. constructor; auto.
Qed.

Lemma join_Word_last (ts : list jsstring) :
  Forall Word ts -> ts <> [] ->
  exists a c, join [32%N] ts = a ++ [c] /\ plain c = true.
Proof.
  induction 1 as [|t ts [Hne Ht] Hts IH]; [congruence|]. intros _.
  destruct ts as [|t2 ts].
  - destruct (exists_last Hne) as (a & c & ->).
    exists a, c. split; [reflexivity|].
    apply Forall_app in Ht as [_ Ht]. apply (Forall_inv Ht).
  - destruct IH as (a & c & E & Hc); [discriminate|].
    exists (t ++ [32%N] ++ a), c. rewrite join_cons by discriminate.
    rewrite E, <- !app_assoc. auto.
Qed.

Lemma join_Word_trim (ts : list jsstring) :
  Forall Word ts -> trim (join [32%N] ts) = join [32%N] ts.
Proof.
  intros H. destruct ts as [|t ts]; [reflexivity|].
  destruct (join_Word_last _ H) as (a & c & E & Hc); [discriminate|].
  assert (S1 : trimStart (join [32%N] (t :: ts)) = join [32%N] (t :: ts)).
  { pose proof (Forall_inv H) as [Hne Ht].
    destruct t as [|c0 t]; [congruence|].
    pose proof (plain_not_space _ (Forall_inv Ht)) as W.
    destruct ts; cbn [join app trimStart]; rewrite W; reflexivity. }
  unfold trim, trimEnd. rewrite S1, E, rev_app_distr.
  cbn [rev app trimStart]. rewrite (plain_not_space _ Hc).
  change (c :: rev a) with (rev [c] ++ rev a).
  rewrite <- rev_app_distr. apply rev_involutive.
Qed.

Lemma tokens_app_plain (t : jsstring) :
  Forall (fun c => plain c = true) t ->
  forall piece rest, tokens piece (t ++ rest) = tokens (rev t ++ piece) rest.
Proof.
  induction 1 as [|c t Hc _ IH]; intros piece rest; [reflexivity|].
  cbn [app tokens rev]. rewrite (plain_not_space _ Hc), IH, <- app_assoc.
  reflexivity.
Qed.

Lemma emit_rev_Word (t : jsstring) : Word t -> emit (rev t) = [t].
Proof.
  intros [Hne _]. destruct (rev t) as [|c r] eqn:E.
  - apply (f_equal (@length N)) in E. rewrite length_rev in E.
    destruct t; [congruence | discriminate].
  - cbn [emit]. rewrite <- E, rev_involutive. reflexivity.
Qed.

Lemma tokens_join (ts : list jsstring) :
  Forall Word ts -> tokens [] (join [32%N] ts) = ts.
Proof.
  induction 1 as [|t ts Ht _ IH]; [reflexivity|].
  destruct ts as [|t2 ts].
  - cbn [join]. rewrite <- (app_nil_r t) at 1.
    rewrite tokens_app_plain by apply Ht.
    cbn [tokens]. rewrite app_nil_r. apply emit_rev_Word, Ht.
  - rewrite join_cons by discriminate.
    rewrite tokens_app_plain by apply Ht.
    cbn [app tokens]. change (isWhiteSpace 32) with true. cbn iota.
    rewrite app_nil_r, IH, emit_rev_Word by exact Ht. reflexivity.
Qed.

Lemma blank_id (f : N -> bool) (s : jsstring) :
  Forall (fun c => f c = false) s -> blank f s = s.
Proof.
  induction 1 as [|c s Hc _ IH]; [reflexivity|].
  cbn [blank map]. rewrite Hc. f_equal. exact IH.
Qed.

Lemma blank_join_Word (ts : list jsstring) :
  Forall Word ts ->
  blank isDash (blank isDotUnderscore (join [32%N] ts)) = join [32%N] ts.
Proof.
  intros H. apply join_Word_chars in H.
  rewrite (blank_id isDotUnderscore), (blank_id isDash); [reflexivity| |].
  - eapply Forall_impl; [|exact H]. intros c [->|Hc]; [reflexivity|].
    apply plain_not_blanked, Hc.
  - eapply Forall_impl; [|exact H]. intros c [->|Hc]; [reflexivity|].
    apply plain_not_blanked, Hc.
Qed.

(** The result of the clean-up is a list of words joined by single
    spaces. *)
Lemma cleanUp_words (w : jsstring) :
  exists ts, Forall Word ts /\ cleanUp w = join [32%N] ts.
Proof.
  exists (tokens [] (blank isDash (blank isDotUnderscore w))).
  assert (H : Forall Word (tokens [] (blank isDash (blank isDotUnderscore w)))).
  { apply tokens_Word; [apply blanked_chars | constructor]. }
  split; [exact H|]. rewrite cleanUp_tokens. apply join_Word_trim, H.
Qed.

Lemma cleanUp_join_Word (ts : list jsstring) :
  Forall Word ts -> cleanUp (join [32%N] ts) = join [32%N] ts.
Proof.
  intros H. rewrite cleanUp_tokens, blank_join_Word, tokens_join by exact H.
  apply join_Word_trim, H.
Qed.

(** The clean-up chain is idempotent. *)
Lemma cleanUp_idempotent (w : jsstring) : cleanUp (cleanUp w) = cleanUp w.
Proof.
  destruct (cleanUp_words w) as (ts & H & ->). apply cleanUp_join_Word, H.
Qed.

(** ** Bracketed and parenthesized spans *)

Lemma reBracketed_spanRe : pattern reBracketed = spanRe 91 93.
Proof. reflexivity. Qed.

Lemma reParenthesized_spanRe : pattern reParenthesized = spanRe 40 41.
Proof. reflexivity. Qed.

Lemma chrMatch_plain (p c : N) : chrMatch false p c = true -> c = p.
Proof. unfold chrMatch, canonicalize. intros H. apply N.eqb_eq in H. auto. Qed.

Lemma clsMatch_not (c x : N) :
  clsMatch false true [(c, c)] x = true <-> x <> c.
Proof.
  unfold clsMatch, in_ranges, in_range. cbn [existsb fst snd andb].
  rewrite !orb_false_r.
  destruct (N.leb c x && N.leb x c)%bool eqn:E; cbn [xorb].
  - apply andb_true_iff in E as [E1 E2]. apply N.leb_le in E1, E2.
    split; [discriminate | intros H; exfalso; apply H; lia].
  - apply andb_false_iff in E. rewrite !N.leb_gt in E.
    split; [intros _; lia | reflexivity].
Qed.

Lemma first_occurrence (c : N) (s : jsstring) :
  In c s -> exists body rest, s = body ++ c :: rest /\ ~ In c body.
Proof.
  induction s as [|x s IH]; [intros []|]. intros H.
  destruct (N.eq_dec x c) as [->|Hx].
  - exists [], s. auto.
  - destruct H as [H|H]; [congruence|].
    destruct (IH H) as (body & rest & -> & Hb).
    exists (x :: body), rest. split; [reflexivity|].
    intros [E|E]; [congruence | auto].
Qed.

Lemma Pair_cons (o c x : N) (s : jsstring) : Pair o c s -> Pair o c (x :: s).
Proof. intros (a & b & -> & H). exists (x :: a), b. auto. Qed.

Lemma Pair_head (o c : N) (s : jsstring) : In c s -> Pair o c (o :: s).
Proof. intros H. exists [], s. auto. Qed.

Lemma Pair_app (o c : N) (t s : jsstring) : Pair o c s -> Pair o c (t ++ s).
Proof. induction t; [auto | intros H; apply Pair_cons; auto]. Qed.

Lemma Pair_inv (o c x : N) (s : jsstring) :
  Pair o c (x :: s) -> (x = o /\ In c s) \/ Pair o c s.
Proof.
  intros (a & b & E & H). destruct a as [|x0 a].
  - injection E as -> ->. auto.
  - injection E as -> ->. right. exists a, b. auto.
Qed.

Section Spans.

Variables o c : N.

Lemma spanRe_sound (x y : state) :
  In y (ms false (spanRe o c) x) ->
  exists body, after x = o :: body ++ c :: after y.
Proof.
  unfold spanRe. cbn [seq fold_right]. intros H.
  apply ms_Seq_inv in H as (z1 & H1 & H).
  apply ms_Seq_inv in H as (z2 & H2 & H).
  apply ms_Seq_inv in H as (z3 & H3 & H).
  apply ms_Eps_inv in H as ->.
  apply ms_Chr_inv in H1 as (c1 & s1 & A1 & M1 & ->).
  apply chrMatch_plain in M1 as ->.
  unfold Star in H2. apply ms_Rep_Cls_Run in H2 as (body & A2 & _).
  apply ms_Chr_inv in H3 as (c3 & s3 & A3 & M3 & ->).
  apply chrMatch_plain in M3 as ->.
  exists body. cbn [after advance] in *. rewrite A1, A2, A3. reflexivity.
Qed.

(** [[^c]*] reaches the position after any run free of [c]. *)
Lemma star_not_complete (body : jsstring) :
  forall x fuel rest,
    after x = body ++ rest -> ~ In c body -> length (after x) < fuel ->
    In (mkState (rev body ++ before x) rest (caps x))
       (repeatMatcher (ms false (Cls true [(c, c)])) fuel 0 None x).
Proof.
  induction body as [|b body IH]; intros x fuel rest E Hb Hlen;
    (destruct fuel as [|fuel]; [lia|]);
    rewrite repeatMatcher_S; cbn [Nat.eqb andb Nat.pred option_map].
  - apply in_or_app. right. left. destruct x. cbn in *. subst. reflexivity.
  - apply in_or_app. left. apply in_flat_map.
    exists (advance x b (body ++ rest)). split.
    + apply ms_Cls_intro; [exact E|].
      apply clsMatch_not. intros ->. apply Hb. left. reflexivity.
    + assert (Hne : Nat.eqb (length (after (advance x b (body ++ rest))))
                      (length (after x)) = false).
      { apply Nat.eqb_neq. rewrite E. cbn [after advance app length]. lia. }
      rewrite Hne.
      specialize (IH (advance x b (body ++ rest)) fuel rest eq_refl).
      cbn [before caps advance] in IH. cbn [rev]. rewrite <- app_assoc.
      apply IH.
      * intros H. apply Hb. right. exact H.
      * rewrite E in Hlen. cbn [after advance app length] in *. lia.
Qed.

Lemma spanRe_complete (x : state) (b : jsstring) :
  after x = o :: b -> In c b -> ms false (spanRe o c) x <> [].
Proof.
  intros E H. apply first_occurrence in H as (body & rest & -> & Hb).
  set (z1 := advance x o (body ++ c :: rest)).
  set (z2 := mkState (rev body ++ before z1) (c :: rest) (caps z1)).
  assert (G : In (advance z2 c rest) (ms false (spanRe o c) x)).
  { unfold spanRe. cbn [seq fold_right].
    apply ms_Seq_intro with (z := z1).
    { apply ms_Chr_intro; [exact E|]. unfold chrMatch. apply N.eqb_refl. }
    apply ms_Seq_intro with (z := z2).
    { unfold Star. cbn [ms]. apply star_not_complete; [reflexivity|exact Hb|].
      cbn [after advance z1]. lia. }
    apply ms_Seq_intro with (z := advance z2 c rest).
    { apply ms_Chr_intro; [reflexivity|]. unfold chrMatch. apply N.eqb_refl. }
    left. reflexivity. }
  intros F. rewrite F in G. destruct G.
Qed.

Lemma search_leftmost (ic : bool) (r : regex) (s : jsstring) :
  forall l sk y, search ic r l s = Some (sk, y) ->
  forall sk1 x sk2 rest, sk = sk1 ++ x :: sk2 -> s = sk ++ rest ->
  ms ic r (mkState (rev sk1 ++ l) (x :: sk2 ++ rest) []) = [].
Proof.
  induction s as [|x0 s IH]; intros l sk y H sk1 x sk2 rest Esk Es;
    cbn [search] in H.
  - subst sk. destruct sk1; discriminate.
  - destruct (ms ic r (mkState l (x0 :: s) [])) as [|y0 ys] eqn:E.
    + destruct (search ic r (x0 :: l) s) as [[sk0 y1]|] eqn:E0; [|discriminate].
      injection H as <- <-. destruct sk1 as [|x1 sk1].
      * cbn in Esk. injection Esk as -> ->. cbn in Es. injection Es as ->.
        exact E.
      * cbn in Esk. injection Esk as -> ->. cbn in Es. injection Es as ->.
        cbn [rev]. rewrite <- app_assoc.
        apply (IH _ _ _ E0 sk1 x sk2 rest); [reflexivity|].
        rewrite <- app_assoc. reflexivity.
    + injection H as <- <-. destruct sk1; discriminate.
Qed.

Lemma search_span_None (l : list N) (s : jsstring) :
  search false (spanRe o c) l s = None -> ~ Pair o c s.
Proof.
  intros H (a & b & E & Hc).
  pose proof (search_None false (spanRe o c) s l H a (o :: b) E) as F.
  revert F. apply spanRe_complete with (b := b); auto.
Qed.

Lemma search_span_Some (l : list N) (s sk : jsstring) (y : state) :
  search false (spanRe o c) l s = Some (sk, y) ->
  (exists body, s = sk ++ o :: body ++ c :: after y) /\ ~ In o sk.
Proof.
  intros H. pose proof H as H0.
  apply search_Some in H0 as (s' & ys & E & Hms).
  assert (Hy : In y (ms false (spanRe o c) (mkState (rev sk ++ l) s' [])))
    by (rewrite Hms; left; reflexivity).
  apply spanRe_sound in Hy as (body & Hy). cbn [after] in Hy. subst s' s.
  split; [eauto|]. intros Ho.
  apply in_split in Ho as (sk1 & sk2 & ->).
  pose proof (search_leftmost false (spanRe o c) _ l _ y H sk1 o sk2
                (o :: body ++ c :: after y) eq_refl eq_refl) as F.
  revert F. apply spanRe_complete with (b := sk2 ++ o :: body ++ c :: after y).
  - reflexivity.
  - apply in_or_app. right. right. apply in_or_app. right. left. reflexivity.
Qed.

Lemma app_space_split (sk R a b : jsstring) :
  sk ++ 32%N :: R = a ++ o :: b -> ~ In o sk -> o <> 32%N ->
  exists a', R = a' ++ o :: b.
Proof.
  revert a. induction sk as [|x sk IH]; intros a E Ho Hne.
  - destruct a as [|x a]; cbn in E.
    + injection E as E _. congruence.
    + injection E as _ ->. eauto.
  - destruct a as [|x0 a]; cbn in E.
    + injection E as -> _. exfalso. apply Ho. left. reflexivity.
    + injection E as _ E. apply (IH a E); [|exact Hne].
      intros H. apply Ho. right. exact H.
Qed.

(** After the global replacement no opening character is followed by a
    closing one. *)
Lemma replaceAllFrom_span_no_Pair (fuel : nat) :
  o <> 32%N ->
  forall l s, length s < fuel ->
  ~ Pair o c (replaceAllFrom false (spanRe o c) [32%N] fuel l s).
Proof.
  intros Hne. induction fuel as [|fuel IH]; intros l s Hlen; [lia|].
  cbn [replaceAllFrom].
  destruct (search false (spanRe o c) l s) as [[sk y]|] eqn:E.
  - apply search_span_Some in E as ((body & ->) & Ho).
    rewrite !length_app in *. cbn [length] in *. rewrite length_app in *.
    cbn [length] in *.
    assert (Hlt : Nat.ltb (length (after y))
                    (length sk + S (length body + S (length (after y)))
                     - length sk) = true) by (apply Nat.ltb_lt; lia).
    rewrite Hlt. intros (a & b & E0 & Hc). cbn [app] in E0.
    apply app_space_split in E0 as (a' & E0); auto.
    apply (IH (before y) (after y)); [lia|]. exists a', b. auto.
  - apply (search_span_None _ _ E).
Qed.

Lemma replaceAll_span_no_Pair (s : jsstring) :
  o <> 32%N -> ~ Pair o c (replaceAll false (spanRe o c) [32%N] s).
Proof. intros H. apply replaceAllFrom_span_no_Pair; [exact H | lia]. Qed.

(** Without such a pair the global replacement changes nothing. *)
Lemma replaceAll_span_id (s : jsstring) :
  ~ Pair o c s -> replaceAll false (spanRe o c) [32%N] s = s.
Proof.
  intros H. unfold replaceAll. cbn [replaceAllFrom].
  destruct (search false (spanRe o c) [] s) as [[sk y]|] eqn:E; [|reflexivity].
  exfalso. apply H. apply search_span_Some in E as ((body & ->) & _).
  apply Pair_app, Pair_head. apply in_or_app. right. left. reflexivity.
Qed.

End Spans.

(** ** What the replacements preserve *)

Lemma Thinned_refl (s : jsstring) : Thinned s s.
Proof. induction s; constructor; assumption. Qed.

Lemma Thinned_app_keep (sk out s : jsstring) :
  Thinned out s -> Thinned (sk ++ out) (sk ++ s).
Proof. intros H. induction sk; [exact H | constructor; assumption]. Qed.

Lemma Thinned_app_drop (t out s : jsstring) :
  Thinned out s -> Thinned out (t ++ s).
Proof. intros H. induction t; [exact H | constructor; assumption]. Qed.

Lemma Thinned_In (out s : jsstring) :
  Thinned out s -> forall x, x <> 32%N -> In x out -> In x s.
Proof.
  induction 1 as [|x0 out s _ IH|out s _ IH|x0 out s _ IH]; intros x Hx H.
  - destruct H.
  - destruct H as [->|H]; [left; reflexivity | right; auto].
  - destruct H as [<-|H]; [congruence | auto].
  - right. auto.
Qed.

Lemma Thinned_Pair (o c : N) (out s : jsstring) :
  Thinned out s -> o <> 32%N -> c <> 32%N -> Pair o c out -> Pair o c s.
Proof.
  intros T Ho Hc.
  induction T as [|x0 out s T IH|out s T IH|x0 out s T IH]; intros H.
  - destruct H as (a & b & E & _). destruct a; discriminate.
  - apply Pair_inv in H as [[-> H]|H].
    + apply Pair_head. eapply Thinned_In; eauto.
    + apply Pair_cons. auto.
  - apply Pair_inv in H as [[E _]|H]; [congruence | auto].
  - apply Pair_cons. auto.
Qed.

Lemma replaceAllFrom_Thinned (ic : bool) (r : regex) (fuel : nat) :
  forall l s, Thinned (replaceAllFrom ic r [32%N] fuel l s) s.
Proof.
  induction fuel as [|fuel IH]; intros l s; [apply Thinned_refl|].
  cbn [replaceAllFrom].
  destruct (search ic r l s) as [[sk y]|] eqn:E; [|apply Thinned_refl].
  apply search_Some in E as (s' & ys & -> & Hms).
  assert (Hy : In y (ms ic r (mkState (rev sk ++ l) s' [])))
    by (rewrite Hms; left; reflexivity).
  apply ms_Frame in Hy as (t & A & _). cbn [after] in A. subst s'.
  destruct (Nat.ltb _ _).
  - apply Thinned_app_keep. cbn [app]. apply Thinned_space, Thinned_app_drop, IH.
  - destruct (after y) as [|c0 s0].
    + apply Thinned_app_keep, Thinned_space, Thinned_app_drop. constructor.
    + apply Thinned_app_keep. cbn [app].
      apply Thinned_space, Thinned_app_drop, Thinned_keep, IH.
Qed.

Lemma blank_Thinned (f : N -> bool) (s : jsstring) : Thinned (blank f s) s.
Proof.
  induction s as [|c s IH]; [constructor|]. cbn [blank map].
  destruct (f c).
  - apply Thinned_space, Thinned_drop, IH.
  - apply Thinned_keep, IH.
Qed.

Lemma join_emit_Thinned (piece : list N) (ts : list jsstring) (s : jsstring) :
  Thinned (join [32%N] ts) s ->
  Thinned (join [32%N] (emit piece ++ ts)) (rev piece ++ s).
Proof.
  intros H. destruct piece as [|c piece]; [exact H|].
  cbn [emit app]. destruct ts as [|t ts].
  - cbn [join]. rewrite <- (app_nil_r (rev (c :: piece))) at 1.
    apply Thinned_app_keep, H.
  - rewrite join_cons by discriminate.
    apply Thinned_app_keep. cbn [app]. apply Thinned_space, H.
Qed.

Lemma join_tokens_Thinned (s : jsstring) :
  forall piece, Thinned (join [32%N] (tokens piece s)) (rev piece ++ s).
Proof.
  induction s as [|c s IH]; intros piece; cbn [tokens].
  - rewrite <- (app_nil_r (emit piece)). apply join_emit_Thinned. constructor.
  - destruct (isWhiteSpace c).
    + apply join_emit_Thinned, Thinned_drop. apply (IH []).
    + specialize (IH (c :: piece)). cbn [rev] in IH.
      rewrite <- app_assoc in IH. exact IH.
Qed.

Lemma cleanUp_Pair (o c : N) (w : jsstring) :
  o <> 32%N -> c <> 32%N -> Pair o c (cleanUp w) -> Pair o c w.
Proof.
  intros Ho Hc H.
  assert (E : cleanUp w
              = join [32%N] (tokens [] (blank isDash (blank isDotUnderscore w)))).
  { rewrite cleanUp_tokens. apply join_Word_trim, tokens_Word;
      [apply blanked_chars | constructor]. }
  rewrite E in H.
  apply (Thinned_Pair o c _ _ (join_tokens_Thinned _ [])) in H; auto.
  cbn [rev app] in H.
  apply (Thinned_Pair o c _ _ (blank_Thinned _ _)) in H; auto.
  apply (Thinned_Pair o c _ _ (blank_Thinned _ _)) in H; auto.
Qed.

(** ** Titles *)

(** A title is a clean-up result, not empty, with no bracket or parenthesis
    that a later closing one answers. *)
Lemma extractTitle_shape (s : jsstring) (g e : option jsstring) (t : jsstring) :
  extractTitle s g e = Some t ->
  t <> []
  /\ (exists ts, Forall Word ts /\ t = join [32%N] ts)
  /\ ~ Pair 91 93 t /\ ~ Pair 40 41 t.
Proof.
  unfold extractTitle.
  set (w := re_replace reYear _ _).
  destruct (cleanUp _) as [|c0 t0] eqn:E; [discriminate|].
  intros [= <-]. rewrite <- E. split; [rewrite E; discriminate|].
  split; [apply cleanUp_words|]. change (lit " ") with [32%N].
  unfold re_replaceAll. cbn [flagI]. split; intros H.
  - apply cleanUp_Pair in H; try discriminate.
    apply (Thinned_Pair 91 93 _ _ (replaceAllFrom_Thinned _ _ _ _ _)) in H;
      try discriminate.
    revert H. rewrite reBracketed_spanRe.
    apply replaceAll_span_no_Pair. discriminate.
  - apply cleanUp_Pair in H; try discriminate.
    revert H. rewrite reParenthesized_spanRe.
    apply replaceAll_span_no_Pair. discriminate.
Qed.

Lemma reGroup_Pair (t sk : jsstring) (m : state) :
  re_exec reGroup t = Some (sk, m) -> Pair 91 93 t.
Proof.
  intros H. apply re_exec_Some in H as (s' & -> & H).
  cbn [pattern flagI reGroup seq fold_right] in H.
  apply ms_Seq_inv in H as (z1 & H1 & H).
  apply ms_Seq_inv in H as (z2 & H2 & H).
  apply ms_Seq_inv in H as (z3 & H3 & H).
  apply ms_Seq_inv in H as (z4 & H4 & H).
  apply ms_Bol_inv in H1 as (_ & ->).
  apply ms_Chr_inv in H2 as (c2 & s2 & A2 & M2 & ->).
  apply chrMatch_plain in M2 as ->.
  apply ms_Frame in H3 as (b & A3 & _).
  apply ms_Chr_inv in H4 as (c4 & s4 & A4 & M4 & ->).
  apply chrMatch_plain in M4 as ->.
  cbn [after advance] in *. subst s'. rewrite A3, A4.
  apply Pair_app, Pair_head. apply in_or_app. right. left. reflexivity.
Qed.

Lemma reYear_Pair (t sk : jsstring) (m : state) :
  re_exec reYear t = Some (sk, m) -> Pair 40 41 t.
Proof.
  intros H. apply re_exec_Some in H as (s' & -> & H).
  cbn [pattern flagI reYear seq fold_right] in H.
  apply ms_Seq_inv in H as (z1 & H1 & H).
  apply ms_Seq_inv in H as (z2 & H2 & H).
  apply ms_Seq_inv in H as (z3 & H3 & H).
  apply ms_Chr_inv in H1 as (c1 & s1 & A1 & M1 & ->).
  apply chrMatch_plain in M1 as ->.
  apply ms_Frame in H2 as (b & A2 & _).
  apply ms_Chr_inv in H3 as (c3 & s3 & A3 & M3 & ->).
  apply chrMatch_plain in M3 as ->.
  cbn [after advance] in *. subst s'. rewrite A2, A3.
  apply Pair_app, Pair_head. apply in_or_app. right. left. reflexivity.
Qed.

Lemma reExtension_dot (t sk : jsstring) (m : state) :
  re_exec reExtension t = Some (sk, m) -> In 46%N t.
Proof.
  intros H. apply re_exec_Some in H as (s' & -> & H).
  cbn [pattern flagI reExtension seq fold_right] in H.
  apply ms_Seq_inv in H as (z1 & H1 & H).
  apply ms_Chr_inv in H1 as (c1 & s1 & A1 & M1 & ->).
  apply chrMatch_plain in M1 as ->.
  cbn [after] in A1. subst s'. apply in_or_app. right. left. reflexivity.
Qed.

Lemma re_replace_None (re : RegExp) (rep s : jsstring) :
  re_exec re s = None -> re_replace re rep s = s.
Proof.
  unfold re_exec, re_replace, replace. intros ->. reflexivity.
Qed.

Lemma title_resultOf (t : jsstring) :
  title (resultOf t) = extractTitle t (extractGroup t) (extractExtension t).
Proof. reflexivity. Qed.

Lemma renormalize_resultOf (t : jsstring) : renormalize t = title (resultOf t).
Proof. unfold renormalize. symmetry. apply title_resultOf. Qed.

(** Re-normalizing a list of words joined by spaces returns it, as soon as
    no episode or season pattern matches it and no bracket or parenthesis
    is answered. *)
Lemma renormalize_words (ts : list jsstring) :
  let t := join [32%N] ts in
  Forall Word ts -> t <> [] ->
  ~ Pair 91 93 t -> ~ Pair 40 41 t ->
  re_exec reEpisodeV t = None ->
  re_exec reEpisodeRange t = None ->
  re_exec reEpisode t = None ->
  re_exec reSeason t = None ->
  renormalize t = Some t.
Proof.
  intros t Hts Hne Hb Hp HV HR H1 HS.
  assert (G : extractGroup t = None).
  { unfold extractGroup. destruct (re_exec reGroup t) as [[sk m]|] eqn:E;
      [|reflexivity]. exfalso. apply Hb. eapply reGroup_Pair, E. }
  assert (X : extractExtension t = None).
  { unfold extractExtension.
    destruct (re_exec reExtension t) as [[sk m]|] eqn:E; [|reflexivity].
    exfalso. apply reExtension_dot in E.
    pose proof (join_Word_chars _ Hts) as F.
    rewrite Forall_forall in F. destruct (F _ E); discriminate. }
  assert (Y : re_exec reYear t = None).
  { destruct (re_exec reYear t) as [[sk m]|] eqn:E; [|reflexivity].
    exfalso. apply Hp. eapply reYear_Pair, E. }
  rewrite renormalize_resultOf, title_resultOf, G, X. unfold extractTitle.
  cbn [truthyStr]. change (lit " ") with [32%N].
  rewrite (re_replace_None reEpisodeV _ t HV).
  rewrite (re_replace_None reEpisodeRange _ t HR).
  rewrite (re_replace_None reEpisode _ t H1).
  rewrite (re_replace_None reSeason _ t HS).
  rewrite (re_replace_None reYear _ t Y).
  change (re_replaceAll reBracketed [32%N] t)
    with (replaceAll false (spanRe 91 93) [32%N] t).
  rewrite (replaceAll_span_id 91 93 t Hb).
  change (re_replaceAll reParenthesized [32%N] t)
    with (replaceAll false (spanRe 40 41) [32%N] t).
  rewrite (replaceAll_span_id 40 41 t Hp).
  unfold t in *. rewrite cleanUp_join_Word by exact Hts.
  destruct (join [32%N] ts); [congruence | reflexivity].
Qed.

Lemma parse_resultOf (t : jsstring) :
  trim t = t -> t <> [] -> HeuristicParser.parse t = inr (resultOf t).
Proof.
  intros T Hne. unfold HeuristicParser.parse, JsHeuristicParser.parse.
  rewrite T. destruct t; [congruence|]. unfold resultOf. reflexivity.
Qed.

Lemma parse_title_shape (s : jsstring) (r : ParseResult) (t : jsstring) :
  HeuristicParser.parse s = inr r ->
  title r = Some t ->
  t <> []
  /\ (exists ts, Forall Word ts /\ t = join [32%N] ts)
  /\ ~ Pair 91 93 t /\ ~ Pair 40 41 t.
Proof.
  intros H Ht. apply parse_inr_inv in H as [_ ->].
  rewrite title_resultOf in Ht.
  exact (extractTitle_shape _ _ _ _ Ht).
Qed.

(** C5 (amended): the clean-up step leaves every title unchanged, and the
    whole title pass returns a title [t] unchanged (fed back on its own, or
    through [parse]) provided none of the versioned, range, single-episode
    and season patterns matches [t]. *)
Theorem title_renormalize_fixed (s : jsstring) (r : ParseResult) (t : jsstring) :
  HeuristicParser.parse s = inr r ->
  title r = Some t ->
  cleanUp t = t
  /\ (re_exec reEpisodeV t = None ->
      re_exec reEpisodeRange t = None ->
      re_exec reEpisode t = None ->
      re_exec reSeason t = None ->
      renormalize t = Some t
      /\ exists r', HeuristicParser.parse t = inr r' /\ title r' = Some t).
Proof.
  intros H Ht.
  destruct (parse_title_shape s r t H Ht) as (Hne & (ts & Hts & E) & Hb & Hp).
  subst t.
  split; [apply cleanUp_join_Word, Hts|].
  intros HV HR H1 HS.
  assert (R : renormalize (join [32%N] ts) = Some (join [32%N] ts)).
  { exact (renormalize_words ts Hts Hne Hb Hp HV HR H1 HS). }
  split; [exact R|].
  exists (resultOf (join [32%N] ts)). split.
  - apply parse_resultOf; [apply join_Word_trim, Hts | exact Hne].
  - rewrite <- renormalize_resultOf. exact R.
Qed.

Lemma title_renormalize_fixed_witness :
  cleanUp (lit "Jujutsu Kaisen") = lit "Jujutsu Kaisen"
  /\ renormalize (lit "Jujutsu Kaisen") = Some (lit "Jujutsu Kaisen").
Proof.
  destruct (title_renormalize_fixed
              (lit "[SubsPlease] Jujutsu Kaisen - 24 (1080p) [A1B2C3D4].mkv")
              (resultOf (lit "[SubsPlease] Jujutsu Kaisen - 24 (1080p) [A1B2C3D4].mkv"))
              (lit "Jujutsu Kaisen")) as [H1 H2].
  - vm_compute. reflexivity.
  - vm_compute. reflexivity.
  - split; [exact H1|]. apply H2; vm_compute; reflexivity.
Defined.

(** C5 (as stated) fails: "A 1 2" gives the title "A 2", and normalizing
    "A 2" again gives "A": every pass removes one more number. *)
Lemma title_not_idempotent_counterexample :
  exists r r',
    HeuristicParser.parse (lit "A 1 2") = inr r
    /\ title r = Some (lit "A 2")
    /\ renormalize (lit "A 2") = Some (lit "A")
    /\ HeuristicParser.parse (lit "A 2") = inr r'
    /\ title r' = Some (lit "A")
    /\ title r' <> title r.
Proof.
  eexists. eexists. split; [vm_compute; reflexivity|].
  split; [reflexivity|]. split; [vm_compute; reflexivity|].
  split; [vm_compute; reflexivity|]. split; [reflexivity|].
  cbn. discriminate.
Qed.

(** * Further properties of the extractors *)

Lemma state_eta (x : state) : mkState (before x) (after x) (caps x) = x.
Proof. destruct x. reflexivity. Qed.

(** A run of exactly [k] characters of the class is among the results of
    [{k}]. *)
Lemma exact_cls_complete (ic inv : bool) (rs : list (N * N)) (t : jsstring) :
  Forall (fun c => clsMatch ic inv rs c = true) t ->
  forall x fuel rest,
    after x = t ++ rest -> length t < fuel ->
    In (mkState (rev t ++ before x) rest (caps x))
       (repeatMatcher (ms ic (Cls inv rs)) fuel (length t) (Some (length t)) x).
Proof.
  induction 1 as [|b t Hb _ IH]; intros x fuel rest E Hlen;
    (destruct fuel as [|fuel]; [cbn in Hlen; lia|]); rewrite repeatMatcher_S.
  - cbn [length]. left. cbn in E. rewrite <- E. symmetry. apply state_eta.
  - cbn [length Nat.eqb andb Nat.pred option_map]. cbn zeta.
    apply in_flat_map. exists (advance x b (t ++ rest)). split.
    + apply ms_Cls_intro; assumption.
    + specialize (IH (advance x b (t ++ rest)) fuel rest eq_refl).
      cbn [before caps advance] in IH. cbn [rev]. rewrite <- app_assoc.
      apply IH. cbn [length] in Hlen. lia.
Qed.

(** A run of characters of the class is among the results of [*], and a
    non-empty one among those of [+]. *)
Lemma star_cls_complete (ic inv : bool) (rs : list (N * N)) (t : jsstring) :
  Forall (fun c => clsMatch ic inv rs c = true) t ->
  forall x fuel rest,
    after x = t ++ rest -> length (after x) < fuel ->
    In (mkState (rev t ++ before x) rest (caps x))
       (repeatMatcher (ms ic (Cls inv rs)) fuel 0 None x).
Proof.
  induction 1 as [|b t Hb _ IH]; intros x fuel rest E Hlen;
    (destruct fuel as [|fuel]; [lia|]);
    rewrite repeatMatcher_S; cbn [Nat.eqb andb Nat.pred option_map].
  - apply in_or_app. right. left. cbn in E. rewrite <- E. symmetry.
    apply state_eta.
  - apply in_or_app. left. apply in_flat_map.
    exists (advance x b (t ++ rest)). split.
    + apply ms_Cls_intro; assumption.
    + assert (Hne : Nat.eqb (length (after (advance x b (t ++ rest))))
                      (length (after x)) = false).
      { apply Nat.eqb_neq. rewrite E. cbn [after advance app length]. lia. }
      rewrite Hne.
      specialize (IH (advance x b (t ++ rest)) fuel rest eq_refl).
      cbn [before caps advance] in IH. cbn [rev]. rewrite <- app_assoc.
      apply IH. rewrite E in Hlen. cbn [after advance app length] in *. lia.
Qed.

Lemma plus_cls_complete (ic inv : bool) (rs : list (N * N)) (t : jsstring)
    (x : state) (rest : jsstring) :
  t <> [] ->
  Forall (fun c => clsMatch ic inv rs c = true) t ->
  after x = t ++ rest ->
  In (mkState (rev t ++ before x) rest (caps x))
     (ms ic (Plus (Cls inv rs)) x).
Proof.
  intros Hne Ht E. destruct t as [|b t]; [congruence|].
  unfold Plus. cbn [ms].
  replace (1 + length (after x) + 1) with (S (S (length (after x)))) by lia.
  rewrite repeatMatcher_S. cbn [Nat.eqb andb Nat.pred option_map]. cbn zeta.
  apply in_flat_map. exists (advance x b (t ++ rest)). split.
  - apply ms_Cls_intro; [exact E | apply (Forall_inv Ht)].
  - pose proof (star_cls_complete ic inv rs t (Forall_inv_tail Ht)
                  (advance x b (t ++ rest)) (S (length (after x))) rest eq_refl)
      as S.
    cbn [before caps advance after] in S. cbn [rev]. rewrite <- app_assoc.
    apply S. rewrite E. cbn [app length]. lia.
Qed.

Lemma ms_Grp_intro (ic : bool) (i : nat) (a : regex) (x z : state) :
  In z (ms ic a x) -> In (capture i x z) (ms ic (Grp i a) x).
Proof. intros H. cbn [ms]. apply in_map. exact H. Qed.

(** ** The first match *)

Lemma search_intro (ic : bool) (r : regex) (sk : jsstring) :
  forall l s' y ys,
    ms ic r (mkState (rev sk ++ l) s' []) = y :: ys ->
    (forall sk1 x sk2, sk = sk1 ++ x :: sk2 ->
       ms ic r (mkState (rev sk1 ++ l) (x :: sk2 ++ s') []) = []) ->
    search ic r l (sk ++ s') = Some (sk, y).
Proof.
  induction sk as [|c sk IH]; intros l s' y ys Hy Hno.
  - cbn [rev app] in *. destruct s'; cbn [search]; rewrite Hy; reflexivity.
  - cbn [app search].
    pose proof (Hno [] c sk eq_refl) as H0. cbn [rev app] in H0. rewrite H0.
    rewrite (IH (c :: l) s' y ys).
    + reflexivity.
    + cbn [rev] in Hy. rewrite <- app_assoc in Hy. exact Hy.
    + intros sk1 x sk2 ->.
      specialize (Hno (c :: sk1) x sk2 eq_refl).
      cbn [rev] in Hno. rewrite <- app_assoc in Hno. exact Hno.
Qed.

Lemma search_exists (ic : bool) (r : regex) (l : list N) (sk s' : jsstring) :
  ms ic r (mkState (rev sk ++ l) s' []) <> [] ->
  search ic r l (sk ++ s') <> None.
Proof.
  intros H E. apply H. eapply search_None; eauto.
Qed.

Lemma app_eq_length (a a' b b' : jsstring) :
  length a = length a' -> a ++ b = a' ++ b' -> a = a' /\ b = b'.
Proof.
  revert a'. induction a as [|x a IH]; intros [|x' a'] L E;
    try discriminate; cbn in *.
  - auto.
  - injection E as -> E. injection L as L.
    destruct (IH a' L E) as [-> ->]. auto.
Qed.

(** ** Bracketed tokens of fixed length: checksum and year *)

Section Fixed.

Variables (o c : N) (k : nat) (rs : list (N * N)).

Lemma fixedRe_sound (x y : state) :
  In y (ms false (fixedRe o k rs c) x) ->
  exists raw, FixedAt o k rs c (after x) raw
              /\ after x = o :: raw ++ c :: after y
              /\ caps y = (1, raw) :: caps x.
Proof.
  unfold fixedRe. cbn [seq fold_right]. intros H.
  apply ms_Seq_inv in H as (z1 & H1 & H).
  apply ms_Seq_inv in H as (z2 & H2 & H).
  apply ms_Seq_inv in H as (z3 & H3 & H).
  apply ms_Eps_inv in H as ->.
  apply ms_Chr_inv in H1 as (c1 & s1 & A1 & M1 & ->).
  apply chrMatch_plain in M1 as ->.
  apply ms_Grp_inv in H2 as (w & H2 & ->).
  cbn [ms] in H2. apply repeatMatcher_exact, Iter_Cls in H2
    as (raw & L & A2 & _ & C2 & F2).
  apply ms_Chr_inv in H3 as (c3 & s3 & A3 & M3 & ->).
  apply chrMatch_plain in M3 as ->.
  cbn [after advance capture caps] in *.
  assert (E : after x = o :: raw ++ c :: s3) by (rewrite A1, A2, A3; reflexivity).
  exists raw. rewrite (Frame_consumed (advance x o s1) w raw A2), C2.
  cbn [caps advance].
  repeat split; [|exact E].
  exists s3. repeat split; [exact E | exact L |].
  eapply Forall_impl; [|exact F2]. intros a Ha. cbn beta in *.
  rewrite clsMatch_plain in Ha. exact Ha.
Qed.

Lemma fixedRe_complete (x : state) (raw : jsstring) :
  FixedAt o k rs c (after x) raw -> ms false (fixedRe o k rs c) x <> [].
Proof.
  intros (q & E & L & F).
  set (z1 := advance x o (raw ++ c :: q)).
  set (z2 := mkState (rev raw ++ before z1) (c :: q) (caps z1)).
  assert (G : In (advance (capture 1 z1 z2) c q) (ms false (fixedRe o k rs c) x)).
  { unfold fixedRe. cbn [seq fold_right].
    apply ms_Seq_intro with (z := z1).
    { apply ms_Chr_intro; [exact E|]. unfold chrMatch. apply N.eqb_refl. }
    apply ms_Seq_intro with (z := capture 1 z1 z2).
    { apply ms_Grp_intro. cbn [ms]. subst k.
      apply exact_cls_complete; [|reflexivity|].
      - eapply Forall_impl; [|exact F]. intros a Ha. cbn beta in *.
        rewrite clsMatch_plain. exact Ha.
      - cbn [after advance z1]. rewrite length_app. lia. }
    apply ms_Seq_intro with (z := advance (capture 1 z1 z2) c q).
    { apply ms_Chr_intro; [reflexivity|]. unfold chrMatch. apply N.eqb_refl. }
    left. reflexivity. }
  intros N0. rewrite N0 in G. destruct G.
Qed.

Lemma FixedAt_unique (u raw raw' : jsstring) :
  FixedAt o k rs c u raw -> FixedAt o k rs c u raw' -> raw = raw'.
Proof.
  intros (q & E & L & _) (q' & E' & L' & _). rewrite E in E'.
  injection E' as E'. apply app_eq_length in E' as [E' _]; congruence.
Qed.

(** [exec] finds the first token, and group 1 is its interior. *)
Lemma exec_fixed_Some (s sk : jsstring) (m : state) :
  exec false (fixedRe o k rs c) s = Some (sk, m) ->
  FirstFixed o k rs c s (captured 1 m).
Proof.
  intros H. unfold exec in H. pose proof H as H0.
  apply search_Some in H0 as (s' & ys & -> & Hms).
  rewrite app_nil_r in Hms.
  assert (Hy : In m (ms false (fixedRe o k rs c) (mkState (rev sk) s' [])))
    by (rewrite Hms; left; reflexivity).
  apply fixedRe_sound in Hy as (raw & Hat & _ & C). cbn [after caps] in *.
  assert (G : captured 1 m = raw) by (unfold captured; rewrite C; reflexivity).
  rewrite G. exists sk, s'. repeat split; [exact Hat|].
  intros p1 x p2 raw' -> Hat'.
  pose proof (search_leftmost false (fixedRe o k rs c) _ [] _ m H p1 x p2 s'
                eq_refl eq_refl) as F.
  revert F. apply fixedRe_complete with (raw := raw'). cbn [after]. exact Hat'.
Qed.

Lemma exec_fixed_first (s raw : jsstring) :
  FirstFixed o k rs c s raw ->
  exists sk m, exec false (fixedRe o k rs c) s = Some (sk, m)
               /\ captured 1 m = raw.
Proof.
  intros (pre & u & -> & Hat & Hfirst).
  destruct (ms false (fixedRe o k rs c) (mkState (rev pre ++ []) u []))
    as [|y ys] eqn:E.
  - exfalso. revert E. apply fixedRe_complete with (raw := raw). exact Hat.
  - exists pre, y. split.
    + unfold exec. apply search_intro with (ys := ys); [exact E|].
      intros sk1 x sk2 ->.
      destruct (ms false (fixedRe o k rs c)
                  (mkState (rev sk1 ++ []) (x :: sk2 ++ u) [])) as [|y0 ys0] eqn:E0;
        [reflexivity|].
      exfalso.
      assert (Hy0 : In y0 (ms false (fixedRe o k rs c)
                           (mkState (rev sk1 ++ []) (x :: sk2 ++ u) [])))
        by (rewrite E0; left; reflexivity).
      apply fixedRe_sound in Hy0 as (raw' & Hat' & _).
      apply (Hfirst sk1 x sk2 raw' eq_refl Hat').
    + assert (Hy : In y (ms false (fixedRe o k rs c) (mkState (rev pre ++ []) u [])))
        by (rewrite E; left; reflexivity).
      apply fixedRe_sound in Hy as (raw' & Hat' & _ & C). cbn [after caps] in *.
      unfold captured. rewrite C. cbn.
      apply (FixedAt_unique u); assumption.
Qed.

Lemma exec_fixed_None (s : jsstring) :
  exec false (fixedRe o k rs c) s = None <->
  forall pre u raw, s = pre ++ u -> ~ FixedAt o k rs c u raw.
Proof.
  split.
  - intros H pre u raw E Hat.
    pose proof (search_None false (fixedRe o k rs c) s [] H pre u E) as F.
    revert F. apply fixedRe_complete with (raw := raw). exact Hat.
  - intros H. destruct (exec false (fixedRe o k rs c) s) as [[sk m]|] eqn:E;
      [|reflexivity].
    apply exec_fixed_Some in E as (pre & u & E & Hat & _).
    exfalso. eapply H; eauto.
Qed.

End Fixed.

Lemma re_exec_reCrc32 (s : jsstring) :
  re_exec reCrc32 s = exec false (fixedRe (ch "[") 8 hexDigit (ch "]")) s.
Proof. reflexivity. Qed.

Lemma re_exec_reYear (s : jsstring) :
  re_exec reYear s = exec false (fixedRe (ch "(") 4 digit (ch ")")) s.
Proof. reflexivity. Qed.

Lemma upper_hexDigit (x : N) :
  in_ranges x hexDigit = true -> in_ranges (upper x) upperHexDigit = true.
Proof. unfold hexDigit, upperHexDigit. intros H. char_lia. Qed.

(** X1: [extractCrc32] returns the upper-cased interior of the first
    bracketed token of exactly eight hexadecimal digits, and null exactly
    when the input holds no such token; the checksum it returns has eight
    characters, all of them among 0-9 and A-F. *)
Theorem extractCrc32_first_token (s : jsstring) :
  (forall c, extractCrc32 s = Some c <->
             exists raw, FirstFixed (ch "[") 8 hexDigit (ch "]") s raw
                         /\ c = toUpperCase raw)
  /\ (extractCrc32 s = None <->
      forall pre u raw, s = pre ++ u ->
                        ~ FixedAt (ch "[") 8 hexDigit (ch "]") u raw)
  /\ (forall c, extractCrc32 s = Some c ->
                length c = 8
                /\ Forall (fun x => in_ranges x upperHexDigit = true) c).
Proof.
  assert (A : forall c, extractCrc32 s = Some c <->
             exists raw, FirstFixed (ch "[") 8 hexDigit (ch "]") s raw
                         /\ c = toUpperCase raw).
  { intros c. unfold extractCrc32. rewrite re_exec_reCrc32. split.
    - destruct (exec false _ s) as [[sk m]|] eqn:E; [|discriminate].
      intros [= <-]. apply exec_fixed_Some in E. eauto.
    - intros (raw & H & ->).
      apply exec_fixed_first in H as (sk & m & -> & ->). reflexivity. }
  split; [exact A|]. split.
  - unfold extractCrc32. rewrite re_exec_reCrc32, <- exec_fixed_None.
    destruct (exec false _ s) as [[sk m]|]; split; congruence.
  - intros c H. apply A in H as (raw & (pre & u & _ & (q & _ & L & F) & _) & ->).
    unfold toUpperCase. rewrite length_map. split; [exact L|].
    apply Forall_map. eapply Forall_impl; [|exact F].
    intros x. apply upper_hexDigit.
Qed.

Lemma extractCrc32_first_token_witness :
  (length (lit "DEADBEEF") = 8
   /\ Forall (fun x => in_ranges x upperHexDigit = true) (lit "DEADBEEF"))
  /\ exists raw,
       FirstFixed (ch "[") 8 hexDigit (ch "]")
                  (lit "[G] Show [deadbeef] [A1B2C3D4]") raw
       /\ lit "DEADBEEF" = toUpperCase raw.
Proof.
  split.
  - apply (proj2 (proj2 (extractCrc32_first_token
                           (lit "[G] Show [deadbeef] [A1B2C3D4]")))
                 (lit "DEADBEEF")).
    vm_compute. reflexivity.
  - apply (proj1 (proj1 (extractCrc32_first_token
                           (lit "[G] Show [deadbeef] [A1B2C3D4]"))
                        (lit "DEADBEEF"))).
    vm_compute. reflexivity.
Defined.

(** X2: [extractYear] returns the value of the first parenthesized token of
    exactly four digits, and null exactly when the input holds no such
    token; the year is an integer between 0 and 9999. *)
Theorem extractYear_first_token (s : jsstring) :
  (forall n, extractYear s = Some n <->
             exists raw, FirstFixed (ch "(") 4 digit (ch ")") s raw
                         /\ n = Int (decimalValue raw))
  /\ (extractYear s = None <->
      forall pre u raw, s = pre ++ u ->
                        ~ FixedAt (ch "(") 4 digit (ch ")") u raw)
  /\ (forall n, extractYear s = Some n -> intBetween 0 9999 n).
Proof.
  assert (P : forall raw pre, FirstFixed (ch "(") 4 digit (ch ")") pre raw ->
                Digits raw /\ length raw = 4).
  { intros raw pre (p & u & _ & (q & _ & L & F) & _). split; [|exact L].
    split; [destruct raw; [discriminate | discriminate] | exact F]. }
  assert (A : forall n, extractYear s = Some n <->
             exists raw, FirstFixed (ch "(") 4 digit (ch ")") s raw
                         /\ n = Int (decimalValue raw)).
  { intros n. unfold extractYear. rewrite re_exec_reYear. split.
    - destruct (exec false _ s) as [[sk m]|] eqn:E; [|discriminate].
      intros [= <-]. apply exec_fixed_Some in E.
      exists (captured 1 m). split; [exact E|].
      destruct (P _ _ E) as [D L]. apply (parseInt_exact _ D). lia.
    - intros (raw & H & ->). pose proof (P _ _ H) as [D L].
      apply exec_fixed_first in H as (sk & m & -> & ->).
      rewrite (parseInt_exact _ D) by lia. reflexivity. }
  split; [exact A|]. split.
  - unfold extractYear. rewrite re_exec_reYear, <- exec_fixed_None.
    destruct (exec false _ s) as [[sk m]|]; split; congruence.
  - intros n H. apply A in H as (raw & H & ->).
    destruct (P _ _ H) as [[_ F] L]. cbn.
    pose proof (decimalValue_nonneg raw).
    pose proof (decimalValue_bound raw F) as B. rewrite L in B.
    change (10 ^ Z.of_nat 4)%Z with 10000%Z in B. lia.
Qed.

Lemma extractYear_first_token_witness :
  intBetween 0 9999 (Int 2024)
  /\ extractYear (lit "Title 2024 [1080p]") = None.
Proof.
  split.
  - apply (proj2 (proj2 (extractYear_first_token
                           (lit "[Group] Title (2024) - 01 (1080p).mkv"))) (Int 2024)).
    vm_compute. reflexivity.
  - apply (proj1 (proj2 (extractYear_first_token (lit "Title 2024 [1080p]")))).
    intros pre u raw E (q & E' & _). subst u.
    assert (H : In (ch "(") (lit "Title 2024 [1080p]")).
    { rewrite E. apply in_or_app. right. left. reflexivity. }
    vm_compute in H. repeat destruct H as [H|H]; try discriminate. destruct H.
Defined.

(** ** The leading group tag *)

Lemma split_unique (c : N) (a a' b b' : jsstring) :
  ~ In c a -> ~ In c a' -> a ++ c :: b = a' ++ c :: b' -> a = a' /\ b = b'.
Proof.
  revert a'. induction a as [|x a IH]; intros [|x' a'] Ha Ha' E; cbn in *.
  - injection E as E. subst. auto.
  - injection E as E1 E2. subst. exfalso. apply Ha'. left. reflexivity.
  - injection E as E1 E2. subst. exfalso. apply Ha. left. reflexivity.
  - injection E as E1 E2. subst x'.
    destruct (IH a') as [-> ->]; auto.
Qed.

Lemma reGroup_sound (x y : state) :
  In y (ms false (pattern reGroup) x) ->
  before x = []
  /\ exists body, after x = ch "[" :: body ++ ch "]" :: after y
                  /\ body <> [] /\ ~ In (ch "]") body
                  /\ caps y = (1, body) :: caps x.
Proof.
  cbn [pattern reGroup seq fold_right]. intros H.
  apply ms_Seq_inv in H as (z1 & H1 & H).
  apply ms_Seq_inv in H as (z2 & H2 & H).
  apply ms_Seq_inv in H as (z3 & H3 & H).
  apply ms_Seq_inv in H as (z4 & H4 & H).
  apply ms_Eps_inv in H as ->.
  apply ms_Bol_inv in H1 as (B & ->).
  apply ms_Chr_inv in H2 as (c2 & s2 & A2 & M2 & ->).
  apply chrMatch_plain in M2 as ->.
  apply ms_Grp_inv in H3 as (w & H3 & ->).
  unfold Plus in H3.
  apply ms_Rep_Cls_nonempty in H3 as (t & Hne & A3 & _ & C3 & F3);
    [|discriminate].
  apply ms_Chr_inv in H4 as (c4 & s4 & A4 & M4 & ->).
  apply chrMatch_plain in M4 as ->.
  cbn [after advance capture caps] in *.
  split; [exact B|]. exists t.
  rewrite (Frame_consumed (advance x (ch "[") s2) w t A3), C3.
  cbn [caps advance]. rewrite A2, A3, A4.
  repeat split; [exact Hne|].
  intros Hin. rewrite Forall_forall in F3. specialize (F3 _ Hin).
  apply clsMatch_not in F3. apply F3. reflexivity.
Qed.

Lemma reGroup_complete (x : state) (body : jsstring) :
  before x = [] -> GroupTag (after x) body ->
  ms false (pattern reGroup) x <> [].
Proof.
  intros B (rest & E & Hne & Hno).
  set (z1 := advance x (ch "[") (body ++ ch "]" :: rest)).
  set (z2 := mkState (rev body ++ before z1) (ch "]" :: rest) (caps z1)).
  assert (G : In (advance (capture 1 z1 z2) (ch "]") rest)
                 (ms false (pattern reGroup) x)).
  { cbn [pattern reGroup seq fold_right].
    apply ms_Seq_intro with (z := x).
    { cbn [ms]. rewrite B. left. reflexivity. }
    apply ms_Seq_intro with (z := z1).
    { apply ms_Chr_intro; [exact E|]. unfold chrMatch. apply N.eqb_refl. }
    apply ms_Seq_intro with (z := capture 1 z1 z2).
    { apply ms_Grp_intro. apply plus_cls_complete; [exact Hne| |reflexivity].
      apply Forall_forall. intros a Ha. apply clsMatch_not.
      intros ->. exact (Hno Ha). }
    apply ms_Seq_intro with (z := advance (capture 1 z1 z2) (ch "]") rest).
    { apply ms_Chr_intro; [reflexivity|]. unfold chrMatch. apply N.eqb_refl. }
    left. reflexivity. }
  intros N0. rewrite N0 in G. destruct G.
Qed.

Lemma GroupTag_unique (s body body' : jsstring) :
  GroupTag s body -> GroupTag s body' -> body = body'.
Proof.
  intros (r & E & _ & H) (r' & E' & _ & H'). rewrite E in E'.
  injection E' as E'. apply split_unique in E' as [E' _]; assumption.
Qed.

Lemma re_exec_reGroup (s : jsstring) :
  (forall sk m, re_exec reGroup s = Some (sk, m) -> GroupTag s (captured 1 m))
  /\ (forall body, GroupTag s body -> re_exec reGroup s <> None).
Proof.
  split.
  - intros sk m H. apply search_Some in H as (s' & ys & -> & Hms).
    rewrite app_nil_r in Hms.
    assert (Hy : In m (ms false (pattern reGroup) (mkState (rev sk) s' [])))
      by (cbn [flagI reGroup] in Hms; rewrite Hms; left; reflexivity).
    apply reGroup_sound in Hy as (B & body & A & Hne & Hno & C).
    cbn [before after caps] in *.
    assert (sk = []) as -> by (destruct sk as [|a sk] using rev_ind;
      [reflexivity | rewrite rev_app_distr in B; discriminate]).
    unfold captured. rewrite C. cbn [lookup Nat.eqb app].
    exists (after m). auto.
  - intros body H. unfold re_exec, exec.
    apply (search_exists false (pattern reGroup) [] [] s).
    apply reGroup_complete with (body := body); [reflexivity | exact H].
Qed.

(** X3: [extractGroup] returns the trimmed interior of the bracket pair
    that opens the input, as far as the first closing bracket, provided the
    interior is not empty; in every other case it returns null. *)
Theorem extractGroup_leading_tag (s : jsstring) :
  (forall g, extractGroup s = Some g <->
             exists body, GroupTag s body /\ g = trim body)
  /\ (extractGroup s = None <-> forall body, ~ GroupTag s body).
Proof.
  destruct (re_exec_reGroup s) as [S0 C0]. unfold extractGroup. split.
  - intros g. split.
    + destruct (re_exec reGroup s) as [[sk m]|] eqn:E; [|discriminate].
      intros [= <-]. exists (captured 1 m). split; [|reflexivity].
      apply (S0 sk m eq_refl).
    + intros (body & H & ->). specialize (C0 body H).
      destruct (re_exec reGroup s) as [[sk m]|] eqn:E; [|congruence].
      rewrite (GroupTag_unique s body (captured 1 m) H (S0 sk m eq_refl)).
      reflexivity.
  - split.
    + destruct (re_exec reGroup s) as [[sk m]|] eqn:E; [discriminate|].
      intros _ body H. exact (C0 body H eq_refl).
    + intros H. destruct (re_exec reGroup s) as [[sk m]|] eqn:E; [|reflexivity].
      exfalso. exact (H _ (S0 sk m eq_refl)).
Qed.

Lemma extractGroup_leading_tag_witness :
  extractGroup (lit "[ Erai-raws ] Show [1080p]") = Some (lit "Erai-raws")
  /\ exists body, GroupTag (lit "[A]B") body /\ lit "A" = trim body.
Proof.
  split.
  - apply (proj2 (proj1 (extractGroup_leading_tag
                           (lit "[ Erai-raws ] Show [1080p]"))
                        (lit "Erai-raws"))).
    exists (lit " Erai-raws "). split; [|vm_compute; reflexivity].
    exists (lit " Show [1080p]"). split; [reflexivity|].
    split; [discriminate|]. vm_compute. intuition discriminate.
  - apply (proj1 (proj1 (extractGroup_leading_tag (lit "[A]B")) (lit "A"))).
    vm_compute. reflexivity.
Defined.

(** ** The extension *)

Lemma wordChar_not_dot (t : jsstring) :
  Forall (fun x => isWordChar x = true) t -> ~ In (ch ".") t.
Proof.
  intros F Hin. rewrite Forall_forall in F. specialize (F _ Hin). char_lia.
Qed.

Lemma lower_wordChar (x : N) :
  isWordChar x = true -> in_ranges (lower x) lowerWordChar = true.
Proof. unfold lowerWordChar. intros H. char_lia. Qed.

Lemma reExtension_sound (x y : state) :
  In y (ms false (pattern reExtension) x) ->
  exists raw, after x = ch "." :: raw /\ raw <> []
              /\ Forall (fun c => isWordChar c = true) raw
              /\ caps y = (1, raw) :: caps x.
Proof.
  cbn [pattern reExtension seq fold_right]. intros H.
  apply ms_Seq_inv in H as (z1 & H1 & H).
  apply ms_Seq_inv in H as (z2 & H2 & H).
  apply ms_Seq_inv in H as (z3 & H3 & H).
  apply ms_Eps_inv in H as ->.
  apply ms_Chr_inv in H1 as (c1 & s1 & A1 & M1 & ->).
  apply chrMatch_plain in M1 as ->.
  apply ms_Grp_inv in H2 as (w & H2 & ->).
  unfold Plus in H2.
  apply ms_Rep_Cls_nonempty in H2 as (t & Hne & A2 & _ & C2 & F2);
    [|discriminate].
  apply ms_Eol_inv in H3 as (A3 & ->).
  cbn [after advance capture caps] in *.
  exists t. rewrite (Frame_consumed (advance x (ch ".") s1) w t A2), C2.
  cbn [caps advance]. rewrite A1, A2, A3, app_nil_r.
  repeat split; [exact Hne|].
  eapply Forall_impl; [|exact F2]. intros a Ha. cbn beta in *.
  rewrite clsMatch_plain in Ha. exact Ha.
Qed.

Lemma reExtension_complete (x : state) (raw : jsstring) :
  after x = ch "." :: raw -> raw <> [] ->
  Forall (fun c => isWordChar c = true) raw ->
  ms false (pattern reExtension) x <> [].
Proof.
  intros E Hne F.
  set (z1 := advance x (ch ".") (raw ++ [])).
  set (z2 := mkState (rev raw ++ before z1) [] (caps z1)).
  assert (G : In (capture 1 z1 z2) (ms false (pattern reExtension) x)).
  { cbn [pattern reExtension seq fold_right].
    apply ms_Seq_intro with (z := z1).
    { apply ms_Chr_intro; [rewrite app_nil_r; exact E|].
      unfold chrMatch. apply N.eqb_refl. }
    apply ms_Seq_intro with (z := capture 1 z1 z2).
    { apply ms_Grp_intro. apply plus_cls_complete; [exact Hne| |reflexivity].
      eapply Forall_impl; [|exact F]. intros a Ha. cbn beta in *.
      rewrite clsMatch_plain. exact Ha. }
    apply ms_Seq_intro with (z := capture 1 z1 z2).
    { cbn [ms after capture z2]. left. reflexivity. }
    left. reflexivity. }
  intros N0. rewrite N0 in G. destruct G.
Qed.

Lemma Suffix_unique (s raw raw' : jsstring) :
  Suffix s raw -> Suffix s raw' -> raw = raw'.
Proof.
  intros (p & E & _ & F) (p' & E' & _ & F'). rewrite E in E'.
  apply (f_equal (@rev N)) in E'. rewrite !rev_app_distr in E'.
  cbn [rev] in E'. rewrite <- !app_assoc in E'. cbn [app] in E'.
  apply split_unique in E' as [E' _].
  - rewrite <- (rev_involutive raw), E'. apply rev_involutive.
  - rewrite <- in_rev. apply wordChar_not_dot, F.
  - rewrite <- in_rev. apply wordChar_not_dot, F'.
Qed.

Lemma re_exec_reExtension (s : jsstring) :
  (forall sk m, re_exec reExtension s = Some (sk, m) -> Suffix s (captured 1 m))
  /\ (forall raw, Suffix s raw -> re_exec reExtension s <> None).
Proof.
  split.
  - intros sk m H. apply search_Some in H as (s' & ys & -> & Hms).
    rewrite app_nil_r in Hms.
    assert (Hy : In m (ms false (pattern reExtension) (mkState (rev sk) s' [])))
      by (cbn [flagI reExtension] in Hms; rewrite Hms; left; reflexivity).
    apply reExtension_sound in Hy as (raw & A & Hne & F & C).
    cbn [after caps] in *.
    unfold captured. rewrite C. cbn [lookup Nat.eqb].
    exists sk. rewrite A. auto.
  - intros raw (pre & -> & Hne & F). unfold re_exec, exec.
    apply (search_exists false (pattern reExtension) [] pre (ch "." :: raw)).
    apply reExtension_complete with (raw := raw); [reflexivity | exact Hne | exact F].
Qed.

(** X4: [extractExtension] returns, in lower case, the run of word
    characters that ends the input when that run is not empty and follows a
    dot, and null in every other case; an extension is never empty and
    holds nothing but a-z, 0-9 and the underscore. *)
Theorem extractExtension_suffix (s : jsstring) :
  (forall e, extractExtension s = Some e <->
             exists raw, Suffix s raw /\ e = toLowerCase raw)
  /\ (extractExtension s = None <-> forall raw, ~ Suffix s raw)
  /\ (forall e, extractExtension s = Some e ->
                e <> []
                /\ Forall (fun x => in_ranges x lowerWordChar = true) e).
Proof.
  destruct (re_exec_reExtension s) as [S0 C0].
  assert (A : forall e, extractExtension s = Some e <->
                exists raw, Suffix s raw /\ e = toLowerCase raw).
  { intros e. unfold extractExtension. split.
    - destruct (re_exec reExtension s) as [[sk m]|] eqn:E; [|discriminate].
      intros [= <-]. exists (captured 1 m). split; [|reflexivity].
      apply (S0 sk m eq_refl).
    - intros (raw & H & ->). specialize (C0 raw H).
      destruct (re_exec reExtension s) as [[sk m]|] eqn:E; [|congruence].
      rewrite (Suffix_unique s raw (captured 1 m) H (S0 sk m eq_refl)).
      reflexivity. }
  split; [exact A|]. split.
  - unfold extractExtension. split.
    + destruct (re_exec reExtension s) as [[sk m]|] eqn:E; [discriminate|].
      intros _ raw H. exact (C0 raw H eq_refl).
    + intros H. destruct (re_exec reExtension s) as [[sk m]|] eqn:E;
        [|reflexivity].
      exfalso. exact (H _ (S0 sk m eq_refl)).
  - intros e H. apply A in H as (raw & (pre & _ & Hne & F) & ->). split.
    + destruct raw; [congruence | discriminate].
    + unfold toLowerCase. apply Forall_map.
      eapply Forall_impl; [|exact F]. intros x. apply lower_wordChar.
Qed.

Lemma extractExtension_suffix_witness :
  extractExtension (lit "Show.v2.01.MKV") = Some (lit "mkv")
  /\ (lit "mkv" <> []
      /\ Forall (fun x => in_ranges x lowerWordChar = true) (lit "mkv")).
Proof.
  split.
  - apply (proj2 (proj1 (extractExtension_suffix (lit "Show.v2.01.MKV"))
                        (lit "mkv"))).
    exists (lit "MKV"). split; [|reflexivity].
    exists (lit "Show.v2.01"). split; [reflexivity|].
    split; [discriminate|]. repeat constructor.
  - apply (proj2 (proj2 (extractExtension_suffix (lit "Show.v2.01.MKV")))
                 (lit "mkv")).
    vm_compute. reflexivity.
Defined.

(** ** Episode numbers have at most four digits *)

(** X5: every episode number that [extractEpisode] returns (the episode of
    a single or versioned episode, both ends of a range) is an integer
    between 0 and 9999: the patterns read at most four digits. *)
Theorem extractEpisode_four_digits (s : jsstring) (e : EpisodeSpec) :
  extractEpisode s = Some e -> fourDigitEpisode e.
Proof.
  unfold extractEpisode.
  destruct (re_exec reEpisodeV s) as [[skv mv]|] eqn:EV.
  { intros [= <-]. apply reEpisodeV_short in EV as [EV _]. cbn.
    apply parseInt_short, EV. }
  assert (S1 : match re_exec reEpisode s with
               | Some (_, m) => Some (Single (parseInt (captured 1 m)))
               | None => None
               end = Some e -> fourDigitEpisode e).
  { destruct (re_exec reEpisode s) as [[sk1 m1]|] eqn:E1; [|discriminate].
    intros [= <-]. apply reEpisode_short in E1. cbn.
    apply parseInt_short, E1. }
  destruct (re_exec reEpisodeRange s) as [[skr mr]|] eqn:ER; [|exact S1].
  destruct (num_lt _ _); [|exact S1].
  intros [= <-]. apply reEpisodeRange_short in ER as [R1 R2]. cbn.
  split; apply parseInt_short; assumption.
Qed.

Lemma extractEpisode_four_digits_witness :
  fourDigitEpisode (Range (Int 1) (Int 12)).
Proof.
  apply (extractEpisode_four_digits (lit "[Judas] Golden Kamuy S3 - 01-12")).
  vm_compute. reflexivity.
Defined.

(** ** Every season token is found *)

Lemma reSeason_complete (x : state) :
  (before x = [] /\ SeasonAt (after x))
  \/ (exists c u, after x = c :: u
                  /\ (isWhiteSpace c = true \/ c = ch "-") /\ SeasonAt u) ->
  ms true (pattern reSeason) x <> [].
Proof.
  assert (T : forall z sc dg rest,
    after z = sc :: dg :: rest -> (sc = ch "S" \/ sc = ch "s") ->
    isDigit dg = true ->
    exists y, In y (ms true (seq [Chr (ch "S"); Grp 1 (Plus d)]) z)).
  { intros z sc dg rest A Hsc Hdg.
    set (z1 := advance z sc (dg :: rest)).
    set (z2 := mkState (rev [dg] ++ before z1) rest (caps z1)).
    exists (capture 1 z1 z2). cbn [seq fold_right].
    apply ms_Seq_intro with (z := z1).
    { apply ms_Chr_intro; [exact A|]. destruct Hsc as [-> | ->]; reflexivity. }
    apply ms_Seq_intro with (z := capture 1 z1 z2); [|left; reflexivity].
    apply ms_Grp_intro. unfold d.
    apply plus_cls_complete; [discriminate | | reflexivity].
    constructor; [|constructor]. unfold clsMatch.
    change (in_ranges dg digit) with (isDigit dg). rewrite Hdg. reflexivity. }
  intros H G.
  assert (F : exists y, In y (ms true (pattern reSeason) x));
    [|destruct F as [y Hy]; rewrite G in Hy; destruct Hy].
  cbn [pattern reSeason seq fold_right].
  destruct H as [[B (sc & dg & rest & A & Hsc & Hdg)]
                |(c & u & A & Hc & (sc & dg & rest & -> & Hsc & Hdg))].
  - destruct (T x sc dg rest A Hsc Hdg) as [y Hy]. exists y.
    apply ms_Seq_intro with (z := x); [|exact Hy].
    cbn [ms]. apply in_or_app. left. rewrite B. left. reflexivity.
  - destruct (T (advance x c (sc :: dg :: rest)) sc dg rest eq_refl Hsc Hdg)
      as [y Hy].
    exists y.
    apply ms_Seq_intro with (z := advance x c (sc :: dg :: rest)); [|exact Hy].
    cbn [ms]. apply in_or_app. right.
    change (In (advance x c (sc :: dg :: rest))
               (ms true (Cls false (whiteSpace ++ [one "-"])) x)).
    apply ms_Cls_intro; [exact A|].
    destruct Hc as [Hc | ->]; [|reflexivity].
    unfold clsMatch, in_ranges. rewrite existsb_app.
    change (existsb (in_range c) whiteSpace) with (isWhiteSpace c).
    rewrite Hc. reflexivity.
Qed.

(** ** The first result of a greedy run *)

Lemma flat_map_head {A B : Type} (f : A -> list B) (l : list A) (y : B)
    (ys : list B) :
  flat_map f l = y :: ys -> exists a ys', In a l /\ f a = y :: ys'.
Proof.
  induction l as [|a l IH]; [discriminate|]. cbn [flat_map].
  destruct (f a) as [|y0 ys0] eqn:E.
  - intros H. destruct (IH H) as (a0 & ys' & Hin & E0).
    exists a0, ys'. split; [right; exact Hin | exact E0].
  - intros H. injection H as <- _. exists a, ys0. split; [left; reflexivity | exact E].
Qed.

Lemma flat_map_unit {A : Type} (l : list A) : flat_map (fun v => [v]) l = l.
Proof. induction l as [|a l IH]; [reflexivity|]. cbn. rewrite IH. reflexivity. Qed.

Lemma ms_Cls_eq (ic inv : bool) (rs : list (N * N)) (x : state) :
  ms ic (Cls inv rs) x = charStep (clsMatch ic inv rs) x.
Proof. reflexivity. Qed.

(** The first result of a greedy [*] over a class is the position after the
    whole run, and so is the first result of [+] when the run is not
    empty. *)
Lemma star_cls_head (ic inv : bool) (rs : list (N * N)) (fuel : nat) :
  forall x, length (after x) < fuel ->
  exists y ys,
    repeatMatcher (ms ic (Cls inv rs)) fuel 0 None x = y :: ys
    /\ after x = takeRun (clsMatch ic inv rs) (after x) ++ after y
    /\ caps y = caps x.
Proof.
  induction fuel as [|fuel IH]; intros x Hlen; [lia|].
  rewrite repeatMatcher_S. cbn [Nat.eqb andb Nat.pred option_map].
  rewrite ms_Cls_eq. unfold charStep. destruct (after x) as [|c s] eqn:E.
  - exists x, []. cbn. rewrite E. auto.
  - cbn [takeRun]. destruct (clsMatch ic inv rs c) eqn:W.
    + cbn [flat_map advance after length]. rewrite app_nil_r.
      assert (Hne : Nat.eqb (length s) (S (length s)) = false)
        by (apply Nat.eqb_neq; lia).
      rewrite Hne.
      destruct (IH (advance x c s)) as (y & ys & Ey & Ay & Cy).
      { cbn in *. lia. }
      rewrite Ey. exists y, (ys ++ [x]).
      cbn [after advance caps app] in *. rewrite <- Ay. auto.
    + cbn [flat_map app]. exists x, []. rewrite E. auto.
Qed.

Lemma plus_cls_head (ic inv : bool) (rs : list (N * N)) (x y : state)
    (ys : list state) :
  ms ic (Plus (Cls inv rs)) x = y :: ys ->
  takeRun (clsMatch ic inv rs) (after x) <> []
  /\ after x = takeRun (clsMatch ic inv rs) (after x) ++ after y
  /\ caps y = caps x.
Proof.
  change (ms ic (Plus (Cls inv rs)) x)
    with (repeatMatcher (ms ic (Cls inv rs)) (1 + length (after x) + 1) 1 None x).
  replace (1 + length (after x) + 1) with (S (S (length (after x)))) by lia.
  rewrite repeatMatcher_S. cbn [Nat.eqb andb Nat.pred option_map].
  rewrite ms_Cls_eq. unfold charStep. destruct (after x) as [|c s] eqn:E;
    [discriminate|].
  cbn [takeRun]. destruct (clsMatch ic inv rs c) eqn:W; [|discriminate].
  cbn [flat_map]. rewrite app_nil_r.
  destruct (star_cls_head ic inv rs (S (length (c :: s))) (advance x c s))
    as (y0 & ys0 & Ey & Ay & Cy).
  { cbn. lia. }
  rewrite Ey. intros H. injection H as <- _.
  cbn [after advance caps app] in *. rewrite <- Ay.
  split; [discriminate | auto].
Qed.

Lemma takeRun_digits (u : jsstring) :
  takeRun (clsMatch true false digit) u = takeDigits u.
Proof.
  induction u as [|c u IH]; [reflexivity|]. cbn [takeRun takeDigits].
  destruct (clsMatch true false digit c) eqn:E.
  - rewrite (clsMatch_digit _ _ E), IH. reflexivity.
  - destruct (isDigit c) eqn:D; [|reflexivity].
    unfold clsMatch in E. change (in_ranges c digit) with (isDigit c) in E.
    rewrite D in E. discriminate.
Qed.

Lemma takeDigits_Digits (u : jsstring) :
  takeDigits u <> [] -> Digits (takeDigits u).
Proof.
  intros H. split; [exact H|]. clear H.
  induction u as [|c u IH]; [constructor|]. cbn [takeDigits].
  destruct (isDigit c) eqn:D; constructor; assumption.
Qed.

(** What follows the digits that [takeDigits] returns does not start with
    a digit. *)
Lemma takeDigits_maximal (u rest : jsstring) :
  u = takeDigits u ++ rest -> noDigitAhead rest.
Proof.
  revert rest. induction u as [|c u IH]; intros rest E; cbn [takeDigits] in E.
  - cbn in E. subst rest. exact I.
  - destruct (isDigit c) eqn:D.
    + injection E as E. apply IH, E.
    + cbn in E. subst rest. exact D.
Qed.

Lemma app_eq_prefix (a a' b b' : jsstring) :
  a ++ b = a' ++ b' -> length a < length a' ->
  exists x t, a' = a ++ x :: t /\ b = x :: t ++ b'.
Proof.
  revert a'. induction a as [|y a IH]; intros a' E L.
  - destruct a' as [|x t]; [cbn in L; lia|]. exists x, t. auto.
  - destruct a' as [|y' a']; [cbn in L; lia|].
    cbn in E. injection E as -> E. cbn [length] in L.
    destruct (IH a' E ltac:(lia)) as (x & t & -> & ->).
    exists x, t. auto.
Qed.

(** ** The season token that is read *)

Lemma seasonBound_clsMatch (c : N) :
  clsMatch true false (whiteSpace ++ [one "-"]) c = true <-> seasonBound c.
Proof.
  unfold seasonBound. split; [apply clsMatch_space_dash|].
  intros [Hc | ->]; [|reflexivity].
  unfold clsMatch, in_ranges. rewrite existsb_app.
  change (existsb (in_range c) whiteSpace) with (isWhiteSpace c).
  rewrite Hc. reflexivity.
Qed.

Lemma seasonBound_not_S (c : N) :
  seasonBound c -> c <> ch "S" /\ c <> ch "s".
Proof. intros [H | ->]; split; try discriminate; intros ->; discriminate. Qed.

(** The match that the engine reports at a position: where the S stands,
    and group 1 is the whole run of digits after it. *)
Lemma reSeason_head (x y : state) (ys : list state) :
  ms true (pattern reSeason) x = y :: ys ->
  exists z sc u,
    ((before x = [] /\ z = x)
     \/ exists c s1, after x = c :: s1 /\ seasonBound c /\ z = advance x c s1)
    /\ after z = sc :: u /\ (sc = ch "S" \/ sc = ch "s")
    /\ takeDigits u <> []
    /\ caps y = (1, takeDigits u) :: caps z.
Proof.
  cbn [pattern reSeason seq fold_right]. intros H.
  change (ms true (Seq (Alt Bol (Cls false (whiteSpace ++ [one "-"])))
                       (Seq (Chr (ch "S")) (Seq (Grp 1 (Plus d)) Eps))) x)
    with (flat_map (ms true (Seq (Chr (ch "S")) (Seq (Grp 1 (Plus d)) Eps)))
                   (ms true (Alt Bol (Cls false (whiteSpace ++ [one "-"]))) x))
    in H.
  apply flat_map_head in H as (z & ys1 & Hz & H).
  change (ms true (Seq (Chr (ch "S")) (Seq (Grp 1 (Plus d)) Eps)) z)
    with (flat_map (ms true (Seq (Grp 1 (Plus d)) Eps)) (ms true (Chr (ch "S")) z))
    in H.
  apply flat_map_head in H as (w & ys2 & Hw & H).
  change (ms true (Seq (Grp 1 (Plus d)) Eps) w)
    with (flat_map (fun v => [v]) (map (capture 1 w) (ms true (Plus d) w))) in H.
  rewrite flat_map_unit in H.
  destruct (ms true (Plus d) w) as [|y0 ys0] eqn:E0; [discriminate|].
  cbn [map] in H. injection H as <- _.
  unfold d in E0. apply plus_cls_head in E0 as (Hne & A0 & C0).
  apply ms_Chr_inv in Hw as (sc & u & Az & Msc & ->).
  apply chrMatch_S in Msc. cbn [after advance caps] in *.
  rewrite takeRun_digits in Hne, A0.
  exists z, sc, u. repeat split; try assumption.
  - apply ms_Alt_inv in Hz as [Hz|Hz].
    + apply ms_Bol_inv in Hz as (B & ->). left. auto.
    + apply ms_Cls_inv in Hz as (c & s1 & A1 & M1 & ->).
      right. exists c, s1. repeat split; [exact A1|].
      apply seasonBound_clsMatch, M1.
  - cbn [caps capture].
    rewrite (Frame_consumed (advance z sc u) y0 (takeDigits u) A0), C0.
    reflexivity.
Qed.

(** What [reSeason.exec] returns: the first season token of the input, with
    the whole run of digits after its S in group 1. *)
Lemma re_exec_reSeason (s sk : jsstring) (m : state) :
  re_exec reSeason s = Some (sk, m) ->
  exists pre sc u,
    s = pre ++ sc :: u
    /\ (sc = ch "S" \/ sc = ch "s")
    /\ takeDigits u <> []
    /\ captured 1 m = takeDigits u
    /\ (pre = [] \/ exists p c, pre = p ++ [c] /\ seasonBound c)
    /\ forall pre' sc' dg' rest',
         s = pre' ++ sc' :: dg' :: rest' ->
         (sc' = ch "S" \/ sc' = ch "s") -> isDigit dg' = true ->
         (pre' = [] \/ exists p c, pre' = p ++ [c] /\ seasonBound c) ->
         length pre <= length pre'.
Proof.
  intros H. unfold re_exec, exec in H. pose proof H as H0.
  apply search_Some in H0 as (s' & ys & -> & Hms). cbn [flagI reSeason] in Hms.
  rewrite app_nil_r in Hms.
  apply reSeason_head in Hms as (z & sc & u & Hz & Az & Hsc & Hne & C).
  cbn [before after] in Hz.
  assert (G : captured 1 m = takeDigits u)
    by (unfold captured; rewrite C; reflexivity).
  (* an earlier token would be an earlier match *)
  assert (L : forall pre' sc' dg' rest',
            sk ++ s' = pre' ++ sc' :: dg' :: rest' ->
            (sc' = ch "S" \/ sc' = ch "s") -> isDigit dg' = true ->
            (pre' = [] \/ exists p c, pre' = p ++ [c] /\ seasonBound c) ->
            (pre' = [] -> sk = [])
            /\ (forall p c, pre' = p ++ [c] -> length sk <= length p)).
  { intros pre' sc' dg' rest' E Hsc' Hdg' Hpre'.
    assert (A : SeasonAt (sc' :: dg' :: rest'))
      by (exists sc', dg', rest'; auto).
    split.
    - intros ->. destruct sk as [|x sk2]; [reflexivity|]. exfalso.
      pose proof (search_leftmost true (pattern reSeason) _ [] _ m H
                    [] x sk2 s' eq_refl eq_refl) as F.
      revert F. apply reSeason_complete. left. cbn [before after rev app].
      split; [reflexivity|]. cbn [app] in E. rewrite E. exact A.
    - intros p c ->.
      destruct Hpre' as [Hp | (p0 & c0 & Hp & Hc0)];
        [destruct p; discriminate|].
      apply app_inj_tail in Hp as [<- <-].
      destruct (Nat.le_gt_cases (length sk) (length p)) as [Hle|Hgt];
        [exact Hle|]. exfalso.
      rewrite <- app_assoc in E. symmetry in E.
      destruct (app_eq_prefix _ _ _ _ E Hgt) as (x & t & Esk & Eb).
      pose proof (search_leftmost true (pattern reSeason) _ [] _ m H
                    p x t s' Esk eq_refl) as F.
      revert F. apply reSeason_complete. right. cbn [after].
      rewrite <- Eb. exists c, (sc' :: dg' :: rest'). auto. }
  destruct Hz as [[B ->] | (c & s1 & A1 & Hc & ->)]; cbn [after advance] in Az.
  - assert (sk = []) as -> by (destruct sk as [|a sk] using rev_ind;
      [reflexivity | rewrite rev_app_distr in B; discriminate]).
    exists [], sc, u. cbn [app]. rewrite Az.
    repeat split; auto. intros. cbn. lia.
  - exists (sk ++ [c]), sc, u. rewrite <- app_assoc. cbn [app].
    rewrite A1, Az. repeat split; auto.
    + right. exists sk, c. auto.
    + intros pre' sc' dg' rest' E Hsc' Hdg' Hpre'.
      rewrite A1, Az in L.
      destruct (L pre' sc' dg' rest' E Hsc' Hdg' Hpre') as [L0 L1].
      destruct Hpre' as [-> | (p0 & c0 & -> & Hc0)].
      * exfalso. specialize (L0 eq_refl). subst sk. cbn [app] in E.
        injection E as -> _. destruct (seasonBound_not_S _ Hc).
        destruct Hsc'; congruence.
      * specialize (L1 p0 c0 eq_refl). rewrite !length_app. cbn. lia.
Qed.

(** C9 (amended): a season returned by [parse] is never [NaN] and never
    negative: it is the Number value (exact up to fifteen digits, rounded
    to the nearest double above 2^53, [Infinity] beyond the range of the
    doubles) of the whole run of digits of the first [S<digits>] token ([S]
    in either case) of the trimmed input that stands at the start of the
    string or right after a white-space character or a dash. *)
Theorem parse_season_token (s : jsstring) (r : ParseResult) (n : number) :
  HeuristicParser.parse s = inr r ->
  season r = Some n ->
  exists pre sc ds rest,
    trim s = pre ++ sc :: ds ++ rest
    /\ (sc = ch "S" \/ sc = ch "s")
    /\ Digits ds /\ noDigitAhead rest
    /\ n = doubleOfNat (decimalValue ds)
    /\ atLeast 0 n
    /\ (length ds <= 15 -> n = Int (decimalValue ds))
    /\ (pre = [] \/ exists p c, pre = p ++ [c] /\ seasonBound c)
    /\ forall pre' sc' dg' rest',
         trim s = pre' ++ sc' :: dg' :: rest' ->
         (sc' = ch "S" \/ sc' = ch "s") -> isDigit dg' = true ->
         (pre' = [] \/ exists p c, pre' = p ++ [c] /\ seasonBound c) ->
         length pre <= length pre'.
Proof.
  intros H. apply parse_inr_inv in H as [_ ->].
  unfold resultOf. cbn [season]. unfold extractSeason.
  destruct (re_exec reSeason (trim s)) as [[sk m]|] eqn:E; [|discriminate].
  intros [= <-].
  apply re_exec_reSeason in E as (pre & sc & u & E & Hsc & Hne & G & Hpre & L).
  pose proof (takeDigits_Digits u Hne) as D.
  assert (R : exists rest, u = takeDigits u ++ rest).
  { clear. induction u as [|c u [rest IH]]; [exists []; reflexivity|].
    cbn [takeDigits]. destruct (isDigit c).
    - exists rest. cbn [app]. rewrite <- IH. reflexivity.
    - exists (c :: u). reflexivity. }
  destruct R as [rest R].
  exists pre, sc, (takeDigits u), rest. rewrite G, <- R.
  repeat split; try assumption; try apply D.
  - apply (takeDigits_maximal u rest R).
  - apply parseInt_Digits, D.
  - apply parseInt_Digits_nonneg, D.
  - intros L15. apply parseInt_exact; assumption.
Qed.

Lemma parse_season_token_witness :
  exists pre sc ds rest,
    trim (lit "[Judas] Golden Kamuy S3 - 01-12 s4 (1080p) [Batch]")
    = pre ++ sc :: ds ++ rest
    /\ (sc = ch "S" \/ sc = ch "s")
    /\ Digits ds /\ noDigitAhead rest
    /\ Int 3 = doubleOfNat (decimalValue ds)
    /\ atLeast 0 (Int 3)
    /\ (length ds <= 15 -> Int 3 = Int (decimalValue ds))
    /\ (pre = [] \/ exists p c, pre = p ++ [c] /\ seasonBound c)
    /\ forall pre' sc' dg' rest',
         trim (lit "[Judas] Golden Kamuy S3 - 01-12 s4 (1080p) [Batch]")
         = pre' ++ sc' :: dg' :: rest' ->
         (sc' = ch "S" \/ sc' = ch "s") -> isDigit dg' = true ->
         (pre' = [] \/ exists p c, pre' = p ++ [c] /\ seasonBound c) ->
         length pre <= length pre'.
Proof.
  apply (parse_season_token
           (lit "[Judas] Golden Kamuy S3 - 01-12 s4 (1080p) [Batch]")
           (resultOf (lit "[Judas] Golden Kamuy S3 - 01-12 s4 (1080p) [Batch]"))).
  - vm_compute. reflexivity.
  - vm_compute. reflexivity.
Defined.

(** C9 (as stated) fails: the token "S0" gives season 0, which is not a
    positive integer. *)
Lemma parse_season_zero_counterexample :
  exists r,
    HeuristicParser.parse (lit "Show S0 - 01") = inr r
    /\ season r = Some (Int 0)
    /\ ~ intAtLeast 1 (Int 0).
Proof.
  eexists. split; [vm_compute; reflexivity|].
  split; [reflexivity|]. cbn. lia.
Qed.

(** A season above 2^53 is rounded, to the even neighbour at a tie, and a
    run of 309 nines is beyond the doubles. *)
Example extractSeason_rounds :
  extractSeason (lit "Show S9007199254740993") = Some (Int 9007199254740992)
  /\ extractSeason (lit "Show S" ++ repeat (ch "9") 309) = Some (Infinity false)
  /\ doubleOfNat (17976931348623158 * 10 ^ 292) = Int ((2 ^ 53 - 1) * 2 ^ 971)
  /\ doubleOfNat (17976931348623159 * 10 ^ 292) = Infinity false.
Proof. repeat split; vm_compute; reflexivity. Qed.

(** X6: [extractSeason] returns null exactly when the input holds no
    season token, that is no letter S (in either case) followed by a digit
    at the start of the input or right after a white-space character or a
    dash; when there is such a token a season is returned, and it is never
    [NaN] and never negative. *)
Theorem extractSeason_none_iff (s : jsstring) :
  (extractSeason s = None <-> ~ SeasonToken s)
  /\ (SeasonToken s -> exists n, extractSeason s = Some n /\ atLeast 0 n).
Proof.
  assert (C : SeasonToken s -> re_exec reSeason s <> None).
  { intros [H | (pre & c & u & -> & Hc & H)]; unfold re_exec, exec.
    - apply (search_exists true (pattern reSeason) [] [] s).
      apply reSeason_complete. left. split; [reflexivity | exact H].
    - apply (search_exists true (pattern reSeason) [] pre (c :: u)).
      apply reSeason_complete. right. exists c, u. auto. }
  assert (S0 : forall sk m, re_exec reSeason s = Some (sk, m) ->
                 SeasonToken s /\ atLeast 0 (parseInt (captured 1 m))).
  { intros sk m E.
    apply re_exec_reSeason in E as (pre & sc & u & E & Hsc & Hne & G & Hpre & _).
    pose proof (takeDigits_Digits u Hne) as D.
    split; [|rewrite G; apply parseInt_Digits_nonneg, D].
    destruct u as [|dg u']; [cbn in Hne; congruence|].
    assert (Hdg : isDigit dg = true).
    { cbn [takeDigits] in Hne. destruct (isDigit dg); [reflexivity | congruence]. }
    assert (A : SeasonAt (sc :: dg :: u'))
      by (exists sc, dg, u'; auto).
    destruct Hpre as [-> | (p0 & c & -> & Hc)].
    - left. rewrite E. exact A.
    - right. exists p0, c, (sc :: dg :: u').
      rewrite E, <- app_assoc. auto. }
  unfold extractSeason. split; [split|].
  - destruct (re_exec reSeason s) as [[sk m]|] eqn:E; [discriminate|].
    intros _ H. exact (C H eq_refl).
  - intros H. destruct (re_exec reSeason s) as [[sk m]|] eqn:E; [|reflexivity].
    exfalso. apply H. apply (S0 sk m eq_refl).
  - intros H. specialize (C H).
    destruct (re_exec reSeason s) as [[sk m]|] eqn:E; [|congruence].
    eexists. split; [reflexivity|]. apply (S0 sk m eq_refl).
Qed.

Lemma extractSeason_none_iff_witness :
  exists n, extractSeason (lit "Show-s02 [720p]") = Some n /\ atLeast 0 n.
Proof.
  apply (proj2 (extractSeason_none_iff (lit "Show-s02 [720p]"))).
  right. exists (lit "Show"), (ch "-"), (lit "s02 [720p]").
  split; [reflexivity|]. split; [right; reflexivity|].
  exists (ch "s"), (ch "0"), (lit "2 [720p]").
  split; [reflexivity|]. split; [right; reflexivity | reflexivity].
Defined.

(** ** Parsing the normalized input again *)

Lemma trimStart_idempotent (s : jsstring) : trimStart (trimStart s) = trimStart s.
Proof.
  induction s as [|c s IH]; [reflexivity|]. cbn [trimStart].
  destruct (isWhiteSpace c) eqn:E; [exact IH|]. cbn [trimStart].
  rewrite E. reflexivity.
Qed.

Lemma trimStart_app_solid (l : jsstring) (c : N) :
  isWhiteSpace c = false -> trimStart (l ++ [c]) = trimStart l ++ [c].
Proof.
  intros Hc. induction l as [|x l IH]; cbn [app trimStart].
  - rewrite Hc. reflexivity.
  - destruct (isWhiteSpace x); [exact IH | reflexivity].
Qed.

Lemma trimEnd_cons_solid (c : N) (t : jsstring) :
  isWhiteSpace c = false -> trimEnd (c :: t) = c :: trimEnd t.
Proof.
  intros Hc. unfold trimEnd. cbn [rev].
  rewrite (trimStart_app_solid _ _ Hc), rev_app_distr. reflexivity.
Qed.

Lemma trimEnd_idempotent (s : jsstring) : trimEnd (trimEnd s) = trimEnd s.
Proof.
  unfold trimEnd. rewrite rev_involutive, trimStart_idempotent. reflexivity.
Qed.

Lemma trim_idempotent (s : jsstring) : trim (trim s) = trim s.
Proof.
  unfold trim.
  assert (H : trimStart (trimEnd (trimStart s)) = trimEnd (trimStart s)).
  { induction s as [|c s IH]; [reflexivity|]. cbn [trimStart].
    destruct (isWhiteSpace c) eqn:E; [exact IH|].
    rewrite (trimEnd_cons_solid _ _ E). cbn [trimStart]. rewrite E.
    reflexivity. }
  rewrite H. apply trimEnd_idempotent.
Qed.

(** X7: the [input] of a result is the trimmed input string, it is not
    empty, and parsing it again returns the very same result; so an input
    and its trimmed form are parsed alike. *)
Theorem parse_input_round_trip (s : jsstring) (r : ParseResult) :
  HeuristicParser.parse s = inr r ->
  input r = trim s /\ input r <> []
  /\ HeuristicParser.parse (input r) = inr r
  /\ HeuristicParser.parse (trim s) = HeuristicParser.parse s.
Proof.
  intros H. pose proof H as H0. apply parse_inr_inv in H0 as [Hne ->].
  assert (I : input (resultOf (trim s)) = trim s) by reflexivity.
  rewrite I.
  assert (P : HeuristicParser.parse (trim s) = inr (resultOf (trim s)))
    by (apply parse_resultOf; [apply trim_idempotent | exact Hne]).
  repeat split; [exact Hne | exact P | congruence].
Qed.

Lemma parse_input_round_trip_witness :
  HeuristicParser.parse (lit "Show - 01")
  = inr (resultOf (lit "Show - 01")).
Proof.
  apply (parse_input_round_trip (lit "  Show - 01 ")
           (resultOf (lit "Show - 01"))).
  vm_compute. reflexivity.
Defined.

(** ** What a title is made of *)

Lemma plain_not_32 (c : N) : plain c = true -> c <> 32%N.
Proof. intros H ->. discriminate. Qed.

Lemma indexOf_cons (pat : jsstring) (c : N) (s : jsstring) :
  indexOf pat (c :: s)
  = if startsWith pat (c :: s) then Some 0
    else option_map S (indexOf pat s).
Proof. reflexivity. Qed.

Lemma indexOf_plain_prefix (p u : jsstring) :
  Forall (fun c => plain c = true) p ->
  indexOf [32%N; 32%N] u = None -> indexOf [32%N; 32%N] (p ++ u) = None.
Proof.
  intros F Hu. induction F as [|x p Hx _ IH]; [exact Hu|].
  cbn [app indexOf startsWith]. apply plain_not_32 in Hx.
  assert (E : N.eqb 32 x = false) by (apply N.eqb_neq; congruence).
  rewrite E. cbn [andb]. rewrite IH. reflexivity.
Qed.

Lemma join_Word_single_spaced (ts : list jsstring) :
  Forall Word ts -> indexOf [32%N; 32%N] (join [32%N] ts) = None.
Proof.
  induction 1 as [|t ts [Hne Ht] Hts IH]; [reflexivity|].
  destruct ts as [|q ts].
  - cbn [join]. rewrite <- (app_nil_r t). apply indexOf_plain_prefix; auto.
  - rewrite join_cons by discriminate. apply indexOf_plain_prefix; [exact Ht|].
    pose proof (Forall_inv Hts) as [Hq Fq].
    destruct q as [|c0 q]; [congruence|].
    set (J0 := join [32%N] _) in *.
    assert (J : exists u, J0 = c0 :: u)
      by (unfold J0; destruct ts; cbn [join app]; eauto).
    clearbody J0. destruct J as [u ->].
    pose proof (plain_not_32 _ (Forall_inv Fq)) as Hc.
    assert (E : N.eqb 32 c0 = false) by (apply N.eqb_neq; congruence).
    cbn [app]. rewrite indexOf_cons.
    cbn [startsWith]. rewrite E, N.eqb_refl.
    cbn [andb]. rewrite IH. reflexivity.
Qed.

(** X8: a title is never empty, has no white space at either end, holds
    single spaces only between its words, and apart from these spaces
    holds no white space, dot, underscore or dash. *)
Theorem parse_title_clean (s : jsstring) (r : ParseResult) (t : jsstring) :
  HeuristicParser.parse s = inr r ->
  title r = Some t ->
  t <> [] /\ trim t = t
  /\ Forall (fun c => c = 32%N \/ plain c = true) t
  /\ ~ Has (lit "  ") t.
Proof.
  intros H Ht.
  destruct (parse_title_shape s r t H Ht) as (Hne & (ts & Hts & ->) & _).
  repeat split.
  - exact Hne.
  - apply join_Word_trim, Hts.
  - apply join_Word_chars, Hts.
  - apply includes_not_Has. unfold includes.
    change (lit "  ") with [32%N; 32%N].
    rewrite (join_Word_single_spaced ts Hts). reflexivity.
Qed.

Lemma parse_title_clean_witness :
  lit "One Piece" <> [] /\ trim (lit "One Piece") = lit "One Piece"
  /\ Forall (fun c => c = 32%N \/ plain c = true) (lit "One Piece")
  /\ ~ Has (lit "  ") (lit "One Piece").
Proof.
  apply (parse_title_clean (lit "[G] One__Piece -  (2020).mkv")
           (resultOf (lit "[G] One__Piece -  (2020).mkv"))).
  - vm_compute. reflexivity.
  - vm_compute. reflexivity.
Defined.

Lemma FixedAt_Pair (o c : N) (k : nat) (rs : list (N * N)) (s raw : jsstring) :
  FirstFixed o k rs c s raw -> Pair o c s.
Proof.
  intros (pre & u & -> & (q & -> & _) & _).
  apply Pair_app, Pair_head. apply in_or_app. right. left. reflexivity.
Qed.

(** X9: a title holds nothing that the group, extension, year or checksum
    extractor would read: each of them returns null on it. *)
Theorem parse_title_no_metadata (s : jsstring) (r : ParseResult) (t : jsstring) :
  HeuristicParser.parse s = inr r ->
  title r = Some t ->
  extractGroup t = None /\ extractExtension t = None
  /\ extractYear t = None /\ extractCrc32 t = None.
Proof.
  intros H Ht.
  destruct (parse_title_shape s r t H Ht) as (Hne & (ts & Hts & E) & Hb & Hp).
  repeat split.
  - unfold extractGroup. destruct (re_exec reGroup t) as [[sk m]|] eqn:G;
      [|reflexivity]. exfalso. apply Hb. eapply reGroup_Pair, G.
  - unfold extractExtension.
    destruct (re_exec reExtension t) as [[sk m]|] eqn:G; [|reflexivity].
    exfalso. apply reExtension_dot in G. subst t.
    pose proof (join_Word_chars _ Hts) as F.
    rewrite Forall_forall in F. destruct (F _ G); discriminate.
  - unfold extractYear. destruct (re_exec reYear t) as [[sk m]|] eqn:G;
      [|reflexivity]. exfalso. apply Hp. eapply reYear_Pair, G.
  - unfold extractCrc32. destruct (re_exec reCrc32 t) as [[sk m]|] eqn:G;
      [|reflexivity]. exfalso. apply Hb.
    rewrite re_exec_reCrc32 in G. apply exec_fixed_Some in G.
    eapply FixedAt_Pair, G.
Qed.

Lemma parse_title_no_metadata_witness :
  extractGroup (lit "Jujutsu Kaisen") = None
  /\ extractExtension (lit "Jujutsu Kaisen") = None
  /\ extractYear (lit "Jujutsu Kaisen") = None
  /\ extractCrc32 (lit "Jujutsu Kaisen") = None.
Proof.
  apply (parse_title_no_metadata
           (lit "[SubsPlease] Jujutsu Kaisen - 24 (1080p) [A1B2C3D4].mkv")
           (resultOf (lit "[SubsPlease] Jujutsu Kaisen - 24 (1080p) [A1B2C3D4].mkv"))).
  - vm_compute. reflexivity.
  - vm_compute. reflexivity.
Defined.

(** ** A title is drawn from the input *)

Lemma Thinned_trans (a b c : jsstring) :
  Thinned a b -> Thinned b c -> Thinned a c.
Proof.
  intros H1 H2. revert a H1.
  induction H2 as [|x b c H2 IH|b c H2 IH|x b c H2 IH]; intros a H1.
  - exact H1.
  - induction a as [|y a IHa].
    + inversion H1; subst. apply Thinned_drop, IH. assumption.
    + inversion H1; subst.
      * apply Thinned_keep, IH. assumption.
      * apply Thinned_space, IHa. assumption.
      * apply Thinned_drop, IH. assumption.
  - induction a as [|y a IHa].
    + inversion H1; subst. apply IH. assumption.
    + inversion H1; subst.
      * apply Thinned_space, IH. assumption.
      * apply Thinned_space, IHa. assumption.
      * apply IH. assumption.
  - apply Thinned_drop, IH, H1.
Qed.

Lemma Thinned_nil_l (s : jsstring) : Thinned [] s.
Proof. induction s; constructor; assumption. Qed.

Lemma Thinned_skipn (n : nat) (s : jsstring) : Thinned (skipn n s) s.
Proof.
  revert s. induction n as [|n IH]; intros s; [apply Thinned_refl|].
  destruct s as [|c s]; [constructor|]. cbn [skipn]. apply Thinned_drop, IH.
Qed.

Lemma Thinned_firstn (n : nat) (s : jsstring) : Thinned (firstn n s) s.
Proof.
  revert s. induction n as [|n IH]; intros s; [apply Thinned_nil_l|].
  destruct s as [|c s]; [constructor|]. cbn [firstn]. apply Thinned_keep, IH.
Qed.

Lemma re_replace_Thinned (re : RegExp) (s : jsstring) :
  Thinned (re_replace re [32%N] s) s.
Proof.
  unfold re_replace, replace, exec.
  destruct (search (flagI re) (pattern re) [] s) as [[sk y]|] eqn:E;
    [|apply Thinned_refl].
  apply search_Some in E as (s' & ys & -> & Hms).
  assert (Hy : In y (ms (flagI re) (pattern re) (mkState (rev sk ++ []) s' [])))
    by (rewrite Hms; left; reflexivity).
  apply ms_Frame in Hy as (t & A & _). cbn [after] in A. subst s'.
  apply Thinned_app_keep. cbn [app]. apply Thinned_space, Thinned_app_drop.
  apply Thinned_refl.
Qed.

Lemma re_replaceAll_Thinned (re : RegExp) (s : jsstring) :
  Thinned (re_replaceAll re [32%N] s) s.
Proof. unfold re_replaceAll, replaceAll. apply replaceAllFrom_Thinned. Qed.

Lemma cleanUp_Thinned (w : jsstring) : Thinned (cleanUp w) w.
Proof.
  assert (E : cleanUp w
              = join [32%N] (tokens [] (blank isDash (blank isDotUnderscore w)))).
  { rewrite cleanUp_tokens. apply join_Word_trim, tokens_Word;
      [apply blanked_chars | constructor]. }
  rewrite E.
  eapply Thinned_trans; [apply (join_tokens_Thinned _ [])|]. cbn [rev app].
  eapply Thinned_trans; apply blank_Thinned.
Qed.

Lemma extractTitle_Thinned (s : jsstring) (g e : option jsstring) (t : jsstring) :
  extractTitle s g e = Some t -> Thinned t s.
Proof.
  unfold extractTitle. cbv zeta. change (lit " ") with [32%N].
  destruct (cleanUp _) as [|c0 t0] eqn:E; [discriminate|].
  intros [= <-]. rewrite <- E. clear E.
  eapply Thinned_trans; [apply cleanUp_Thinned|].
  eapply Thinned_trans; [apply re_replaceAll_Thinned|].
  eapply Thinned_trans; [apply re_replaceAll_Thinned|].
  eapply Thinned_trans; [apply re_replace_Thinned|].
  eapply Thinned_trans; [apply re_replace_Thinned|].
  eapply Thinned_trans; [apply re_replace_Thinned|].
  eapply Thinned_trans; [apply re_replace_Thinned|].
  eapply Thinned_trans; [apply re_replace_Thinned|].
  assert (G : Thinned
                (if truthyStr g
                 then match indexOf [93%N] s with
                      | Some groupIdx => substringFrom (groupIdx + 1) s
                      | None => s
                      end
                 else s) s).
  { destruct (truthyStr g); [|apply Thinned_refl].
    destruct (indexOf [93%N] s); [apply Thinned_skipn | apply Thinned_refl]. }
  change (lit "]") with [93%N].
  destruct e as [ext|]; [|exact G].
  destruct (truthyStr (Some ext)); [|exact G].
  destruct (lastIndexOf _ _); [|exact G].
  eapply Thinned_trans; [apply Thinned_firstn | exact G].
Qed.

(** X10: a title is drawn from the input: it is the trimmed input with
    characters dropped and spaces inserted, so every character of a title
    other than a space occurs in the input, and in the same order. *)
Theorem parse_title_from_input (s : jsstring) (r : ParseResult) (t : jsstring) :
  HeuristicParser.parse s = inr r ->
  title r = Some t ->
  Thinned t (input r)
  /\ forall c, c <> 32%N -> In c t -> In c s.
Proof.
  intros H Ht. apply parse_inr_inv in H as [_ ->].
  rewrite title_resultOf in Ht. apply extractTitle_Thinned in Ht.
  assert (I : input (resultOf (trim s)) = trim s) by reflexivity.
  rewrite I. split; [exact Ht|].
  intros c Hc Hin. apply (Thinned_In _ _ Ht c Hc) in Hin.
  unfold trim, trimEnd in Hin. apply in_rev in Hin.
  assert (T : forall u, In c (trimStart u) -> In c u).
  { induction u as [|x u IH]; [auto|]. cbn [trimStart].
    destruct (isWhiteSpace x); [right; auto | auto]. }
  apply T, in_rev, T in Hin. exact Hin.
Qed.

Lemma parse_title_from_input_witness :
  Thinned (lit "One Piece") (lit "[G] One.Piece - 01.mkv")
  /\ forall c, c <> 32%N -> In c (lit "One Piece") ->
                In c (lit " [G] One.Piece - 01.mkv ").
Proof.
  apply (parse_title_from_input (lit " [G] One.Piece - 01.mkv ")
           (resultOf (lit "[G] One.Piece - 01.mkv"))).
  - vm_compute. reflexivity.
  - vm_compute. reflexivity.
Defined.

(** ** Bounds and monotonicity of the confidence *)

Lemma computeConfidence_no_codecs (i : jsstring) (t g : option jsstring)
    (ep : option EpisodeSpec) (se : option number) (re : option Resolution)
    (ye : option number) (cr ex : option jsstring) (ve : option number)
    (co : Q) (pm : ParseMode) :
  let c := computeConfidence
             (mkParseResult i t g ep se re None None None ye cr ex ve co pm) in
  (c <= 5 # 8)%Q
  /\ ((c == 5 # 8)%Q <->
      (truthyStr t && truthyStr g && truthy ep && truthy re)%bool = true)
  /\ (truthyStr t = false -> (c <= 3 # 7)%Q).
Proof.
  destruct t as [[|? ?]|], g as [[|? ?]|], ep, re;
    (split; [vm_compute; discriminate|]);
    (split; [split; vm_compute; congruence | vm_compute; congruence]).
Qed.

(** X11: the confidence of a parse result never exceeds 5/8, reaches it
    exactly when title, group, episode and resolution are all recognized,
    and never exceeds 3/7 when there is no title: the codec and source
    fields, which would add to it, are always null. *)
Theorem parse_confidence_at_most (s : jsstring) (r : ParseResult) :
  HeuristicParser.parse s = inr r ->
  (confidence r <= 5 # 8)%Q
  /\ ((confidence r == 5 # 8)%Q <-> fullyRecognized r = true)
  /\ (title r = None -> (confidence r <= 3 # 7)%Q).
Proof.
  intros H. apply parse_inr_inv in H as [_ ->].
  unfold resultOf, fullyRecognized.
  cbn [confidence title group episode resolution].
  set (t := extractTitle _ _ _).
  destruct (computeConfidence_no_codecs (trim s) t (extractGroup (trim s))
              (extractEpisode (trim s)) (extractSeason (trim s))
              (extractResolution (trim s)) (extractYear (trim s))
              (extractCrc32 (trim s)) (extractExtension (trim s)) None 0 Light)
    as (A & B & C).
  repeat split; try assumption; try apply B.
  intros E. apply C. rewrite E. reflexivity.
Qed.

Lemma parse_confidence_at_most_witness :
  (confidence (resultOf (lit "[G] Show - 01 [1080p].mkv")) == 5 # 8)%Q
  /\ (confidence (resultOf (lit "[ ] - 01 [1080p]")) <= 3 # 7)%Q.
Proof.
  split.
  - apply (proj1 (proj2 (parse_confidence_at_most
                           (lit "[G] Show - 01 [1080p].mkv")
                           (resultOf (lit "[G] Show - 01 [1080p].mkv"))
                           ltac:(vm_compute; reflexivity)))).
    vm_compute. reflexivity.
  - apply (proj2 (proj2 (parse_confidence_at_most
                           (lit "[ ] - 01 [1080p]")
                           (resultOf (lit "[ ] - 01 [1080p]"))
                           ltac:(vm_compute; reflexivity)))).
    vm_compute. reflexivity.
Defined.

Lemma filled_le (a b : option jsstring) :
  (truthyStr a = true -> truthyStr b = true) ->
  (0 <= filled a <= filled b)%Z /\ (filled b <= 1)%Z.
Proof.
  destruct a as [[|? ?]|], b as [[|? ?]|]; cbn; intros H; try lia;
    specialize (H eq_refl); discriminate.
Qed.

Lemma present_le {A : Type} (a b : option A) :
  (truthy a = true -> truthy b = true) ->
  (0 <= present a <= present b)%Z /\ (present b <= 1)%Z.
Proof.
  destruct a, b; cbn; intros H; try lia; specialize (H eq_refl); discriminate.
Qed.

(** X12: the confidence is monotone: a record in which every field that
    counts in another record counts as well has a confidence at least as
    high, although a title raises the denominator from 7 to 8. *)
Theorem computeConfidence_monotone (r r' : ParseResult) :
  fieldsLe r r' -> (computeConfidence r <= computeConfidence r')%Q.
Proof.
  intros (Ht & Hg & He & Hr & Hv & Ha & Hs).
  destruct (computeConfidence_value r) as (E & _).
  destruct (computeConfidence_value r') as (E' & _).
  rewrite E, E'. unfold filledNumerator, filledDenominator.
  apply filled_le in Ht, Hg. apply present_le in He, Hr, Hv, Ha, Hs.
  generalize dependent (filled (title r)). intros ft. 
  generalize dependent (filled (title r')). intros ft'.
  generalize dependent (filled (group r)). intros fg.
  generalize dependent (filled (group r')). intros fg'.
  generalize dependent (present (episode r)). intros pe.
  generalize dependent (present (episode r')). intros pe'.
  generalize dependent (present (resolution r)). intros pr.
  generalize dependent (present (resolution r')). intros pr'.
  generalize dependent (present (video_codec r)). intros pv.
  generalize dependent (present (video_codec r')). intros pv'.
  generalize dependent (present (audio_codec r)). intros pa.
  generalize dependent (present (audio_codec r')). intros pa'.
  generalize dependent (present (source r)). intros ps.
  generalize dependent (present (source r')). intros ps'.
  intros.
  assert (T : (ft = 0 \/ ft = 1)%Z) by lia.
  assert (T' : (ft' = 0 \/ ft' = 1)%Z) by lia.
  destruct T as [-> | ->], T' as [-> | ->]; try lia;
    change (7 + 0)%Z with 7%Z; change (7 + 1)%Z with 8%Z;
    change (2 * 0)%Z with 0%Z; change (2 * 1)%Z with 2%Z;
    unfold Qle, Qdiv, Qmult, Qinv, inject_Z; cbn [Qnum Qden Pos.mul]; lia.
Qed.

Lemma computeConfidence_monotone_witness :
  (computeConfidence (resultOf (lit "- 01"))
   <= computeConfidence (resultOf (lit "[G] Show - 01 [1080p]")))%Q.
Proof.
  apply (computeConfidence_monotone (resultOf (lit "- 01"))
           (resultOf (lit "[G] Show - 01 [1080p]"))).
  unfold fieldsLe. vm_compute. repeat split; auto.
Defined.

(** ** Episodes handed over by the native addon *)

Lemma strictEqualsInt_inj (t : jsnumber) (j k : Z) :
  strictEqualsInt t j = true -> strictEqualsInt t k = true -> j = k.
Proof.
  destruct t as [| |q]; try discriminate. cbn [strictEqualsInt].
  intros Hj Hk. apply Qeq_bool_iff in Hj, Hk. rewrite Hj in Hk.
  unfold Qeq, inject_Z in Hk. cbn [Qnum Qden] in Hk. lia.
Qed.

(** X13: for an object that carries a numeric [type] tag among 0, 1, 2, 3
    the tag alone decides the variant: the fields are read by name whether
    or not they are there, a missing one coming out as undefined. *)
Theorem convertEpisodeSpec_tag_decides (props : list (string * jsvalue))
    (t : jsnumber) :
  lookupProp "type"%string props = JNumber t ->
  (strictEqualsInt t 0 = true ->
   convertEpisodeSpec (JObject props)
   = Some (AsSingle (lookupProp "episode"%string props)))
  /\ (strictEqualsInt t 1 = true ->
      convertEpisodeSpec (JObject props)
      = Some (AsRange (lookupProp "start"%string props)
                      (lookupProp "end"%string props)))
  /\ (strictEqualsInt t 2 = true ->
      convertEpisodeSpec (JObject props)
      = Some (AsMulti (lookupProp "episodes"%string props)))
  /\ (strictEqualsInt t 3 = true ->
      convertEpisodeSpec (JObject props)
      = Some (AsVersioned (lookupProp "episode"%string props)
                          (lookupProp "version"%string props))).
Proof.
  intros H. unfold convertEpisodeSpec.
  cbn [toBoolean negb getProp]. rewrite H.
  assert (D : forall j k, j <> k -> strictEqualsInt t j = true ->
                          strictEqualsInt t k = false).
  { intros j k Hjk Hj. destruct (strictEqualsInt t k) eqn:Hk; [|reflexivity].
    exfalso. apply Hjk. exact (strictEqualsInt_inj t j k Hj Hk). }
  repeat split; intros E.
  - rewrite E. reflexivity.
  - rewrite (D 1 0 ltac:(lia) E)%Z, E. reflexivity.
  - rewrite (D 2 0 ltac:(lia) E)%Z, (D 2 1 ltac:(lia) E)%Z, E. reflexivity.
  - rewrite (D 3 0 ltac:(lia) E)%Z, (D 3 1 ltac:(lia) E)%Z,
      (D 3 2 ltac:(lia) E)%Z, E. reflexivity.
Qed.

Lemma convertEpisodeSpec_tag_decides_witness :
  convertEpisodeSpec
    (JObject [("start"%string, JNumber (JFinite 1));
              ("type"%string, JNumber (JFinite 3))])
  = Some (AsVersioned JUndefined JUndefined).
Proof.
  apply (proj2 (proj2 (proj2 (convertEpisodeSpec_tag_decides
           [("start"%string, JNumber (JFinite 1));
            ("type"%string, JNumber (JFinite 3))]
           (JFinite 3) eq_refl)))).
  reflexivity.
Defined.

(** X14: a single episode comes out of exactly two kinds of native value:
    a number that is neither zero nor NaN, which is the episode itself, and
    an object tagged 0, whose [episode] property is read.  So the bare
    number 0 is converted to null, and so is an untagged object that has
    an [episode] and nothing else. *)
Theorem convertEpisodeSpec_single_iff (v x : jsvalue) :
  convertEpisodeSpec v = Some (AsSingle x) <->
  (toBoolean v = true /\ x = v /\ exists n, v = JNumber n)
  \/ (exists props t,
        v = JObject props /\ lookupProp "type"%string props = JNumber t
        /\ strictEqualsInt t 0 = true
        /\ x = lookupProp "episode"%string props).
Proof.
  split.
  - unfold convertEpisodeSpec.
    destruct (toBoolean v) eqn:B; cbn [negb]; [|discriminate].
    assert (U : forall w : jsvalue,
              (if (defined (getProp "episode" w)
                   && defined (getProp "version" w))%bool
               then Some (AsVersioned (getProp "episode" w)
                                      (getProp "version" w))
               else if (defined (getProp "start" w)
                        && defined (getProp "end" w))%bool
               then Some (AsRange (getProp "start" w) (getProp "end" w))
               else if defined (getProp "episodes" w)
               then Some (AsMulti (getProp "episodes" w))
               else None) <> Some (AsSingle x)).
    { intros w.
      destruct (defined (getProp "episode" w) && defined (getProp "version" w))%bool;
        [discriminate|].
      destruct (defined (getProp "start" w) && defined (getProp "end" w))%bool;
        [discriminate|].
      destruct (defined (getProp "episodes" w)); discriminate. }
    destruct v as [| |b|n|str|items|props];
      try (cbn [getProp]; intros H; exfalso; revert H;
           apply (U JUndefined)).
    + intros [= <-]. left. eauto.
    + cbn [getProp]. pose proof (U (JObject props)) as U0. cbn [getProp] in U0.
      destruct (lookupProp "type" props) as [| |b|t|str|items|props0] eqn:T;
        try (intros H; exfalso; exact (U0 H)).
      destruct (strictEqualsInt t 0) eqn:E0.
      { intros [= <-]. right. exists props, t. auto. }
      destruct (strictEqualsInt t 1); [discriminate|].
      destruct (strictEqualsInt t 2); [discriminate|].
      destruct (strictEqualsInt t 3); [discriminate|].
      intros H. exfalso. exact (U0 H).
  - intros [(B & -> & n & ->) | (props & t & -> & T & E & ->)];
      unfold convertEpisodeSpec.
    + rewrite B. reflexivity.
    + cbn [toBoolean negb getProp]. rewrite T, E. reflexivity.
Qed.

Lemma convertEpisodeSpec_single_iff_witness :
  convertEpisodeSpec (JNumber (JFinite 7)) = Some (AsSingle (JNumber (JFinite 7)))
  /\ convertEpisodeSpec (JNumber (JFinite 0)) = None
  /\ convertEpisodeSpec (JObject [("episode"%string, JNumber (JFinite 7))])
     = None.
Proof.
  split; [|split; reflexivity].
  apply (proj2 (convertEpisodeSpec_single_iff (JNumber (JFinite 7))
                  (JNumber (JFinite 7)))).
  left. split; [reflexivity|]. split; [reflexivity|]. eauto.
Defined.

(** ** The native addon is probed once *)

Lemma initNative_initialized (require : option jsvalue) (st : ModuleState) :
  initialized (initNative require st) = true.
Proof.
  unfold initNative. destruct (initialized st) eqn:E; [exact E|].
  destruct require; reflexivity.
Qed.

Lemma initNative_fixed (require : option jsvalue) (st : ModuleState) :
  initialized st = true -> initNative require st = st.
Proof. unfold initNative. intros ->. reflexivity. Qed.

(** X15: the addon is probed once: after the first [initNative], whatever
    later calls would find, the module state stays as the first call left
    it, and [isUsingNativeModule] answers whether that first probe
    succeeded. *)
Theorem initNative_probes_once (first : option jsvalue)
    (later : list (option jsvalue)) (again : option jsvalue) :
  initNativeCalls (first :: later) initialState = initNative first initialState
  /\ isUsingNativeModule again (initNativeCalls (first :: later) initialState)
     = (truthy first, initNative first initialState).
Proof.
  assert (F : forall st, initialized st = true ->
                         initNativeCalls later st = st).
  { unfold initNativeCalls. induction later as [|r later IH]; intros st I;
      [reflexivity|].
    cbn [fold_left]. rewrite (initNative_fixed r st I). apply IH, I. }
  assert (E : initNativeCalls (first :: later) initialState
              = initNative first initialState).
  { unfold initNativeCalls. cbn [fold_left].
    apply F, initNative_initialized. }
  split; [exact E|]. rewrite E. unfold isUsingNativeModule.
  rewrite (initNative_fixed again _ (initNative_initialized first initialState)).
  destruct first; reflexivity.
Qed.

Lemma initNative_probes_once_witness :
  isUsingNativeModule (Some (JObject []))
    (initNativeCalls [None; Some (JObject [])] initialState)
  = (false, initNative None initialState).
Proof.
  apply (proj2 (initNative_probes_once None [Some (JObject [])]
                  (Some (JObject [])))).
Defined.

(** ** The two removal steps of the title pass *)

Lemma indexOf_first (c : N) (a b : jsstring) :
  ~ In c a -> indexOf [c] (a ++ c :: b) = Some (length a).
Proof.
  induction a as [|x a IH]; intros Ha; cbn [app]; rewrite indexOf_cons;
    cbn [startsWith].
  - rewrite N.eqb_refl. reflexivity.
  - assert (E : N.eqb c x = false)
      by (apply N.eqb_neq; intros ->; apply Ha; left; reflexivity).
    rewrite E. cbn [andb]. rewrite IH by (intros H; apply Ha; right; exact H).
    reflexivity.
Qed.

Lemma indexOf_absent (c : N) (a : jsstring) :
  ~ In c a -> indexOf [c] a = None.
Proof.
  induction a as [|x a IH]; intros Ha; [reflexivity|].
  rewrite indexOf_cons. cbn [startsWith].
  assert (E : N.eqb c x = false)
    by (apply N.eqb_neq; intros ->; apply Ha; left; reflexivity).
  rewrite E. cbn [andb]. rewrite IH by (intros H; apply Ha; right; exact H).
  reflexivity.
Qed.

Lemma skipn_app_cons (a b : jsstring) (c : N) :
  skipn (S (length a)) (a ++ c :: b) = b.
Proof. induction a as [|x a IH]; [reflexivity | exact IH]. Qed.

Lemma startsWith_short (pat s : jsstring) :
  length s < length pat -> startsWith pat s = false.
Proof.
  intros L. destruct (startsWith pat s) eqn:E; [|reflexivity].
  apply startsWith_spec in E as [b ->]. rewrite length_app in L. lia.
Qed.

Lemma lastIndexOf_short (pat s : jsstring) :
  length s < length pat -> lastIndexOf pat s = None.
Proof.
  induction s as [|c s IH]; intros L; cbn [lastIndexOf].
  - rewrite (startsWith_short pat [] L). reflexivity.
  - cbn [length] in L. rewrite IH by lia.
    rewrite (startsWith_short pat (c :: s) L). reflexivity.
Qed.

Lemma lastIndexOf_self (pat : jsstring) :
  pat <> [] -> lastIndexOf pat pat = Some 0.
Proof.
  intros Hne. destruct pat as [|p pat]; [congruence|]. cbn [lastIndexOf].
  rewrite lastIndexOf_short by (cbn [length]; lia).
  assert (E : startsWith (p :: pat) (p :: pat) = true)
    by (apply startsWith_spec; exists []; symmetry; apply app_nil_r).
  rewrite E. reflexivity.
Qed.

Lemma lastIndexOf_app_end (pat w : jsstring) :
  pat <> [] -> lastIndexOf pat (w ++ pat) = Some (length w).
Proof.
  intros Hne. induction w as [|x w IH]; [apply lastIndexOf_self, Hne|].
  cbn [app lastIndexOf length]. rewrite IH. reflexivity.
Qed.

Lemma lastIndexOf_Has (pat s : jsstring) (i : nat) :
  lastIndexOf pat s = Some i -> Has pat s.
Proof.
  revert i. induction s as [|c s IH]; intros i; cbn [lastIndexOf].
  - destruct (startsWith pat []) eqn:E; [|discriminate].
    intros _. apply startsWith_spec in E as [b E]. exists [], b. exact E.
  - destruct (lastIndexOf pat s) as [j|].
    + intros _. destruct (IH j eq_refl) as (a & b & ->).
      exists (c :: a), b. reflexivity.
    + destruct (startsWith pat (c :: s)) eqn:E; [|discriminate].
      intros _. apply startsWith_spec in E as [b E]. exists [], b. exact E.
Qed.

Lemma Has_skipn (m s : jsstring) (n : nat) : Has m (skipn n s) -> Has m s.
Proof.
  intros (a & b & E). exists (firstn n s ++ a), b.
  rewrite <- app_assoc, <- E. symmetry. apply firstn_skipn.
Qed.

Lemma indexOf_app_absent (c : N) (pre x : jsstring) :
  ~ In c x -> indexOf [c] (pre ++ x) = indexOf [c] pre.
Proof.
  intros Hx. induction pre as [|y pre IH]; cbn [app].
  - apply indexOf_absent, Hx.
  - rewrite !indexOf_cons. cbn [startsWith]. rewrite IH. reflexivity.
Qed.

Lemma indexOf_single_lt (c : N) (s : jsstring) (i : nat) :
  indexOf [c] s = Some i -> i < length s.
Proof.
  revert i. induction s as [|y s IH]; intros i; [discriminate|].
  rewrite indexOf_cons. cbn [startsWith length].
  destruct (N.eqb c y && true)%bool; [intros [= <-]; lia|].
  destruct (indexOf [c] s) as [j|]; [|discriminate].
  intros [= <-]. specialize (IH j eq_refl). lia.
Qed.

(** The text left by the group-removal step runs on into what follows the
    input, when that holds no closing bracket. *)
Lemma group_step_app (g : option jsstring) (pre x : jsstring) :
  ~ In 93%N x ->
  (if truthyStr g
   then match indexOf [93%N] (pre ++ x) with
        | Some groupIdx => substringFrom (groupIdx + 1) (pre ++ x)
        | None => pre ++ x
        end
   else pre ++ x)
  = (if truthyStr g
     then match indexOf [93%N] pre with
          | Some groupIdx => substringFrom (groupIdx + 1) pre
          | None => pre
          end
     else pre) ++ x.
Proof.
  intros Hx. destruct (truthyStr g); [|reflexivity].
  rewrite (indexOf_app_absent _ pre x Hx).
  destruct (indexOf [93%N] pre) as [i|] eqn:E; [|reflexivity].
  apply indexOf_single_lt in E. unfold substringFrom.
  rewrite skipn_app.
  replace (i + 1 - length pre) with 0 by lia. reflexivity.
Qed.

(** X16: the extension is removed from the title material only when it
    stands in lower case in the input.  When the input ends with a dot and
    the returned extension itself, the title is the one computed from the
    input without that ending (so only the last extension is removed);
    when the dot followed by the returned extension occurs nowhere in the
    input, as for an upper-case extension, nothing is removed and the
    extension is left to the rest of the title pass. *)
Theorem title_extension_removal (s e : jsstring) :
  extractExtension s = Some e ->
  (forall pre, s = pre ++ ch "." :: e ->
     title (resultOf s) = extractTitle pre (extractGroup s) None)
  /\ (~ Has (ch "." :: e) s ->
      title (resultOf s) = extractTitle s (extractGroup s) None).
Proof.
  intros He. rewrite title_resultOf, He.
  assert (P : e <> [] /\ ~ In 93%N e).
  { unfold extractExtension in He.
    destruct (re_exec reExtension s) as [[sk m]|] eqn:E; [|discriminate].
    injection He as <-.
    destruct (proj1 (re_exec_reExtension s) sk m E) as (pre & _ & Hne & F).
    split.
    - destruct (captured 1 m); [congruence | discriminate].
    - unfold toLowerCase. intros Hin. apply in_map_iff in Hin as (x & Hx & Hin).
      rewrite Forall_forall in F. specialize (F x Hin).
      unfold lower, isUpper in Hx. char_lia. }
  destruct P as [Hne H93].
  assert (T : truthyStr (Some e) = true) by (destruct e; [congruence | reflexivity]).
  generalize (extractGroup s). intros g. split.
  - intros pre ->. unfold extractTitle. cbv zeta. rewrite T.
    cbn [truthyStr]. change (lit "]") with [93%N].
    change (lit "." ++ e) with (ch "." :: e).
    rewrite (group_step_app g pre (ch "." :: e)).
    + rewrite lastIndexOf_app_end by discriminate.
      unfold substringTo. rewrite firstn_app, firstn_all, Nat.sub_diag.
      cbn [firstn]. rewrite app_nil_r. reflexivity.
    + intros [H|H]; [discriminate | exact (H93 H)].
  - intros Hno. unfold extractTitle. cbv zeta. rewrite T.
    change (lit "." ++ e) with (ch "." :: e). change (lit "]") with [93%N].
    assert (L : lastIndexOf (ch "." :: e)
                  (if truthyStr g
                   then match indexOf [93%N] s with
                        | Some groupIdx => substringFrom (groupIdx + 1) s
                        | None => s
                        end
                   else s) = None).
    { destruct (lastIndexOf _ _) as [i|] eqn:E; [|reflexivity].
      exfalso. apply Hno. apply lastIndexOf_Has in E.
      destruct (truthyStr g); [|exact E].
      destruct (indexOf [93%N] s); [|exact E].
      unfold substringFrom in E. eapply Has_skipn, E. }
    rewrite L. reflexivity.
Qed.

Lemma title_extension_removal_witness :
  title (resultOf (lit "[G] Show Name.MKV"))
  = extractTitle (lit "[G] Show Name.MKV") (Some (lit "G")) None
  /\ title (resultOf (lit "Show.tar.gz")) = Some (lit "Show tar").
Proof.
  split.
  - apply (proj2 (title_extension_removal (lit "[G] Show Name.MKV") (lit "mkv")
                    ltac:(vm_compute; reflexivity))).
    apply includes_not_Has. vm_compute. reflexivity.
  - rewrite (proj1 (title_extension_removal (lit "Show.tar.gz") (lit "gz")
                      ltac:(vm_compute; reflexivity)) (lit "Show.tar") eq_refl).
    vm_compute. reflexivity.
Defined.

(** X17: when the group is not the empty string, the title is the one
    computed from the text after the group tag, that is after the first
    closing bracket of the input. *)
Theorem title_group_removal (s g : jsstring) :
  extractGroup s = Some g -> g <> [] ->
  exists body rest,
    s = ch "[" :: body ++ ch "]" :: rest /\ g = trim body
    /\ forall e, extractTitle s (Some g) e = extractTitle rest None e.
Proof.
  intros Hg Hne. unfold extractGroup in Hg.
  destruct (re_exec reGroup s) as [[sk m]|] eqn:E; [|discriminate].
  injection Hg as <-.
  destruct (proj1 (re_exec_reGroup s) sk m E) as (rest & -> & _ & Hno).
  exists (captured 1 m), rest. split; [reflexivity|]. split; [reflexivity|].
  intros e. unfold extractTitle. cbv zeta.
  assert (T : truthyStr (Some (trim (captured 1 m))) = true)
    by (destruct (trim (captured 1 m)); [congruence | reflexivity]).
  rewrite T. cbn [truthyStr]. change (lit "]") with [93%N].
  change (ch "[" :: captured 1 m ++ ch "]" :: rest)
    with ((ch "[" :: captured 1 m) ++ 93%N :: rest).
  rewrite indexOf_first
    by (intros [H|H]; [discriminate | exact (Hno H)]).
  unfold substringFrom. rewrite Nat.add_1_r, skipn_app_cons. reflexivity.
Qed.

Lemma title_group_removal_witness :
  exists body rest,
    lit "[G] Show [x] - 01" = ch "[" :: body ++ ch "]" :: rest
    /\ lit "G" = trim body
    /\ forall e, extractTitle (lit "[G] Show [x] - 01") (Some (lit "G")) e
                 = extractTitle rest None e.
Proof.
  apply (title_group_removal (lit "[G] Show [x] - 01") (lit "G")).
  - vm_compute. reflexivity.
  - discriminate.
Defined.
